(** * A quorum-replicated key-value service: shallow embedding and properties

    The repository holds two variants of the same HTTP key-value node:

    - [main.go], whose client write endpoint is [putHandler] (leader only,
      concurrent fan-out joined by a wait group);
    - a second [main] package (the one the integration test drives through
      [/set] and [/local_read]), whose client write endpoint is [setHandler]
      (leader or leaderless coordinator, sequential fan-out).

    [configHandler], [replicateHandler], [getHandler] and [replicateTo] are
    textually the same in both, up to the simulated [time.Sleep] delays,
    which have no effect on the values computed and are left out.

    Process state (the package-level variables) is threaded explicitly.
    Everything the handlers obtain from outside the process is an input of
    the embedding: the parsed query ([url.Values]), the clock reading
    ([time.Now().UnixNano()]), the outcome of each outbound [replicateTo]
    call, and the order in which fan-out results arrive on the read
    channel.

    Contents: the data model and the handlers; histories of store mutations
    and runs of one node; the JSON wire format of an entry; then the
    properties: the store and replication apply, [replicateHandler],
    [configHandler], the quorum read, the write gate, quorum arithmetic and
    fan-out, the store invariant, and the JSON round trip. *)

From Stdlib Require Import ZArith Lia Bool Ascii String List.
From stdpp Require Import gmap strings list fin_maps.

Local Open Scope string_scope.
Local Open Scope list_scope.
Local Open Scope Z_scope.

(** ** Data model *)

(** [type Entry struct { Value string; Timestamp int64 }].  A Go string is a
    sequence of bytes; [string] is a sequence of 8-bit [ascii]. *)
Record Entry : Type := mkEntry { Value : string; Timestamp : Z }.

#[global] Instance Entry_eq_dec : EqDecision Entry.
Proof. solve_decision. Defined.

(** The zero value [Entry{}], which [var best Entry] denotes. *)
Definition zeroEntry : Entry := mkEntry "" 0.

(** Bounds of [int64]. *)
Definition minInt64 : Z := - 2 ^ 63.
Definition maxInt64 : Z := 2 ^ 63 - 1.
Definition int64 (z : Z) : Prop := minInt64 <= z <= maxInt64.

(** The package-level variables [svc.data], [peers], [isLeader], [N], [R],
    [W] of one process. *)
Record Node : Type := mkNode {
  data : gmap string Entry;
  peers : list string;
  isLeader : bool;
  N : Z;
  R : Z;
  W : Z
}.

Definition set_data (nd : Node) (d : gmap string Entry) : Node :=
  mkNode d (peers nd) (isLeader nd) (N nd) (R nd) (W nd).

(** [svc = Store{data: make(map[string]Entry)}] with the flags of [main]. *)
Definition startNode (ps : list string) (leader : bool) (n r w : Z) : Node :=
  mkNode ∅ ps leader n r w.

(** ** The request and the response *)

(** [url.Values] is [map[string][]string]; [Get] returns the first value
    stored under the key, or the empty string. *)
Definition Get (q : gmap string (list string)) (key : string) : string :=
  match q !! key with
  | Some (v :: _) => v
  | _ => ""
  end.

(** What a handler writes to its [http.ResponseWriter]. *)
Inductive Body : Type :=
| NoBody
| Plain (msg : string)                 (* http.Error, http.NotFound *)
| EntryJSON (e : Entry)                (* w.Write(json.Marshal(e)) *)
| Reconfigured (n w r : Z).            (* "reconfigured to N=%d W=%d R=%d\n" *)

Record Response : Type := mkResponse { code : Z; body : Body }.

#[global] Instance Body_eq_dec : EqDecision Body.
Proof. solve_decision. Defined.
#[global] Instance Response_eq_dec : EqDecision Response.
Proof. solve_decision. Defined.

Definition StatusOK : Z := 200.
Definition StatusCreated : Z := 201.
Definition StatusBadRequest : Z := 400.
Definition StatusNotFound : Z := 404.
Definition StatusInternalServerError : Z := 500.

Definition httpError (msg : string) (c : Z) : Response := mkResponse c (Plain msg).
Definition httpNotFound : Response := httpError "404 page not found" StatusNotFound.

(** ** [strconv.ParseInt(s, 10, 64)] and [strconv.Atoi]

    An optional sign, then at least one decimal digit and nothing else; the
    value must fit [int64].  The library accumulates in a [uint64] and
    reports a range error on overflow; here the digits are accumulated
    without bound and the range is checked at the end, which gives the same
    value and the same [err == nil].  [None] stands for [err != nil]. *)
Definition digitVal (c : ascii) : option Z :=
  let n := Z.of_nat (nat_of_ascii c) in
  if (48 <=? n) && (n <=? 57) then Some (n - 48) else None.

Fixpoint parseDigits (acc : Z) (s : string) : option Z :=
  match s with
  | EmptyString => Some acc
  | String c s' =>
      match digitVal c with
      | Some d => parseDigits (acc * 10 + d) s'
      | None => None
      end
  end.

Definition ParseUint (s : string) : option Z :=
  match s with
  | EmptyString => None
  | _ => parseDigits 0 s
  end.

Definition ParseInt (s : string) : option Z :=
  match s with
  | EmptyString => None
  | String c s' =>
      let neg := Ascii.eqb c "-" in
      let s0 := if Ascii.eqb c "+" || neg then s' else s in
      match ParseUint s0 with
      | None => None
      | Some un =>
          if neg then (if un <=? 2 ^ 63 then Some (- un) else None)
          else (if un <? 2 ^ 63 then Some un else None)
      end
  end.

(** [strconv.Atoi] is [ParseInt(s, 10, 0)] converted to [int]; [int] is 64
    bits wide on the platforms the service is built for. *)
Definition Atoi (s : string) : option Z := ParseInt s.

(** ** The store *)

(** The critical section of [replicateHandler]:
    [if e, ok := svc.data[key]; !ok || ts > e.Timestamp { svc.data[key] = Entry{val, ts} }].
    The boolean tells whether the assignment ran. *)
Definition applyIfNewer (d : gmap string Entry) (key : string) (c : Entry)
  : gmap string Entry * bool :=
  match d !! key with
  | Some e => if Timestamp e <? Timestamp c then (<[key := c]> d, true) else (d, false)
  | None => (<[key := c]> d, true)
  end.

(** The critical section of [putHandler] and of both branches of
    [setHandler]: [svc.data[key] = Entry{Value: val, Timestamp: ts}]. *)
Definition localWrite (d : gmap string Entry) (key : string) (c : Entry)
  : gmap string Entry :=
  <[key := c]> d.

(** ** [configHandler] *)

Definition configHandler (nd : Node) (q : gmap string (list string)) : Node * Response :=
  let n1 :=
    let v := Get q "N" in
    if decide (v = "") then N nd
    else match Atoi v with Some i => i | None => N nd end in
  let w1 :=
    let v := Get q "W" in
    if decide (v = "") then W nd
    else match Atoi v with Some i => i | None => W nd end in
  let r1 :=
    let v := Get q "R" in
    if decide (v = "") then R nd
    else match Atoi v with Some i => i | None => R nd end in
  (mkNode (data nd) (peers nd) (isLeader nd) n1 r1 w1,
   mkResponse StatusOK (Reconfigured n1 w1 r1)).

(** ** [replicateHandler] *)

Definition replicateHandler (nd : Node) (q : gmap string (list string)) : Node * Response :=
  let key := Get q "key" in
  let val := Get q "value" in
  let tsStr := Get q "timestamp" in
  match ParseInt tsStr with
  | Some ts =>
      if decide (key = "") then
        (nd, httpError "invalid replicate args" StatusBadRequest)
      else
        (set_data nd (applyIfNewer (data nd) key (mkEntry val ts)).1,
         mkResponse StatusOK NoBody)
  | None => (nd, httpError "invalid replicate args" StatusBadRequest)
  end.

(** ** [getReplicaHandler] and [localReadHandler] *)

Definition lookupHandler (nd : Node) (key : string) : Response :=
  match data nd !! key with
  | Some e => mkResponse StatusOK (EntryJSON e)
  | None => httpNotFound
  end.

Definition getReplicaHandler (nd : Node) (q : gmap string (list string)) : Response :=
  lookupHandler nd (Get q "key").

Definition localReadHandler (nd : Node) (q : gmap string (list string)) : Response :=
  lookupHandler nd (Get q "key").

(** ** The client write: [putHandler] and [setHandler] *)

(** What a write handler did: the response, the process state it leaves,
    the outbound [replicateTo] calls it made and whose result it had in hand
    before it responded (peer and acknowledgment, in the order of the peer
    list), and the peers for which it only started a goroutine
    ([go replicateTo(...)]) and did not wait. *)
Record WriteResult : Type := mkWriteResult {
  resp : Response;
  after : Node;
  awaited : list (string * bool);
  detached : list string
}.

(** A handler that returns before touching the store or the network. *)
Definition refuse (nd : Node) (r : Response) : WriteResult :=
  mkWriteResult r nd [] [].

(** Number of [true] acknowledgments among completed calls. *)
Definition peerAcks (tr : list (string * bool)) : Z :=
  Z.of_nat (length (filter (λ pr, pr.2 = true) tr)).

Section Write.

(** [replicateTo(peer, key, val, ts)]: one POST to the peer; [true] only on
    a 200 response.  The network and the peer are outside the process, so
    the outcome of each call is given. *)
Variable replicateTo : string → string → string → Z → bool.

(** [putHandler], synchronous branch: one goroutine per peer, each adding
    one to [acks] under a mutex when its call succeeds, all joined by
    [wg.Wait()].  The goroutines finish in any order; the trace lists them
    in the order of [peers]. *)
Definition fanoutAll (ps : list string) (key val : string) (ts : Z)
  : list (string * bool) :=
  map (λ p, (p, replicateTo p key val ts)) ps.

(** [putHandler] of [main.go].  [ts] is [time.Now().UnixNano()]. *)
Definition putHandler (nd : Node) (q : gmap string (list string)) (ts : Z)
  : WriteResult :=
  let key := Get q "key" in
  let val := Get q "value" in
  if decide (key = "") then
    refuse nd (httpError "key required" StatusBadRequest)
  else if isLeader nd then
    let nd1 := set_data nd (localWrite (data nd) key (mkEntry val ts)) in
    if W nd =? 1 then
      mkWriteResult (mkResponse StatusOK NoBody) nd1 [] (peers nd)
    else
      let tr := fanoutAll (peers nd) key val ts in
      let acks := 1 + peerAcks tr in
      if acks <? W nd then
        mkWriteResult
          (httpError "write quorum not met" StatusInternalServerError) nd1 tr []
      else
        mkWriteResult (mkResponse StatusOK NoBody) nd1 tr []
  else
    refuse nd (httpError "writes only allowed on leader" StatusBadRequest).

(** [setHandler], leader branch with [W != 1]:
    [for _, peer := range peers { if replicateTo(...) { acks++ }; if acks >= W { break } }].
    Returns the final [acks] and the calls made. *)
Fixpoint leaderLoop (w acks : Z) (ps : list string) (key val : string) (ts : Z)
  : Z * list (string * bool) :=
  match ps with
  | [] => (acks, [])
  | peer :: ps' =>
      let ok := replicateTo peer key val ts in
      let acks1 := if ok then acks + 1 else acks in
      if w <=? acks1 then (acks1, [(peer, ok)])
      else
        let '(a, tr) := leaderLoop w acks1 ps' key val ts in
        (a, (peer, ok) :: tr)
  end.

(** [setHandler], leaderless branch:
    [for _, peer := range peers { if replicateTo(...) { acks++ } }]. *)
Fixpoint leaderlessLoop (acks : Z) (ps : list string) (key val : string) (ts : Z)
  : Z * list (string * bool) :=
  match ps with
  | [] => (acks, [])
  | peer :: ps' =>
      let ok := replicateTo peer key val ts in
      let acks1 := if ok then acks + 1 else acks in
      let '(a, tr) := leaderlessLoop acks1 ps' key val ts in
      (a, (peer, ok) :: tr)
  end.

(** [setHandler] of the second variant. *)
Definition setHandler (nd : Node) (q : gmap string (list string)) (ts : Z)
  : WriteResult :=
  let key := Get q "key" in
  let val := Get q "value" in
  if decide (key = "") then
    refuse nd (httpError "key required" StatusBadRequest)
  else if isLeader nd then
    let nd1 := set_data nd (localWrite (data nd) key (mkEntry val ts)) in
    if W nd =? 1 then
      mkWriteResult (mkResponse StatusCreated NoBody) nd1 [] (peers nd)
    else
      let '(acks, tr) := leaderLoop (W nd) 1 (peers nd) key val ts in
      if acks <? W nd then
        mkWriteResult
          (httpError "write quorum not met" StatusInternalServerError) nd1 tr []
      else
        mkWriteResult (mkResponse StatusCreated NoBody) nd1 tr []
  else if negb (isLeader nd) && (W nd =? N nd) then
    let nd1 := set_data nd (localWrite (data nd) key (mkEntry val ts)) in
    let '(acks, tr) := leaderlessLoop 1 (peers nd) key val ts in
    if acks <? W nd then
      mkWriteResult
        (httpError "write quorum not met" StatusInternalServerError) nd1 tr []
    else
      mkWriteResult (mkResponse StatusCreated NoBody) nd1 tr []
  else
    refuse nd (httpError "writes only allowed on leader" StatusBadRequest).

End Write.

(** The outcomes of the write operation, read off the response. *)
Inductive WriteOutcome : Type :=
| Accepted | QuorumNotMet | NotCoordinator | InvalidRequest.

#[global] Instance WriteOutcome_eq_dec : EqDecision WriteOutcome.
Proof. solve_decision. Defined.

Definition writeOutcome (r : Response) : WriteOutcome :=
  if (code r =? StatusOK) || (code r =? StatusCreated) then Accepted
  else if code r =? StatusInternalServerError then QuorumNotMet
  else if decide (body r = Plain "writes only allowed on leader") then NotCoordinator
  else InvalidRequest.

(** ** The client read: [getHandler] *)

(** [type result struct { e Entry; ok bool }], local to [getHandler]. *)
Record result : Type := mkResult { e : Entry; ok : bool }.

(** The goroutine reading the local store: [e, ok := svc.data[key]]. *)
Definition localResult (nd : Node) (key : string) : result :=
  match data nd !! key with
  | Some en => mkResult en true
  | None => mkResult zeroEntry false
  end.

(** The collecting loop:
    [for r2 := range resCh { if !r2.ok { continue }; got++;
       if r2.e.Timestamp > best.Timestamp { best = r2.e }; if got >= R { break } }]. *)
Fixpoint collect (r : Z) (got : Z) (best : Entry) (resCh : list result)
  : Z * Entry :=
  match resCh with
  | [] => (got, best)
  | r2 :: rest =>
      if negb (ok r2) then collect r got best rest
      else
        let got1 := got + 1 in
        let best1 := if Timestamp best <? Timestamp (e r2) then e r2 else best in
        if r <=? got1 then (got1, best1) else collect r got1 best1 rest
  end.

(** [getHandler].  [resCh] is the sequence of results received from the
    channel: the local result and one result per peer, in the order in
    which the goroutines delivered them. *)
Definition getHandler (nd : Node) (q : gmap string (list string)) (resCh : list result)
  : Response :=
  let key := Get q "key" in
  if decide (key = "") then httpError "key required" StatusBadRequest
  else if R nd =? 1 then
    match data nd !! key with
    | None => httpNotFound
    | Some en => mkResponse StatusOK (EntryJSON en)
    end
  else
    let '(got, best) := collect (R nd) 0 zeroEntry resCh in
    if got <? 1 then httpNotFound
    else mkResponse StatusOK (EntryJSON best).

(** The results the goroutines of [getHandler] send: the local one, and for
    each peer the given outcome of its [/getReplica] call. *)
Definition sentResults (nd : Node) (key : string) (fetch : string → result)
  : list result :=
  localResult nd key :: map fetch (peers nd).

(** The successful responses the collecting loop counts when [R > 1]: the
    first [R] of them in arrival order. *)
Definition counted (r : Z) (resCh : list result) : list result :=
  take (Z.to_nat r) (filter (λ x, ok x = true) resCh).

(** ** Histories of store mutations

    Every handler holds the store lock for exactly one of two mutations: the
    unconditional assignment of a client write or the guarded assignment of
    a replication request.  The history of one process's store is the
    sequence of these mutations in the order the lock serialises them. *)
Inductive Apply : Type :=
| LocalWrite (key : string) (c : Entry)
| ReplAccept (key : string) (c : Entry).

Definition applyKey (a : Apply) : string :=
  match a with LocalWrite k _ | ReplAccept k _ => k end.

Definition applyEntry (a : Apply) : Entry :=
  match a with LocalWrite _ c | ReplAccept _ c => c end.

Definition step (d : gmap string Entry) (a : Apply) : gmap string Entry :=
  match a with
  | LocalWrite k c => localWrite d k c
  | ReplAccept k c => (applyIfNewer d k c).1
  end.

Fixpoint run (d : gmap string Entry) (h : list Apply) : gmap string Entry :=
  match h with
  | [] => d
  | a :: h' => run (step d a) h'
  end.

(** The largest timestamp applied for [key] along [h], starting from [acc]
    ([None] when nothing was applied). *)
Definition bump (acc : option Z) (t : Z) : option Z :=
  match acc with
  | Some m => Some (Z.max m t)
  | None => Some t
  end.

Fixpoint maxApplied (acc : option Z) (h : list Apply) (key : string) : option Z :=
  match h with
  | [] => acc
  | a :: h' =>
      maxApplied
        (if decide (applyKey a = key) then bump acc (Timestamp (applyEntry a)) else acc)
        h' key
  end.

(** A client write is _fresh_ when its timestamp is not older than the one
    stored under its key at the moment it is applied. *)
Definition freshAt (d : gmap string Entry) (a : Apply) : bool :=
  match a with
  | LocalWrite k c =>
      match d !! k with
      | Some e0 => Timestamp e0 <=? Timestamp c
      | None => true
      end
  | ReplAccept _ _ => true
  end.

Fixpoint freshWrites (d : gmap string Entry) (h : list Apply) : bool :=
  match h with
  | [] => true
  | a :: h' => freshAt d a && freshWrites (step d a) h'
  end.

(** The node that coordinates a write according to the specification:
    the leader, or a peer when [W == N]. *)
Definition coordinates (nd : Node) : bool := isLeader nd || (W nd =? N nd).

(** A query carrying the three parameters of a replicate request. *)
Definition replicateQuery (key val tsStr : string) : gmap string (list string) :=
  {[ "key" := [key]; "value" := [val]; "timestamp" := [tsStr] ]}.

(** A query carrying the two parameters of a client write. *)
Definition writeQuery (key val : string) : gmap string (list string) :=
  {[ "key" := [key]; "value" := [val] ]}.

(** The running maximum kept by the collecting loop over the responses it
    counts, starting from [best]:
    [if r2.e.Timestamp > best.Timestamp { best = r2.e }]. *)
Definition pick (best : Entry) (cs : list result) : Entry :=
  fold_left (λ b x, if Timestamp b <? Timestamp (e x) then e x else b) cs best.

(** The tally a write handler compares with [W]: [acks := 1] for the local
    write, plus one for each successful call it waited for. *)
Definition acknowledgments (r : WriteResult) : Z := 1 + peerAcks (awaited r).

(** The tally that asking every peer of the list would give. *)
Definition acknowledgmentsOfAll (replicateTo : string → string → string → Z → bool)
    (nd : Node) (key val : string) (ts : Z) : Z :=
  1 + peerAcks (fanoutAll replicateTo (peers nd) key val ts).

(** ** Runs of one node

    The requests that change the state of a process, each with the input it
    takes from outside: the client write with its clock reading, the
    replicate request, the reconfiguration.  Reads change nothing. *)
Inductive Request : Type :=
| ClientWrite (q : gmap string (list string)) (ts : Z)
| Replicate (q : gmap string (list string))
| Reconfigure (q : gmap string (list string)).

(** Which of the two programs the node runs. *)
Inductive Service : Type := PutService | SetService.

Definition writeHandler (sv : Service)
    (replicateTo : string → string → string → Z → bool)
  : Node → gmap string (list string) → Z → WriteResult :=
  match sv with
  | PutService => putHandler replicateTo
  | SetService => setHandler replicateTo
  end.

Definition serve (sv : Service) (replicateTo : string → string → string → Z → bool)
    (nd : Node) (rq : Request) : Node :=
  match rq with
  | ClientWrite q ts => after (writeHandler sv replicateTo nd q ts)
  | Replicate q => (replicateHandler nd q).1
  | Reconfigure q => (configHandler nd q).1
  end.

(** The entry a request applies to the local store, if it applies one: a
    client write that was not turned away applies its entry as a local
    write, a replicate request that passed validation applies its entry as
    a replication acceptance. *)
Definition applied (sv : Service) (replicateTo : string → string → string → Z → bool)
    (nd : Node) (rq : Request) : option Apply :=
  match rq with
  | ClientWrite q ts =>
      match writeOutcome (resp (writeHandler sv replicateTo nd q ts)) with
      | Accepted | QuorumNotMet =>
          Some (LocalWrite (Get q "key") (mkEntry (Get q "value") ts))
      | _ => None
      end
  | Replicate q =>
      match ParseInt (Get q "timestamp") with
      | Some ts =>
          if decide (Get q "key" = "") then None
          else Some (ReplAccept (Get q "key") (mkEntry (Get q "value") ts))
      | None => None
      end
  | Reconfigure _ => None
  end.

(** Serving a sequence of requests: the final state and the entries applied
    on the way, in order. *)
Fixpoint serveAll (sv : Service) (replicateTo : string → string → string → Z → bool)
    (nd : Node) (rqs : list Request) : Node * list Apply :=
  match rqs with
  | [] => (nd, [])
  | rq :: rest =>
      let out := serveAll sv replicateTo (serve sv replicateTo nd rq) rest in
      (out.1,
       match applied sv replicateTo nd rq with
       | Some a => a :: out.2
       | None => out.2
       end)
  end.

(** ** The JSON wire format of an [Entry]

    [json.Marshal(e)] and [json.NewDecoder(body).Decode(&e)] on
    [Entry], whose fields carry the tags [json:"value"] and
    [json:"timestamp"].  The functions follow [encoding/json],
    [unicode/utf8], [unicode/utf16] and [strconv] of the Go release the
    service is built with (1.20).  Bytes on the wire are a [list ascii]. *)

Definition byteVal (c : ascii) : Z := Z.of_nat (nat_of_ascii c).

(** The conversion [byte(x)], which keeps the low eight bits. *)
Definition byteOf (z : Z) : ascii := ascii_of_nat (Z.to_nat (z mod 256)).

Definition bytes (s : string) : list ascii := list_ascii_of_string s.

Definition dquote : ascii := "034"%char.
Definition backslash : ascii := "092"%char.

(** *** [unicode/utf8] *)

Definition RuneError : Z := 0xFFFD.
Definition MaxRune : Z := 0x10FFFF.

(** The table [first]: [0xF0] for ASCII, [0xF1] for an invalid leading
    byte, otherwise the size in the low three bits and the index of the
    accept range in the high four. *)
Definition first (s0 : Z) : Z :=
  if s0 <? 0x80 then 0xF0
  else if s0 <? 0xC2 then 0xF1
  else if s0 <? 0xE0 then 0x02
  else if s0 =? 0xE0 then 0x13
  else if s0 <? 0xED then 0x03
  else if s0 =? 0xED then 0x23
  else if s0 <? 0xF0 then 0x03
  else if s0 =? 0xF0 then 0x34
  else if s0 <? 0xF4 then 0x04
  else if s0 =? 0xF4 then 0x44
  else 0xF1.

Definition acceptRanges (i : Z) : Z * Z :=
  match i with
  | 0 => (0x80, 0xBF)
  | 1 => (0xA0, 0xBF)
  | 2 => (0x80, 0x9F)
  | 3 => (0x90, 0xBF)
  | 4 => (0x80, 0x8F)
  | _ => (0, 0)
  end.

(** [utf8.DecodeRune] / [utf8.DecodeRuneInString]: the first rune of [s] and
    its width in bytes; [(RuneError, 1)] for an invalid encoding. *)
Definition DecodeRune (s : list ascii) : Z * nat :=
  match s with
  | [] => (RuneError, 0%nat)
  | c0 :: t0 =>
      let s0 := byteVal c0 in
      let x := first s0 in
      if 0xF0 <=? x then ((if x =? 0xF0 then s0 else RuneError), 1%nat)
      else
        let sz := Z.land x 7 in
        let accept := acceptRanges (Z.shiftr x 4) in
        if Z.of_nat (length s) <? sz then (RuneError, 1%nat)
        else
          match t0 with
          | [] => (RuneError, 1%nat)
          | c1 :: t1 =>
              let s1 := byteVal c1 in
              if (s1 <? accept.1) || (accept.2 <? s1) then (RuneError, 1%nat)
              else if sz <=? 2 then
                (Z.lor (Z.shiftl (Z.land s0 0x1F) 6) (Z.land s1 0x3F), 2%nat)
              else
                match t1 with
                | [] => (RuneError, 1%nat)
                | c2 :: t2 =>
                    let s2 := byteVal c2 in
                    if (s2 <? 0x80) || (0xBF <? s2) then (RuneError, 1%nat)
                    else if sz <=? 3 then
                      (Z.lor (Z.lor (Z.shiftl (Z.land s0 0x0F) 12)
                                    (Z.shiftl (Z.land s1 0x3F) 6))
                             (Z.land s2 0x3F), 3%nat)
                    else
                      match t2 with
                      | [] => (RuneError, 1%nat)
                      | c3 :: _ =>
                          let s3 := byteVal c3 in
                          if (s3 <? 0x80) || (0xBF <? s3) then (RuneError, 1%nat)
                          else
                            (Z.lor (Z.lor (Z.lor (Z.shiftl (Z.land s0 0x07) 18)
                                                 (Z.shiftl (Z.land s1 0x3F) 12))
                                          (Z.shiftl (Z.land s2 0x3F) 6))
                                   (Z.land s3 0x3F), 4%nat)
                      end
                end
          end
  end.

(** [utf8.EncodeRune] / [utf8.AppendRune]. *)
Definition EncodeRune (r : Z) : list ascii :=
  if (0 <=? r) && (r <=? 0x7F) then [byteOf r]
  else if (0 <=? r) && (r <=? 0x7FF) then
    [byteOf (Z.lor 0xC0 (Z.shiftr r 6)); byteOf (Z.lor 0x80 (Z.land r 0x3F))]
  else
    let r3 :=
      if (r <? 0) || (MaxRune <? r) || ((0xD800 <=? r) && (r <=? 0xDFFF))
      then RuneError else r in
    if r3 <=? 0xFFFF then
      [byteOf (Z.lor 0xE0 (Z.shiftr r3 12));
       byteOf (Z.lor 0x80 (Z.land (Z.shiftr r3 6) 0x3F));
       byteOf (Z.lor 0x80 (Z.land r3 0x3F))]
    else
      [byteOf (Z.lor 0xF0 (Z.shiftr r3 18));
       byteOf (Z.lor 0x80 (Z.land (Z.shiftr r3 12) 0x3F));
       byteOf (Z.lor 0x80 (Z.land (Z.shiftr r3 6) 0x3F));
       byteOf (Z.lor 0x80 (Z.land r3 0x3F))].

(** [utf8.ValidString]: no position decodes to [(RuneError, 1)]. *)
Fixpoint validFrom (fuel : nat) (s : list ascii) : bool :=
  match fuel with
  | O => match s with [] => true | _ => false end
  | S f =>
      match s with
      | [] => true
      | c :: s' =>
          if byteVal c <? 0x80 then validFrom f s'
          else
            let '(r, size) := DecodeRune s in
            if (r =? RuneError) && (size =? 1)%nat then false
            else validFrom f (skipn size s)
      end
  end.

Definition ValidString (s : string) : bool := validFrom (String.length s) (bytes s).

(** *** [encoding/json]: the encoder *)

(** [hex = "0123456789abcdef"]. *)
Definition hex (n : Z) : ascii := nth (Z.to_nat n) (bytes "0123456789abcdef") "0"%char.

(** [htmlSafeSet]: the printable ASCII bytes other than the double quote,
    the backslash and the three HTML characters. *)
Definition htmlSafeSet (b : Z) : bool :=
  (0x20 <=? b) && (b <? 0x80) &&
  negb ((b =? 34) || (b =? 92) || (b =? 60) || (b =? 62) || (b =? 38)).

(** The escape written for an ASCII byte outside [htmlSafeSet]. *)
Definition escapeByte (b : Z) : list ascii :=
  if (b =? 92) || (b =? 34) then [backslash; byteOf b]
  else if b =? 10 then [backslash; "n"%char]
  else if b =? 13 then [backslash; "r"%char]
  else if b =? 9 then [backslash; "t"%char]
  else backslash :: bytes "u00" ++ [hex (Z.shiftr b 4); hex (Z.land b 0xF)].

(** The body of the [string] method of [encodeState] with [escapeHTML]
    set, as [json.Marshal] calls it: what is written between the two
    quotes. *)
Fixpoint encodeBody (fuel : nat) (s : list ascii) : list ascii :=
  match fuel with
  | O => []
  | S f =>
      match s with
      | [] => []
      | c :: s' =>
          let b := byteVal c in
          if b <? 0x80 then
            if htmlSafeSet b then c :: encodeBody f s'
            else escapeByte b ++ encodeBody f s'
          else
            let '(r, size) := DecodeRune s in
            if (r =? RuneError) && (size =? 1)%nat then
              backslash :: bytes "ufffd" ++ encodeBody f (skipn size s)
            else if (r =? 0x2028) || (r =? 0x2029) then
              backslash :: bytes "u202" ++ hex (Z.land r 0xF)
                :: encodeBody f (skipn size s)
            else firstn size s ++ encodeBody f (skipn size s)
      end
  end.

Definition encodeString (s : list ascii) : list ascii :=
  dquote :: encodeBody (length s) s ++ [dquote].

(** [strconv.AppendInt(dst, i, 10)]: the decimal digits, most significant
    first, after a minus sign for a negative number.  Twenty digits are
    enough for a 64-bit magnitude. *)
Fixpoint formatBits (fuel : nat) (u : Z) (acc : list ascii) : list ascii :=
  match fuel with
  | O => acc
  | S f =>
      if u <? 10 then byteOf (48 + u) :: acc
      else formatBits f (u / 10) (byteOf (48 + u mod 10) :: acc)
  end.

Definition FormatInt (i : Z) : list ascii :=
  if i <? 0 then "-"%char :: formatBits 20 (- i) [] else formatBits 20 i [].

(** [json.Marshal(e)]: the fields in declaration order under their tag
    names, no insignificant whitespace. *)
Definition Marshal (en : Entry) : list ascii :=
  bytes "{" ++ encodeString (bytes "value") ++ bytes ":"
    ++ encodeString (bytes (Value en))
    ++ bytes "," ++ encodeString (bytes "timestamp") ++ bytes ":"
    ++ FormatInt (Timestamp en) ++ bytes "}".

(** *** [encoding/json]: the decoder *)

Definition hexVal (c : ascii) : option Z :=
  let b := byteVal c in
  if (48 <=? b) && (b <=? 57) then Some (b - 48)
  else if (97 <=? b) && (b <=? 102) then Some (b - 97 + 10)
  else if (65 <=? b) && (b <=? 70) then Some (b - 65 + 10)
  else None.

(** [getu4]: the code unit of a leading [\uXXXX], or [-1]. *)
Definition getu4 (s : list ascii) : Z :=
  match s with
  | c0 :: c1 :: h1 :: h2 :: h3 :: h4 :: _ =>
      if (byteVal c0 =? 92) && (byteVal c1 =? 117) then
        match hexVal h1, hexVal h2, hexVal h3, hexVal h4 with
        | Some d1, Some d2, Some d3, Some d4 => ((d1 * 16 + d2) * 16 + d3) * 16 + d4
        | _, _, _, _ => -1
        end
      else -1
  | _ => -1
  end.

(** [utf16.IsSurrogate] and [utf16.DecodeRune]. *)
Definition IsSurrogate (r : Z) : bool := (0xD800 <=? r) && (r <? 0xE000).

Definition utf16DecodeRune (r1 r2 : Z) : Z :=
  if (0xD800 <=? r1) && (r1 <? 0xDC00) && (0xDC00 <=? r2) && (r2 <? 0xE000)
  then Z.lor (Z.shiftl (r1 - 0xD800) 10) (r2 - 0xDC00) + 0x10000
  else RuneError.

Definition prepend (pre : list ascii) (o : option (list ascii * list ascii))
  : option (list ascii * list ascii) :=
  match o with
  | Some (v, rest) => Some (pre ++ v, rest)
  | None => None
  end.

(** Reading a string literal after its opening quote: the scanner's walk to
    the closing quote (control bytes and unknown escapes are syntax errors)
    together with [unquoteBytes] (escapes decoded, raw bytes that are not
    valid UTF-8 coerced to U+FFFD).  Returns the decoded bytes and the
    input after the closing quote. *)
Fixpoint unquoteBody (fuel : nat) (s : list ascii) : option (list ascii * list ascii) :=
  match fuel with
  | O => None
  | S f =>
      match s with
      | [] => None
      | c :: s' =>
          let b := byteVal c in
          if b =? 34 then Some ([], s')
          else if b =? 92 then
            match s' with
            | [] => None
            | c1 :: s'' =>
                let b1 := byteVal c1 in
                if (b1 =? 34) || (b1 =? 92) || (b1 =? 47) then
                  prepend [c1] (unquoteBody f s'')
                else if b1 =? 98 then prepend [byteOf 8] (unquoteBody f s'')
                else if b1 =? 102 then prepend [byteOf 12] (unquoteBody f s'')
                else if b1 =? 110 then prepend [byteOf 10] (unquoteBody f s'')
                else if b1 =? 114 then prepend [byteOf 13] (unquoteBody f s'')
                else if b1 =? 116 then prepend [byteOf 9] (unquoteBody f s'')
                else if b1 =? 117 then
                  let rr := getu4 s in
                  if rr <? 0 then None
                  else
                    let s6 := skipn 6 s in
                    if IsSurrogate rr then
                      let dec := utf16DecodeRune rr (getu4 s6) in
                      if dec =? RuneError
                      then prepend (EncodeRune RuneError) (unquoteBody f s6)
                      else prepend (EncodeRune dec) (unquoteBody f (skipn 6 s6))
                    else prepend (EncodeRune rr) (unquoteBody f s6)
                else None
            end
          else if b <? 0x20 then None
          else if b <? 0x80 then prepend [c] (unquoteBody f s')
          else
            let '(rr, size) := DecodeRune s in
            prepend (EncodeRune rr) (unquoteBody f (skipn size s))
      end
  end.

(** A string literal at the head of the input. *)
Definition readString (s : list ascii) : option (list ascii * list ascii) :=
  match s with
  | c :: s' => if byteVal c =? 34 then unquoteBody (length s') s' else None
  | [] => None
  end.

Fixpoint spanDigits (s : list ascii) : list ascii * list ascii :=
  match s with
  | c :: s' =>
      if (48 <=? byteVal c) && (byteVal c <=? 57)
      then let '(ds, rest) := spanDigits s' in (c :: ds, rest)
      else ([], s)
  | [] => ([], [])
  end.

(** An integer literal at the head of the input, in the JSON grammar: an
    optional minus sign, then [0] or a digit sequence that does not start
    with [0].  The literal is converted with [strconv.ParseInt(_, 10, 64)],
    as the decoder does for a field of kind [int64]. *)
Definition readInt (s : list ascii) : option (Z * list ascii) :=
  let '(sign, body) :=
    match s with
    | c :: s' => if byteVal c =? 45 then ([c], s') else ([], s)
    | [] => ([], [])
    end in
  let '(ds, rest) := spanDigits body in
  match ds with
  | [] => None
  | d :: ds' =>
      if (byteVal d =? 48) && negb (length ds' =? 0)%nat then None
      else
        match ParseInt (string_of_list_ascii (sign ++ ds)) with
        | Some z => Some (z, rest)
        | None => None
        end
  end.

Definition expect (c : ascii) (s : list ascii) : option (list ascii) :=
  match s with
  | c' :: s' => if Ascii.eqb c c' then Some s' else None
  | [] => None
  end.

(** [Decode(&e)] on a document that lists the member [value], a string, and
    then the member [timestamp], an integer, without insignificant
    whitespace, which is the shape [Marshal] writes.  Bytes after the
    closing brace stay in the decoder's buffer.  On any other document
    this model gives [None]. *)
Definition Decode (s : list ascii) : option Entry :=
  s1 ← expect "{"%char s;
  '(k1, s2) ← readString s1;
  if decide (k1 = bytes "value") then
    s3 ← expect ":"%char s2;
    '(v, s4) ← readString s3;
    s5 ← expect ","%char s4;
    '(k2, s6) ← readString s5;
    if decide (k2 = bytes "timestamp") then
      s7 ← expect ":"%char s6;
      '(t, s8) ← readInt s7;
      _ ← expect "}"%char s8;
      Some (mkEntry (string_of_list_ascii v) t)
    else None
  else None.

(** The byte sequences [DecodeRune] accepts as one rune of two, three and
    four bytes, by the values of their bytes. *)
Definition cont (b : Z) : Prop := 0x80 <= b <= 0xBF.

Definition seq2 (s0 s1 : Z) : Prop := 0xC2 <= s0 <= 0xDF ∧ cont s1.

Definition seq3 (s0 s1 s2 : Z) : Prop :=
  0xE0 <= s0 <= 0xEF ∧ cont s1 ∧
  (s0 = 0xE0 → 0xA0 <= s1) ∧ (s0 = 0xED → s1 <= 0x9F) ∧ cont s2.

Definition seq4 (s0 s1 s2 s3 : Z) : Prop :=
  0xF0 <= s0 <= 0xF4 ∧ cont s1 ∧
  (s0 = 0xF0 → 0x90 <= s1) ∧ (s0 = 0xF4 → s1 <= 0x8F) ∧ cont s2 ∧ cont s3.

Definition rune2 (s0 s1 : Z) : Z :=
  Z.lor (Z.shiftl (Z.land s0 0x1F) 6) (Z.land s1 0x3F).

Definition rune3 (s0 s1 s2 : Z) : Z :=
  Z.lor (Z.lor (Z.shiftl (Z.land s0 0x0F) 12) (Z.shiftl (Z.land s1 0x3F) 6))
        (Z.land s2 0x3F).

Definition rune4 (s0 s1 s2 s3 : Z) : Z :=
  Z.lor (Z.lor (Z.lor (Z.shiftl (Z.land s0 0x07) 18) (Z.shiftl (Z.land s1 0x3F) 12))
               (Z.shiftl (Z.land s2 0x3F) 6))
        (Z.land s3 0x3F).

Definition isDigit (c : ascii) : Prop := 48 <= byteVal c <= 57.

(** ** Process start: [main] and the test harness

    [main] takes its configuration from six flags.  [flag.Parse] is outside
    the embedding; the parsed flag values are the input. *)
Record Flags : Type := mkFlags {
  PORT : Z;
  PEERS : string;
  LEADER : bool;
  flagN : Z;
  flagR : Z;
  flagW : Z
}.

(** [strings.Split(s, sep)] for a separator of one byte, as [main] calls it
    with [","]: the pieces of [s] between the occurrences of the separator,
    one more than there are occurrences. *)
Fixpoint Split (s : string) (sep : ascii) : list string :=
  match s with
  | EmptyString => [EmptyString]
  | String c s' =>
      if Ascii.eqb c sep then EmptyString :: Split s' sep
      else
        match Split s' sep with
        | x :: xs => String c x :: xs
        | [] => [String c EmptyString]
        end
  end.

(** [strings.Join(elems, sep)], which [startNode] of the test file uses to
    build the value of [-PEERS]. *)
Fixpoint Join (elems : list string) (sep : string) : string :=
  match elems with
  | [] => EmptyString
  | x :: xs =>
      match xs with
      | [] => x
      | _ :: _ => String.append x (String.append sep (Join xs sep))
      end
  end.

(** The state [main] sets up before it starts serving: [peers] is the
    value of [-PEERS] split at the commas, unless that value is empty, in
    which case there are no peers; [isLeader], [N], [R] and [W] are the
    values of their flags; the store is empty. *)
Definition mainInit (f : Flags) : Node :=
  startNode
    (if decide (PEERS f = "") then [] else Split (PEERS f) ","%char)
    (LEADER f) (flagN f) (flagR f) (flagW f).

(** The flags [startNode] of the test file passes for a node. *)
Definition testFlags (port : Z) (ps : list string) (leader : bool) (n r w : Z) : Flags :=
  mkFlags port (Join ps ",") leader n r w.

(** Whether a byte occurs in a string. *)
Fixpoint contains (s : string) (c : ascii) : bool :=
  match s with
  | EmptyString => false
  | String c' s' => Ascii.eqb c' c || contains s' c
  end.

(** Number of occurrences of a byte in a string ([strings.Count] for a
    one-byte pattern). *)
Fixpoint Count (s : string) (c : ascii) : nat :=
  match s with
  | EmptyString => O
  | String c' s' => if Ascii.eqb c' c then S (Count s' c) else Count s' c
  end.

(** ** Properties of histories *)

Definition isRepl (a : Apply) : bool :=
  match a with ReplAccept _ _ => true | LocalWrite _ _ => false end.

(** Two applied entries agree when, carrying the same key and the same
    timestamp, they carry the same value. *)
Definition agree (a b : Apply) : Prop :=
  applyKey a = applyKey b →
  Timestamp (applyEntry a) = Timestamp (applyEntry b) →
  applyEntry a = applyEntry b.

(** A history in which a key and a timestamp identify the value. *)
Definition consistent (h : list Apply) : Prop :=
  ∀ a b, a ∈ h → b ∈ h → agree a b.

(** The requests of a run that are not reconfigurations. *)
Definition isReconfigure (rq : Request) : bool :=
  match rq with Reconfigure _ => true | _ => false end.

Definition isClientWrite (rq : Request) : bool :=
  match rq with ClientWrite _ _ => true | _ => false end.

(** ** The replicate call between two processes

    [replicateTo] renders the timestamp with [%d] and the peer's
    [replicateHandler] reads it with [strconv.ParseInt].  The key and the
    value are pasted into the URL as they are; the embedding follows them
    only when they consist of ASCII letters and digits, which the URL
    carries unchanged. *)
Definition timestampParam (ts : Z) : string := string_of_list_ascii (FormatInt ts).

Definition isAlnum (c : ascii) : bool :=
  let b := byteVal c in
  ((48 <=? b) && (b <=? 57)) || ((65 <=? b) && (b <=? 90)) || ((97 <=? b) && (b <=? 122)).

Fixpoint plainText (s : string) : bool :=
  match s with
  | EmptyString => true
  | String c s' => isAlnum c && plainText s'
  end.

(** The query the peer's handler sees for a replicate call whose key and
    value are [plainText].  For other keys and values it is not what the
    peer sees: [replicateTo] pastes both into the URL without escaping, so
    a blank makes the request malformed, a plus sign arrives as a blank and
    an ampersand starts another parameter.  Every property stated of a
    replicate call therefore assumes [plainText] of the key and the
    value. *)
Definition replicateRequest (key val : string) (ts : Z) : gmap string (list string) :=
  replicateQuery key val (timestampParam ts).

(** A cluster: the processes that are running, by address.

    [replicateToCluster] is [replicateTo] against a cluster: a transport
    error when no process runs at the address, otherwise whether the peer's
    [replicateHandler] answered 200. *)
Definition replicateToCluster (cl : gmap string Node) (peer key val : string) (ts : Z)
  : bool :=
  match cl !! peer with
  | Some nd => code (replicateHandler nd (replicateRequest key val ts)).2 =? StatusOK
  | None => false
  end.

(** The effect of one replicate call on the cluster. *)
Definition deliver (key val : string) (ts : Z) (cl : gmap string Node) (peer : string)
  : gmap string Node :=
  match cl !! peer with
  | Some nd => <[peer := (replicateHandler nd (replicateRequest key val ts)).1]> cl
  | None => cl
  end.

(** A client write served by the process at [addr]: the handler runs with
    [replicateTo] going to the cluster; the coordinator's state is updated
    first (the local write precedes the calls), then each call the handler
    waited for takes effect on its peer.  The calls started with [go] and
    not waited for are returned as pending. *)
Definition clusterWrite (sv : Service) (cl : gmap string Node) (addr : string)
    (q : gmap string (list string)) (ts : Z)
  : option (Response * gmap string Node * list string) :=
  match cl !! addr with
  | Some nd =>
      let r := writeHandler sv (replicateToCluster cl) nd q ts in
      Some (resp r,
            foldl (deliver (Get q "key") (Get q "value") ts)
                  (<[addr := after r]> cl) (map fst (awaited r)),
            detached r)
  | None => None
  end.

(** The pending calls of a fire-and-forget write, once they have all run. *)
Definition settle (key val : string) (ts : Z) (cl : gmap string Node)
    (pending : list string) : gmap string Node :=
  foldl (deliver key val ts) cl pending.

(** The condition under which each write handler goes ahead. *)
Definition gate (sv : Service) (nd : Node) : bool :=
  match sv with
  | PutService => isLeader nd
  | SetService => coordinates nd
  end.

(** The success response of each write handler: [putHandler] answers 200,
    [setHandler] 201. *)
Definition okResponse (sv : Service) : Response :=
  mkResponse (match sv with PutService => StatusOK | SetService => StatusCreated end)
             NoBody.

(** The largest timestamp among responses, and [b] if none is larger. *)
Definition maxTimestamp (b : Z) (cs : list result) : Z :=
  foldr (λ x m, Z.max (Timestamp (e x)) m) b cs.

(** The successful ones among the results of a read. *)
Definition successes (resCh : list result) : list result :=
  filter (λ x, ok x = true) resCh.

(** What the process at an address holds under a key. *)
Definition holdsEntry (cl : gmap string Node) (p key : string) (en : Entry) : Prop :=
  ∃ nd, cl !! p = Some nd ∧ data nd !! key = Some en.

Definition holdsAtLeast (cl : gmap string Node) (p key : string) (ts : Z) : Prop :=
  ∃ nd en, cl !! p = Some nd ∧ data nd !! key = Some en ∧ ts <= Timestamp en.

(** The process at an address holds nothing under the key, or something
    strictly older than [ts]. *)
Definition nothingAsNew (cl : gmap string Node) (p key : string) (ts : Z) : Prop :=
  ∀ nd e0, cl !! p = Some nd → data nd !! key = Some e0 → Timestamp e0 < ts.

(** A local read served by the process at an address. *)
Definition clusterLocalRead (cl : gmap string Node) (p : string)
    (q : gmap string (list string)) : option Response :=
  (λ nd, localReadHandler nd q) <$> cl !! p.

(** ** A read across the cluster *)

(** The query of the call [http://peer/getReplica?key=...]. *)
Definition replicaQuery (key : string) : gmap string (list string) :=
  {[ "key" := [key] ]}.

(** The goroutine of [getHandler] that asks one peer.  A call that fails
    and a status other than 200 send a result that is not ok.  Otherwise
    the body is decoded into [var e Entry] and [e] is sent as ok; the error
    of the decoder is dropped by the code, and [e] is taken as the zero
    [Entry] in that case. *)
Definition peerFetch (cl : gmap string Node) (key peer : string) : result :=
  match cl !! peer with
  | None => mkResult zeroEntry false
  | Some nd =>
      let rsp := getReplicaHandler nd (replicaQuery key) in
      if negb (code rsp =? StatusOK) then mkResult zeroEntry false
      else
        match body rsp with
        | EntryJSON en => mkResult (default zeroEntry (Decode (Marshal en))) true
        | _ => mkResult zeroEntry true
        end
  end.


(** * Properties *)

(** ** Query lookup *)

Lemma Get_replicateQuery key val tsStr :
  Get (replicateQuery key val tsStr) "key" = key ∧
  Get (replicateQuery key val tsStr) "value" = val ∧
  Get (replicateQuery key val tsStr) "timestamp" = tsStr.
Proof. unfold Get, replicateQuery. by simplify_map_eq. Qed.

Lemma Get_writeQuery key val :
  Get (writeQuery key val) "key" = key ∧ Get (writeQuery key val) "value" = val.
Proof. unfold Get, writeQuery. by simplify_map_eq. Qed.

Lemma Get_absent (q : gmap string (list string)) name : q !! name = None → Get q name = "".
Proof. unfold Get. by intros ->. Qed.

(** ** Decimal parsing *)

Lemma digitVal_range c d : digitVal c = Some d → 0 <= d <= 9.
Proof.
  unfold digitVal. case_match; [|done]. intros [= <-].
  apply andb_true_iff in H as [?%Z.leb_le ?%Z.leb_le]. lia.
Qed.

Lemma parseDigits_nonneg s : ∀ acc z, 0 <= acc → parseDigits acc s = Some z → 0 <= z.
Proof.
  induction s as [|c s IH]; simpl; intros acc z Hacc.
  - intros [= <-]. done.
  - destruct (digitVal c) as [d|] eqn:Hd; [|done].
    apply digitVal_range in Hd. apply IH. lia.
Qed.

Lemma ParseUint_nonneg s z : ParseUint s = Some z → 0 <= z.
Proof.
  destruct s as [|c s]; [done|]. unfold ParseUint.
  by apply parseDigits_nonneg.
Qed.

(** A successful parse yields an [int64]. *)
Lemma ParseInt_int64 s z : ParseInt s = Some z → int64 z.
Proof.
  unfold ParseInt, int64, minInt64, maxInt64. destruct s as [|c s]; [done|].
  cbv zeta. destruct (ParseUint _) as [un|] eqn:Hun; [|done].
  apply ParseUint_nonneg in Hun.
  destruct (Ascii.eqb c "-").
  - destruct (Z.leb_spec un (2 ^ 63)); [|done]. intros [= <-]. lia.
  - destruct (Z.ltb_spec un (2 ^ 63)); [|done]. intros [= <-]. lia.
Qed.

Lemma ParseInt_empty : ParseInt "" = None.
Proof. reflexivity. Qed.

(** ** The two store mutations *)

Lemma applyIfNewer_replaced d key c :
  (applyIfNewer d key c).2 = true → (applyIfNewer d key c).1 = <[key := c]> d.
Proof. unfold applyIfNewer. repeat case_match; simpl; congruence. Qed.

Lemma applyIfNewer_kept d key c :
  (applyIfNewer d key c).2 = false → (applyIfNewer d key c).1 = d.
Proof. unfold applyIfNewer. repeat case_match; simpl; congruence. Qed.

(** The assignment runs exactly when the key is absent or the candidate is
    strictly newer; an equal timestamp keeps the entry already present. *)
Lemma applyIfNewer_decision d key c :
  (applyIfNewer d key c).2 = true ↔
  d !! key = None ∨ ∃ e0, d !! key = Some e0 ∧ Timestamp e0 < Timestamp c.
Proof.
  unfold applyIfNewer. destruct (d !! key) as [e0|] eqn:Hk.
  - destruct (Z.ltb_spec (Timestamp e0) (Timestamp c)); simpl; split.
    + intros _. right. eauto.
    + done.
    + done.
    + intros [?|(e1 & [= <-] & ?)]; [done | lia].
  - simpl. split; [by left | done].
Qed.

Lemma applyIfNewer_other d key c k' :
  key ≠ k' → (applyIfNewer d key c).1 !! k' = d !! k'.
Proof.
  intros Hne. unfold applyIfNewer. repeat case_match; simpl;
    by rewrite ?lookup_insert_ne.
Qed.

(** After a replication apply the stored timestamp is the larger of the one
    stored before and the candidate's. *)
Lemma applyIfNewer_timestamp d key c :
  Timestamp <$> ((applyIfNewer d key c).1 !! key) =
  bump (Timestamp <$> (d !! key)) (Timestamp c).
Proof.
  unfold applyIfNewer. destruct (d !! key) as [e0|] eqn:Hk; simpl.
  - destruct (Z.ltb_spec (Timestamp e0) (Timestamp c)); simpl.
    + rewrite lookup_insert_eq. simpl. f_equal. lia.
    + rewrite Hk. simpl. f_equal. lia.
  - by rewrite lookup_insert_eq.
Qed.

Lemma localWrite_lookup d key c : localWrite d key c !! key = Some c.
Proof. apply lookup_insert_eq. Qed.

Lemma localWrite_other d key c k' : key ≠ k' → localWrite d key c !! k' = d !! k'.
Proof. intros. by apply lookup_insert_ne. Qed.

Lemma step_other d a k' : applyKey a ≠ k' → step d a !! k' = d !! k'.
Proof.
  destruct a; simpl; intros.
  - by apply localWrite_other.
  - by apply applyIfNewer_other.
Qed.

(** A fresh client write and a replication apply move the stored timestamp
    the same way. *)
Lemma step_timestamp d a :
  freshAt d a = true →
  Timestamp <$> (step d a !! applyKey a) =
  bump (Timestamp <$> (d !! applyKey a)) (Timestamp (applyEntry a)).
Proof.
  destruct a as [k c|k c]; simpl.
  - rewrite localWrite_lookup. destruct (d !! k) as [e0|]; simpl; [|done].
    intros ?%Z.leb_le. f_equal. lia.
  - intros _. apply applyIfNewer_timestamp.
Qed.

(** ** Replication apply: order independence *)

(** C6.  Two entries for one key, the second strictly newer than the first,
    applied by the replication apply to a replica that holds nothing newer
    for that key: in either order of arrival the replica ends with the
    timestamp of the newer entry. *)
Theorem replication_last_write_wins
    (d : gmap string Entry) (k : string) (e1 e2 : Entry) :
  Timestamp e1 < Timestamp e2 →
  (∀ e0, d !! k = Some e0 → Timestamp e0 <= Timestamp e2) →
  Timestamp <$> (run d [ReplAccept k e1; ReplAccept k e2] !! k) = Some (Timestamp e2) ∧
  Timestamp <$> (run d [ReplAccept k e2; ReplAccept k e1] !! k) = Some (Timestamp e2).
Proof.
  intros Hlt Hold. simpl. rewrite !applyIfNewer_timestamp.
  destruct (d !! k) as [e0|] eqn:Hk; simpl.
  - specialize (Hold e0 eq_refl). split; f_equal; lia.
  - split; f_equal; lia.
Qed.

Lemma replication_last_write_wins_witness :
  let d : gmap string Entry := {[ "k" := mkEntry "old" 5 ]} in
  let e1 := mkEntry "a" 10 in
  let e2 := mkEntry "b" 20 in
  Timestamp e1 < Timestamp e2 ∧
  (∀ e0, d !! "k" = Some e0 → Timestamp e0 <= Timestamp e2) ∧
  Timestamp <$> (run d [ReplAccept "k" e1; ReplAccept "k" e2] !! "k") = Some 20 ∧
  Timestamp <$> (run d [ReplAccept "k" e2; ReplAccept "k" e1] !! "k") = Some 20.
Proof.
  intros d e1 e2.
  assert (Timestamp e1 < Timestamp e2) as H1 by (simpl; lia).
  assert (∀ e0, d !! "k" = Some e0 → Timestamp e0 <= Timestamp e2) as H2.
  { intros e0 H. vm_compute in H. injection H as <-. simpl. lia. }
  split; [exact H1|]. split; [exact H2|].
  exact (replication_last_write_wins d "k" e1 e2 H1 H2).
Defined.

(** The two arrival orders agree on the stored timestamp whatever the
    replica held before. *)
Lemma replication_order_agrees (d : gmap string Entry) (k : string) (e1 e2 : Entry) :
  Timestamp <$> (run d [ReplAccept k e1; ReplAccept k e2] !! k) =
  Timestamp <$> (run d [ReplAccept k e2; ReplAccept k e1] !! k).
Proof.
  simpl. rewrite !applyIfNewer_timestamp.
  destruct (d !! k) as [e0|]; simpl; f_equal; lia.
Qed.

(** ** [replicateHandler] *)

(** A replicate request that passes validation changes the store by one
    replication apply. *)
Lemma replicateHandler_applies (nd : Node) (key val tsStr : string) (ts : Z) :
  key ≠ "" → ParseInt tsStr = Some ts →
  data (replicateHandler nd (replicateQuery key val tsStr)).1 =
    step (data nd) (ReplAccept key (mkEntry val ts)).
Proof.
  intros Hk Hp. unfold replicateHandler.
  destruct (Get_replicateQuery key val tsStr) as (-> & -> & ->).
  rewrite Hp. by destruct (decide (key = "")).
Qed.

(** C7.  [replicateHandler] answers 400 exactly when the key is empty or the
    timestamp does not parse as an [int64], and then leaves the process
    state alone.  Every other request is answered 200 after the guarded
    assignment has been applied to the store: the entry of the request is
    stored under the key when the key was absent or held a strictly older
    timestamp, all other keys staying as they were; and the process is left
    exactly as it was when the key held a timestamp at least that of the
    request. *)
Theorem replicateHandler_validates (nd : Node) (q : gmap string (list string)) :
  let key := Get q "key" in
  let val := Get q "value" in
  let out := replicateHandler nd q in
  (out.2 = httpError "invalid replicate args" StatusBadRequest ↔
     key = "" ∨ ParseInt (Get q "timestamp") = None) ∧
  (key = "" ∨ ParseInt (Get q "timestamp") = None → out.1 = nd) ∧
  (∀ ts, key ≠ "" → ParseInt (Get q "timestamp") = Some ts →
     out.2 = mkResponse StatusOK NoBody ∧
     out.1 = set_data nd (applyIfNewer (data nd) key (mkEntry val ts)).1 ∧
     (data nd !! key = None → data out.1 = <[key := mkEntry val ts]> (data nd)) ∧
     (∀ e0, data nd !! key = Some e0 → Timestamp e0 < ts →
        data out.1 = <[key := mkEntry val ts]> (data nd)) ∧
     (∀ e0, data nd !! key = Some e0 → ts <= Timestamp e0 → out.1 = nd)).
Proof.
  intros key val out. subst out key val. unfold replicateHandler.
  destruct (ParseInt (Get q "timestamp")) as [ts|] eqn:Hp.
  - destruct (decide (Get q "key" = "")) as [Hk|Hk]; simpl.
    + split_and!; [naive_solver | done | intros; done].
    + split_and!.
      * split; [done|]. intros [?|?]; done.
      * intros [?|?]; done.
      * intros ts' _ [= <-]. unfold applyIfNewer.
        destruct (data nd !! Get q "key") as [e0|] eqn:Hd; simpl.
        -- destruct (Z.ltb_spec (Timestamp e0) ts) as [Hlt|Hge]; simpl.
           ++ split_and!; try done. intros e1 [= <-] ?. lia.
           ++ split_and!; try done.
              ** intros e1 [= <-] ?. lia.
              ** intros e1 [= <-] _. by destruct nd.
        -- split_and!; done.
  - simpl. split_and!; [naive_solver | done | intros; done].
Qed.

Lemma replicateHandler_validates_witness :
  let nd := mkNode {[ "k" := mkEntry "old" 5 ]} [] false 3 1 3 in
  let newer := replicateQuery "k" "new" "6" in
  let tie := replicateQuery "k" "new" "5" in
  Get newer "key" ≠ "" ∧ ParseInt (Get newer "timestamp") = Some 6 ∧
  Get tie "key" ≠ "" ∧ ParseInt (Get tie "timestamp") = Some 5 ∧
  (replicateHandler nd newer).2 = mkResponse StatusOK NoBody ∧
  data (replicateHandler nd newer).1 = {[ "k" := mkEntry "new" 6 ]} ∧
  (replicateHandler nd tie).2 = mkResponse StatusOK NoBody ∧
  (replicateHandler nd tie).1 = nd.
Proof.
  intros nd newer tie.
  assert (Get newer "key" ≠ "") as Hk by (vm_compute; discriminate).
  assert (ParseInt (Get newer "timestamp") = Some 6) as Hp by (vm_compute; reflexivity).
  assert (Get tie "key" ≠ "") as Hk' by (vm_compute; discriminate).
  assert (ParseInt (Get tie "timestamp") = Some 5) as Hp' by (vm_compute; reflexivity).
  assert (data nd !! "k" = Some (mkEntry "old" 5)) as Hd by (vm_compute; reflexivity).
  destruct (replicateHandler_validates nd newer) as (_ & _ & Hok).
  destruct (Hok 6 Hk Hp) as (Hr & _ & _ & Hnew & _).
  destruct (replicateHandler_validates nd tie) as (_ & _ & Hok').
  destruct (Hok' 5 Hk' Hp') as (Hr' & _ & _ & _ & Hkept).
  split; [exact Hk|]. split; [exact Hp|]. split; [exact Hk'|]. split; [exact Hp'|].
  split; [exact Hr|]. split.
  - rewrite (Hnew (mkEntry "old" 5) Hd); [vm_compute; reflexivity | simpl; lia].
  - split; [exact Hr'|]. apply (Hkept (mkEntry "old" 5) Hd). simpl. lia.
Defined.

(** ** [configHandler] *)

(** The value [configHandler] assigns from one query parameter: the parsed
    number when the parameter is present, non-empty and numeric; otherwise
    the previous value. *)
Lemma config_param_rule (q : gmap string (list string)) name (old : Z) :
  let v := Get q name in
  let new := if decide (v = "") then old
             else match Atoi v with Some i => i | None => old end in
  (∀ i, Atoi v = Some i → new = i) ∧
  (Atoi v = None → new = old) ∧
  (q !! name = None → new = old).
Proof.
  intros v new. subst new. split_and!.
  - intros i Hi. destruct (decide (v = "")) as [Hv|Hv].
    + rewrite Hv in Hi. discriminate.
    + by rewrite Hi.
  - intros Hi. destruct (decide (v = "")); [done|]. by rewrite Hi.
  - intros Hq. subst v. rewrite (Get_absent _ _ Hq). done.
Qed.

(** C8.  [configHandler] replaces each of [N], [W], [R] whose parameter is
    supplied with a number, keeps the previous value of each parameter that
    is absent or not a number, leaves the store, the peer list and the role
    as they were, and always answers 200 with the resulting values. *)
Theorem configHandler_frame (nd : Node) (q : gmap string (list string)) :
  let nd' := (configHandler nd q).1 in
  ((∀ i, Atoi (Get q "N") = Some i → N nd' = i) ∧
   (Atoi (Get q "N") = None → N nd' = N nd) ∧
   (q !! "N" = None → N nd' = N nd)) ∧
  ((∀ i, Atoi (Get q "W") = Some i → W nd' = i) ∧
   (Atoi (Get q "W") = None → W nd' = W nd) ∧
   (q !! "W" = None → W nd' = W nd)) ∧
  ((∀ i, Atoi (Get q "R") = Some i → R nd' = i) ∧
   (Atoi (Get q "R") = None → R nd' = R nd) ∧
   (q !! "R" = None → R nd' = R nd)) ∧
  data nd' = data nd ∧ peers nd' = peers nd ∧ isLeader nd' = isLeader nd ∧
  (configHandler nd q).2 = mkResponse StatusOK (Reconfigured (N nd') (W nd') (R nd')).
Proof.
  intros nd'. subst nd'. unfold configHandler. simpl.
  split; [apply config_param_rule|].
  split; [apply config_param_rule|].
  split; [apply config_param_rule|].
  done.
Qed.

Lemma configHandler_frame_witness :
  let nd := mkNode {[ "k" := mkEntry "v" 5 ]} ["p1"; "p2"] true 3 1 3 in
  let q : gmap string (list string) := {[ "W" := ["2"]; "R" := ["two"] ]} in
  Atoi (Get q "W") = Some 2 ∧ Atoi (Get q "R") = None ∧ q !! "N" = None ∧
  W (configHandler nd q).1 = 2 ∧
  R (configHandler nd q).1 = 1 ∧
  N (configHandler nd q).1 = 3.
Proof.
  intros nd q.
  assert (Atoi (Get q "W") = Some 2) as HW by (vm_compute; reflexivity).
  assert (Atoi (Get q "R") = None) as HR by (vm_compute; reflexivity).
  assert (q !! "N" = None) as HN by (vm_compute; reflexivity).
  destruct (configHandler_frame nd q) as ((_ & _ & HN') & (HW' & _) & (_ & HR' & _) & _).
  split; [exact HW|]. split; [exact HR|]. split; [exact HN|].
  split; [exact (HW' 2 HW)|]. split; [exact (HR' HR)|]. exact (HN' HN).
Defined.

(** ** The quorum read *)

(** While fewer than [r] successes have been seen, the loop counts the next
    [r - got] successful results and nothing else. *)
Lemma collect_counted r resCh : ∀ got best,
  got < r →
  let cs := take (Z.to_nat (r - got)) (filter (λ x, ok x = true) resCh) in
  collect r got best resCh = (got + Z.of_nat (length cs), pick best cs).
Proof.
  induction resCh as [|r2 rest IH]; intros got best Hgot; simpl.
  - rewrite filter_nil, take_nil. simpl. f_equal. lia.
  - destruct (ok r2) eqn:Hok; simpl.
    + rewrite filter_cons_True by done.
      destruct (Z.leb_spec r (got + 1)) as [Hle|Hgt].
      * replace (Z.to_nat (r - got)) with 1%nat by lia. simpl.
        rewrite ?take_0. simpl. f_equal.
      * replace (Z.to_nat (r - got)) with (S (Z.to_nat (r - (got + 1)))) by lia.
        simpl. rewrite IH by lia. simpl. f_equal. lia.
    + rewrite filter_cons_False by (rewrite Hok; done). by apply IH.
Qed.

Lemma pick_keep cs : ∀ best,
  (∀ x, x ∈ cs → Timestamp (e x) <= Timestamp best) → pick best cs = best.
Proof.
  induction cs as [|c cs IH]; intros best Hall; [done|]. simpl.
  assert (Timestamp (e c) <= Timestamp best) as Hc by (apply Hall; left).
  destruct (Z.ltb_spec (Timestamp best) (Timestamp (e c))); [lia|].
  apply IH. intros x Hx. apply Hall. by right.
Qed.

(** When some counted response is newer than [best], the loop ends on the
    first counted response that carries the largest timestamp. *)
Lemma pick_first_max cs : ∀ best,
  (∃ x, x ∈ cs ∧ Timestamp best < Timestamp (e x)) →
  ∃ pre x post,
    cs = pre ++ x :: post ∧ pick best cs = e x ∧
    Timestamp best < Timestamp (e x) ∧
    (∀ y, y ∈ pre → Timestamp (e y) < Timestamp (e x)) ∧
    (∀ y, y ∈ post → Timestamp (e y) <= Timestamp (e x)).
Proof.
  induction cs as [|c cs IH]; intros best (x & Hx & Hlt).
  { by apply elem_of_nil in Hx. }
  simpl. destruct (Z.ltb_spec (Timestamp best) (Timestamp (e c))) as [Hbc|Hbc].
  - destruct (decide (Exists (λ y, Timestamp (e c) < Timestamp (e y)) cs)) as [Hex|Hno].
    + apply Exists_exists in Hex as (y & Hy & Hcy).
      destruct (IH (e c)) as (pre & x' & post & -> & Hp & Hcx & Hpre & Hpost); [eauto|].
      exists (c :: pre), x', post. split_and!; [done | done | lia | | done].
      intros z [->|Hz]%elem_of_cons; [done | by apply Hpre].
    + exists [], c, cs. split_and!; [done | | done | |].
      * apply pick_keep. intros y Hy.
        destruct (Z.le_gt_cases (Timestamp (e y)) (Timestamp (e c))); [done|].
        exfalso. apply Hno, Exists_exists. eauto.
      * intros y Hy. by apply elem_of_nil in Hy.
      * intros y Hy.
        destruct (Z.le_gt_cases (Timestamp (e y)) (Timestamp (e c))); [done|].
        exfalso. apply Hno, Exists_exists. eauto.
  - apply elem_of_cons in Hx as [->|Hx]; [lia|].
    destruct (IH best) as (pre & x' & post & -> & Hp & Hbx & Hpre & Hpost); [eauto|].
    exists (c :: pre), x', post. split_and!; [done | done | done | | done].
    intros z [->|Hz]%elem_of_cons; [lia | by apply Hpre].
Qed.

(** With [R == 1] the read looks at the local store only. *)
Lemma getHandler_local (nd : Node) (q : gmap string (list string)) (resCh : list result) :
  Get q "key" ≠ "" → R nd = 1 →
  getHandler nd q resCh = lookupHandler nd (Get q "key").
Proof.
  intros Hk HR. unfold getHandler, lookupHandler. rewrite HR.
  destruct (decide (Get q "key" = "")); [done|]. simpl.
  by destruct (data nd !! Get q "key").
Qed.

(** The outcomes of [getHandler] on its fan-out path, in terms of the
    responses it counts. *)
Lemma getHandler_fanout (nd : Node) (q : gmap string (list string)) (resCh : list result) :
  Get q "key" ≠ "" → 1 < R nd →
  let cs := counted (R nd) resCh in
  getHandler nd q resCh =
    if decide (cs = []) then httpNotFound
    else mkResponse StatusOK (EntryJSON (pick zeroEntry cs)).
Proof.
  intros Hk HR cs. unfold getHandler.
  destruct (decide (Get q "key" = "")); [done|].
  destruct (Z.eqb_spec (R nd) 1); [lia|].
  rewrite collect_counted by lia. rewrite Z.sub_0_r. fold (counted (R nd) resCh).
  fold cs. destruct cs as [|c cs']; [done|].
  destruct (Z.ltb_spec (0 + Z.of_nat (length (c :: cs'))) 1) as [Hlt|_].
  - simpl length in Hlt. lia.
  - by destruct (decide (c :: cs' = [])).
Qed.

(** The fan-out read where the collecting loop finds the newest response.
    With [R > 1] the read answers NotFound when no successful response
    arrives; and when one of the first [R] successful responses carries a
    positive timestamp, it answers with the first of those [R] responses
    that carries their largest timestamp. *)
Theorem getHandler_returns_newest_counted
    (nd : Node) (q : gmap string (list string)) (resCh : list result) :
  Get q "key" ≠ "" → 1 < R nd →
  let cs := counted (R nd) resCh in
  (cs = [] → getHandler nd q resCh = httpNotFound) ∧
  ((∃ x, x ∈ cs ∧ 0 < Timestamp (e x)) →
     ∃ pre x post,
       cs = pre ++ x :: post ∧
       getHandler nd q resCh = mkResponse StatusOK (EntryJSON (e x)) ∧
       (∀ y, y ∈ pre → Timestamp (e y) < Timestamp (e x)) ∧
       (∀ y, y ∈ post → Timestamp (e y) <= Timestamp (e x))).
Proof.
  intros Hk HR cs. rewrite getHandler_fanout by done. fold cs. split.
  - intros ->. done.
  - intros Hpos.
    destruct (pick_first_max cs zeroEntry Hpos)
      as (pre & x & post & Hcs & Hp & _ & Hpre & Hpost).
    exists pre, x, post. split_and!; [done | | done | done].
    destruct (decide (cs = [])) as [Hnil|_].
    + rewrite Hnil in Hcs. by destruct pre.
    + by rewrite Hp.
Qed.

(** C10.  With [R > 1], when at least one successful response is counted
    and none of the counted responses has a positive timestamp, the read
    answers 200 with the zero entry. *)
Theorem getHandler_nonpositive_gives_zero
    (nd : Node) (q : gmap string (list string)) (resCh : list result) :
  Get q "key" ≠ "" → 1 < R nd →
  let cs := counted (R nd) resCh in
  cs ≠ [] →
  (∀ x, x ∈ cs → Timestamp (e x) <= 0) →
  getHandler nd q resCh = mkResponse StatusOK (EntryJSON zeroEntry).
Proof.
  intros Hk HR cs Hne Hall. rewrite getHandler_fanout by done. fold cs.
  destruct (decide (cs = [])); [done|].
  by rewrite pick_keep.
Qed.

Lemma getHandler_returns_newest_counted_witness :
  let nd := mkNode {[ "k" := mkEntry "v1" 10 ]} ["p1"; "p2"; "p3"] true 4 2 4 in
  let q : gmap string (list string) := {[ "key" := ["k"] ]} in
  let resCh := [ mkResult zeroEntry false; mkResult (mkEntry "v2" 20) true;
                 localResult nd "k"; mkResult (mkEntry "v3" 30) true ] in
  Get q "key" ≠ "" ∧ 1 < R nd ∧
  (∃ x, x ∈ counted (R nd) resCh ∧ 0 < Timestamp (e x)) ∧
  ∃ pre x post,
    counted (R nd) resCh = pre ++ x :: post ∧
    getHandler nd q resCh = mkResponse StatusOK (EntryJSON (e x)) ∧
    (∀ y, y ∈ pre → Timestamp (e y) < Timestamp (e x)) ∧
    (∀ y, y ∈ post → Timestamp (e y) <= Timestamp (e x)).
Proof.
  intros nd q resCh.
  assert (Get q "key" ≠ "") as Hk by (vm_compute; discriminate).
  assert (1 < R nd) as HR by (simpl; lia).
  assert (∃ x, x ∈ counted (R nd) resCh ∧ 0 < Timestamp (e x)) as Hpos.
  { exists (mkResult (mkEntry "v2" 20) true). split; [|simpl; lia].
    vm_compute. left. }
  split; [exact Hk|]. split; [exact HR|]. split; [exact Hpos|].
  exact (proj2 (getHandler_returns_newest_counted nd q resCh Hk HR) Hpos).
Defined.

(** On the input of the witness the answer is the entry of the second
    result to arrive, not the newer one that arrived after the quorum. *)
Example getHandler_first_R_only :
  let nd := mkNode {[ "k" := mkEntry "v1" 10 ]} ["p1"; "p2"; "p3"] true 4 2 4 in
  getHandler nd {[ "key" := ["k"] ]}
    [ mkResult zeroEntry false; mkResult (mkEntry "v2" 20) true;
      localResult nd "k"; mkResult (mkEntry "v3" 30) true ]
  = mkResponse StatusOK (EntryJSON (mkEntry "v2" 20)).
Proof. vm_compute. reflexivity. Qed.

Lemma getHandler_nonpositive_gives_zero_witness :
  let nd := mkNode {[ "k" := mkEntry "x" 0 ]} ["p1"] true 2 2 2 in
  let q : gmap string (list string) := {[ "key" := ["k"] ]} in
  let resCh := [ localResult nd "k"; mkResult (mkEntry "y" (-3)) true ] in
  Get q "key" ≠ "" ∧ 1 < R nd ∧ counted (R nd) resCh ≠ [] ∧
  (∀ x, x ∈ counted (R nd) resCh → Timestamp (e x) <= 0) ∧
  getHandler nd q resCh = mkResponse StatusOK (EntryJSON zeroEntry).
Proof.
  intros nd q resCh.
  assert (Get q "key" ≠ "") as Hk by (vm_compute; discriminate).
  assert (1 < R nd) as HR by (simpl; lia).
  assert (counted (R nd) resCh ≠ []) as Hne by (vm_compute; discriminate).
  assert (∀ x, x ∈ counted (R nd) resCh → Timestamp (e x) <= 0) as Hall.
  { intros x Hx. vm_compute in Hx.
    apply elem_of_cons in Hx as [->|Hx]; [simpl; lia|].
    apply elem_of_cons in Hx as [->|Hx]; [simpl; lia|].
    by apply elem_of_nil in Hx. }
  split; [exact Hk|]. split; [exact HR|]. split; [exact Hne|]. split; [exact Hall|].
  exact (getHandler_nonpositive_gives_zero nd q resCh Hk HR Hne Hall).
Defined.

(** C5, at the failing input.  A node alone in its cluster, started with
    [R = 2], accepts [/replicate?key=k&value=x&timestamp=0] and is then
    asked [/get?key=k].  The one successful response the read counts is the
    local one and carries the stored entry, which C5 makes the answer; it is
    the answer of [getReplicaHandler] and of the same read once the node is
    reconfigured to [R == 1].  The fan-out loop answers with the zero entry
    instead, which the store does not hold and no response carried: its
    running maximum starts at the zero [Entry] and gives way only to a
    strictly greater timestamp. *)
Theorem getHandler_zero_start_divergence :
  let nd := (replicateHandler (startNode [] true 1 2 1) (replicateQuery "k" "x" "0")).1 in
  let q : gmap string (list string) := {[ "key" := ["k"] ]} in
  let resCh := sentResults nd "k" (λ _, mkResult zeroEntry false) in
  let nd1 := (configHandler nd {[ "R" := ["1"] ]}).1 in
  data nd !! "k" = Some (mkEntry "x" 0) ∧ 1 < R nd ∧
  counted (R nd) resCh = [ mkResult (mkEntry "x" 0) true ] ∧
  getHandler nd q resCh = mkResponse StatusOK (EntryJSON (mkEntry "" 0)) ∧
  (¬ ∃ x, x ∈ counted (R nd) resCh ∧
          getHandler nd q resCh = mkResponse StatusOK (EntryJSON (e x))) ∧
  getReplicaHandler nd q = mkResponse StatusOK (EntryJSON (mkEntry "x" 0)) ∧
  R nd1 = 1 ∧ data nd1 = data nd ∧
  getHandler nd1 q (sentResults nd1 "k" (λ _, mkResult zeroEntry false)) =
    mkResponse StatusOK (EntryJSON (mkEntry "x" 0)).
Proof.
  intros nd q resCh nd1.
  assert (counted (R nd) resCh = [ mkResult (mkEntry "x" 0) true ]) as Hc
    by (vm_compute; reflexivity).
  assert (getHandler nd q resCh = mkResponse StatusOK (EntryJSON (mkEntry "" 0))) as Hg
    by (vm_compute; reflexivity).
  split; [vm_compute; reflexivity|]. split; [vm_compute; reflexivity|].
  split; [exact Hc|]. split; [exact Hg|]. split.
  - intros (x & Hx & Hr). rewrite Hc in Hx. rewrite Hg in Hr.
    apply list_elem_of_singleton in Hx as ->. simpl in Hr. discriminate.
  - split_and!; vm_compute; reflexivity.
Qed.

(** ** The write fan-out loops *)

Section WriteFacts.

Variable replicateTo : string → string → string → Z → bool.

Lemma peerAcks_nil : peerAcks [] = 0.
Proof. reflexivity. Qed.

Lemma peerAcks_cons p (b : bool) tr :
  peerAcks ((p, b) :: tr) = (if b then 1 else 0) + peerAcks tr.
Proof.
  unfold peerAcks. destruct b.
  - rewrite filter_cons_True by done. simpl length. lia.
  - rewrite filter_cons_False by (simpl; congruence). lia.
Qed.

Lemma peerAcks_nonneg tr : 0 <= peerAcks tr.
Proof. unfold peerAcks. lia. Qed.

Lemma peerAcks_app tr1 tr2 : peerAcks (tr1 ++ tr2) = peerAcks tr1 + peerAcks tr2.
Proof. unfold peerAcks. rewrite filter_app, length_app. lia. Qed.

(** The order in which the goroutines of [putHandler] finish does not
    change the tally. *)
Lemma peerAcks_Permutation tr1 tr2 : tr1 ≡ₚ tr2 → peerAcks tr1 = peerAcks tr2.
Proof. intros Hp. unfold peerAcks. by rewrite Hp. Qed.

Lemma fanoutAll_peers ps key val ts :
  map fst (fanoutAll replicateTo ps key val ts) = ps.
Proof. unfold fanoutAll. rewrite map_map. simpl. apply map_id. Qed.

Lemma fanoutAll_nonempty ps key val ts :
ps ≠ [] → fanoutAll replicateTo ps key val ts ≠ [].
Proof. by destruct ps. Qed.

(** The leader loop of [setHandler] always calls the first peer. *)
Lemma leaderLoop_nonempty w acks ps key val ts :
ps ≠ [] → (leaderLoop replicateTo w acks ps key val ts).2 ≠ [].
Proof.
destruct ps as [|p ps]; [done|]. intros _. simpl.
destruct (_ <=? _); [done|]. by destruct (leaderLoop _ _ _ _ _ _ _).
Qed.

(** The leaderless loop asks every peer, in order. *)
Lemma leaderlessLoop_all ps key val ts : ∀ acks,
  leaderlessLoop replicateTo acks ps key val ts =
    (acks + peerAcks (fanoutAll replicateTo ps key val ts),
     fanoutAll replicateTo ps key val ts).
Proof.
  induction ps as [|p ps IH]; intros acks; simpl.
  - rewrite peerAcks_nil. f_equal. lia.
  - rewrite IH, peerAcks_cons. destruct (replicateTo p key val ts); f_equal; lia.
Qed.

(** The leader loop of [setHandler] asks a prefix of the peer list: it
    stops after the first call that brings the tally to [w]. *)
Lemma leaderLoop_prefix w ps key val ts : ∀ acks,
  let out := leaderLoop replicateTo w acks ps key val ts in
  out.1 = acks + peerAcks out.2 ∧
  ∃ rest,
    fanoutAll replicateTo ps key val ts = out.2 ++ rest ∧
    (rest ≠ [] → w <= out.1) ∧
    (∀ n, (0 < n < length out.2)%nat → acks + peerAcks (take n out.2) < w).
Proof.
  induction ps as [|p ps IH]; intros acks; simpl.
  - split; [rewrite peerAcks_nil; lia|]. exists []. split_and!; [done | done |].
    simpl. lia.
  - set (b := replicateTo p key val ts).
    set (acks1 := if b then acks + 1 else acks).
    destruct (Z.leb_spec w acks1) as [Hstop|Hgo]; simpl.
    + split; [rewrite peerAcks_cons, peerAcks_nil; subst acks1; destruct b; lia|].
      exists (fanoutAll replicateTo ps key val ts). split_and!; [done | done |].
      intros n Hn. lia.
    + specialize (IH acks1). simpl in IH.
      destruct (leaderLoop replicateTo w acks1 ps key val ts) as [a tr] eqn:Hloop.
      simpl in *. destruct IH as (Ha & rest & Hall & Hrest & Hpre).
      split; [rewrite peerAcks_cons; subst acks1; destruct b; lia|].
      exists rest. split_and!; [by rewrite Hall | done |].
      intros n Hn. destruct n as [|n]; [lia|]. simpl.
      rewrite peerAcks_cons. fold b.
      destruct n as [|n].
      * rewrite take_0, peerAcks_nil. subst acks1. destruct b; lia.
      * specialize (Hpre (S n)). simpl in Hpre.
        assert (acks1 + peerAcks (take (S n) tr) < w) by (apply Hpre; lia).
        subst acks1. destruct b; lia.
Qed.

(** Stopping early never changes on which side of [w] the tally falls. *)
Lemma leaderLoop_verdict w ps key val ts acks :
  (leaderLoop replicateTo w acks ps key val ts).1 < w ↔
  acks + peerAcks (fanoutAll replicateTo ps key val ts) < w.
Proof.
  destruct (leaderLoop_prefix w ps key val ts acks) as (Ha & rest & Hall & Hrest & _).
  rewrite Hall, peerAcks_app.
  pose proof (peerAcks_nonneg rest).
  destruct rest as [|x rest].
  - rewrite peerAcks_nil. lia.
  - assert (w <= (leaderLoop replicateTo w acks ps key val ts).1) by (by apply Hrest).
    lia.
Qed.

End WriteFacts.

Lemma writeOutcome_ok : writeOutcome (mkResponse StatusOK NoBody) = Accepted.
Proof. reflexivity. Qed.
Lemma writeOutcome_created : writeOutcome (mkResponse StatusCreated NoBody) = Accepted.
Proof. reflexivity. Qed.
Lemma writeOutcome_quorum :
  writeOutcome (httpError "write quorum not met" StatusInternalServerError) = QuorumNotMet.
Proof. reflexivity. Qed.
Lemma writeOutcome_not_coordinator :
  writeOutcome (httpError "writes only allowed on leader" StatusBadRequest) = NotCoordinator.
Proof. reflexivity. Qed.
Lemma writeOutcome_key_required :
  writeOutcome (httpError "key required" StatusBadRequest) = InvalidRequest.
Proof. reflexivity. Qed.

(** ** The write handlers, branch by branch *)

Section WriteHandlers.

Variable replicateTo : string → string → string → Z → bool.
Variables (nd : Node) (q : gmap string (list string)) (ts : Z).

Let key := Get q "key".
Let val := Get q "value".
Let written := set_data nd (localWrite (data nd) key (mkEntry val ts)).

Lemma putHandler_no_key :
  key = "" →
  putHandler replicateTo nd q ts = refuse nd (httpError "key required" StatusBadRequest).
Proof. unfold putHandler. fold key. intros ->. done. Qed.

Lemma putHandler_peer :
  key ≠ "" → isLeader nd = false →
  putHandler replicateTo nd q ts =
    refuse nd (httpError "writes only allowed on leader" StatusBadRequest).
Proof.
  unfold putHandler. fold key. intros Hk ->.
  by destruct (decide (key = "")).
Qed.

Lemma putHandler_leader_async :
  key ≠ "" → isLeader nd = true → W nd = 1 →
  putHandler replicateTo nd q ts =
    mkWriteResult (mkResponse StatusOK NoBody) written [] (peers nd).
Proof.
  unfold putHandler. fold key val. intros Hk -> ->.
  by destruct (decide (key = "")).
Qed.

Lemma putHandler_leader_sync :
  key ≠ "" → isLeader nd = true → W nd ≠ 1 →
  let tr := fanoutAll replicateTo (peers nd) key val ts in
  putHandler replicateTo nd q ts =
    mkWriteResult
      (if 1 + peerAcks tr <? W nd
       then httpError "write quorum not met" StatusInternalServerError
       else mkResponse StatusOK NoBody)
      written tr [].
Proof.
  intros Hk Hl HW tr. unfold putHandler. fold key val tr. rewrite Hl.
  destruct (decide (key = "")); [done|].
  destruct (Z.eqb_spec (W nd) 1); [done|].
  by destruct (1 + peerAcks tr <? W nd).
Qed.

Lemma setHandler_no_key :
  key = "" →
  setHandler replicateTo nd q ts = refuse nd (httpError "key required" StatusBadRequest).
Proof. unfold setHandler. fold key. intros ->. done. Qed.

Lemma setHandler_refused :
  key ≠ "" → coordinates nd = false →
  setHandler replicateTo nd q ts =
    refuse nd (httpError "writes only allowed on leader" StatusBadRequest).
Proof.
  unfold setHandler, coordinates. fold key.
  intros Hk [-> ->]%orb_false_iff.
  by destruct (decide (key = "")).
Qed.

Lemma setHandler_leader_async :
  key ≠ "" → isLeader nd = true → W nd = 1 →
  setHandler replicateTo nd q ts =
    mkWriteResult (mkResponse StatusCreated NoBody) written [] (peers nd).
Proof.
  unfold setHandler. fold key val. intros Hk -> ->.
  by destruct (decide (key = "")).
Qed.

Lemma setHandler_leader_sync :
  key ≠ "" → isLeader nd = true → W nd ≠ 1 →
  let out := leaderLoop replicateTo (W nd) 1 (peers nd) key val ts in
  setHandler replicateTo nd q ts =
    mkWriteResult
      (if out.1 <? W nd
       then httpError "write quorum not met" StatusInternalServerError
       else mkResponse StatusCreated NoBody)
      written out.2 [].
Proof.
  intros Hk Hl HW out. unfold setHandler. fold key val out. rewrite Hl.
  destruct (decide (key = "")); [done|].
  destruct (Z.eqb_spec (W nd) 1); [done|].
  destruct out as [acks tr]. simpl. by destruct (acks <? W nd).
Qed.

Lemma setHandler_leaderless :
  key ≠ "" → isLeader nd = false → W nd = N nd →
  let tr := fanoutAll replicateTo (peers nd) key val ts in
  setHandler replicateTo nd q ts =
    mkWriteResult
      (if 1 + peerAcks tr <? W nd
       then httpError "write quorum not met" StatusInternalServerError
       else mkResponse StatusCreated NoBody)
      written tr [].
Proof.
  intros Hk Hl HW tr. unfold setHandler. fold key val. rewrite Hl.
  destruct (decide (key = "")); [done|]. simpl.
  rewrite <- HW, Z.eqb_refl, leaderlessLoop_all. fold tr.
  by destruct (1 + peerAcks tr <? W nd).
Qed.

End WriteHandlers.

(** ** Who coordinates a write *)

(** [setHandler] goes ahead when the node is the leader or [W == N], and
    turns the write away otherwise. *)
Lemma setHandler_gate (replicateTo : string → string → string → Z → bool)
    (nd : Node) (q : gmap string (list string)) (ts : Z) :
  Get q "key" ≠ "" →
  let s := setHandler replicateTo nd q ts in
  (coordinates nd = true →
     after s =
       set_data nd (localWrite (data nd) (Get q "key") (mkEntry (Get q "value") ts)) ∧
     (writeOutcome (resp s) = Accepted ∨ writeOutcome (resp s) = QuorumNotMet) ∧
     (peers nd ≠ [] → awaited s ≠ [] ∨ detached s ≠ [])) ∧
  (coordinates nd = false →
     s = refuse nd (httpError "writes only allowed on leader" StatusBadRequest)).
Proof.
  intros Hk s. subst s. split.
  - unfold coordinates. intros Hc.
    destruct (isLeader nd) eqn:Hl.
    + destruct (decide (W nd = 1)) as [HW|HW].
      * rewrite setHandler_leader_async by done. simpl. auto.
      * rewrite setHandler_leader_sync by done. simpl.
        split_and!; [done | destruct (_ <? _); auto |].
        intros Hp. left. by apply leaderLoop_nonempty.
    + simpl in Hc. apply Z.eqb_eq in Hc.
      rewrite setHandler_leaderless by done. simpl.
      split_and!; [done | destruct (_ <? _); auto |].
      intros Hp. left. by apply fanoutAll_nonempty.
  - intros Hc. by rewrite setHandler_refused.
Qed.

(** [putHandler] goes ahead on the leader and turns the write away on any
    other node. *)
Lemma putHandler_gate (replicateTo : string → string → string → Z → bool)
    (nd : Node) (q : gmap string (list string)) (ts : Z) :
  Get q "key" ≠ "" →
  let p := putHandler replicateTo nd q ts in
  (isLeader nd = true →
     after p =
       set_data nd (localWrite (data nd) (Get q "key") (mkEntry (Get q "value") ts)) ∧
     (writeOutcome (resp p) = Accepted ∨ writeOutcome (resp p) = QuorumNotMet) ∧
     (peers nd ≠ [] → awaited p ≠ [] ∨ detached p ≠ [])) ∧
  (isLeader nd = false →
     p = refuse nd (httpError "writes only allowed on leader" StatusBadRequest)).
Proof.
  intros Hk p. subst p. split.
  - intros Hl. destruct (decide (W nd = 1)) as [HW|HW].
    + rewrite putHandler_leader_async by done. simpl. auto.
    + rewrite putHandler_leader_sync by done. simpl.
      split_and!; [done | destruct (_ <? _); auto |].
      intros Hp. left. by apply fanoutAll_nonempty.
  - intros Hl. by rewrite putHandler_peer.
Qed.

(** C2, as the code has it.  A write with a non-empty key goes ahead (the
    local assignment is made, the peers are called when there are any, and
    the answer is Accepted or QuorumNotMet) exactly when: for
    [setHandler], the node is the leader or [W == N]; for [putHandler], the
    node is the leader.  In every other case the answer is NotCoordinator
    and nothing was done: same process state, no call to any peer. *)
Theorem write_gate (replicateTo : string → string → string → Z → bool)
    (nd : Node) (q : gmap string (list string)) (ts : Z) :
  Get q "key" ≠ "" →
  let written :=
    set_data nd (localWrite (data nd) (Get q "key") (mkEntry (Get q "value") ts)) in
  let refused :=
    refuse nd (httpError "writes only allowed on leader" StatusBadRequest) in
  let s := setHandler replicateTo nd q ts in
  let p := putHandler replicateTo nd q ts in
  (coordinates nd = true →
     after s = written ∧
     (writeOutcome (resp s) = Accepted ∨ writeOutcome (resp s) = QuorumNotMet) ∧
     (peers nd ≠ [] → awaited s ≠ [] ∨ detached s ≠ [])) ∧
  (coordinates nd = false →
     s = refused ∧ writeOutcome (resp s) = NotCoordinator) ∧
  (isLeader nd = true →
     after p = written ∧
     (writeOutcome (resp p) = Accepted ∨ writeOutcome (resp p) = QuorumNotMet) ∧
     (peers nd ≠ [] → awaited p ≠ [] ∨ detached p ≠ [])) ∧
  (isLeader nd = false →
     p = refused ∧ writeOutcome (resp p) = NotCoordinator).
Proof.
  intros Hk written refused s p. subst s p written refused.
  destruct (setHandler_gate replicateTo nd q ts Hk) as [Hs1 Hs2].
  destruct (putHandler_gate replicateTo nd q ts Hk) as [Hp1 Hp2].
  split_and!.
  - done.
  - intros Hc. split; [by apply Hs2|]. by rewrite (Hs2 Hc).
  - done.
  - intros Hl. split; [by apply Hp2|]. by rewrite (Hp2 Hl).
Qed.

Lemma write_gate_witness :
  let replicateTo : string → string → string → Z → bool := λ _ _ _ _, true in
  let nd := mkNode ∅ ["p2"; "p3"] false 3 1 3 in
  let q := writeQuery "baz" "qux" in
  Get q "key" ≠ "" ∧ coordinates nd = true ∧ isLeader nd = false ∧
  data (after (setHandler replicateTo nd q 1700)) !! "baz" = Some (mkEntry "qux" 1700) ∧
  writeOutcome (resp (putHandler replicateTo nd q 1700)) = NotCoordinator.
Proof.
  intros replicateTo nd q.
  assert (Get q "key" ≠ "") as Hk by (vm_compute; discriminate).
  assert (coordinates nd = true) as Hc by reflexivity.
  assert (isLeader nd = false) as Hl by reflexivity.
  destruct (write_gate replicateTo nd q 1700 Hk) as (Hs & _ & _ & Hp).
  split; [exact Hk|]. split; [exact Hc|]. split; [exact Hl|]. split.
  - rewrite (proj1 (Hs Hc)). vm_compute. reflexivity.
  - exact (proj2 (Hp Hl)).
Defined.

(** C2 as stated fails on [putHandler]: a peer with [W == N] is turned away
    although the specification counts it as a coordinator. *)
Lemma write_gate_counterexample :
  let replicateTo : string → string → string → Z → bool := λ _ _ _ _, true in
  let nd := mkNode ∅ ["p2"; "p3"] false 3 1 3 in
  let q := writeQuery "baz" "qux" in
  isLeader nd = false ∧ W nd = N nd ∧ Get q "key" ≠ "" ∧
  putHandler replicateTo nd q 1700 =
    refuse nd (httpError "writes only allowed on leader" StatusBadRequest) ∧
  writeOutcome (resp (putHandler replicateTo nd q 1700)) = NotCoordinator ∧
  data (after (putHandler replicateTo nd q 1700)) !! "baz" = None.
Proof.
  intros replicateTo nd q. split_and!; try reflexivity.
  vm_compute. discriminate.
Qed.

(** ** Quorum arithmetic *)

(** C3, as the code has it.  A write with a key on a node that the handler
    lets coordinate (the leader for [putHandler]; the leader, or a peer with
    [W == N], for [setHandler]) answers QuorumNotMet exactly when the tally,
    one for the local write plus the successful peer replies, is below [W],
    and Accepted otherwise.  The verdict is the same whether the tally
    counts the replies the handler obtained or the replies of all peers. *)
Theorem quorum_arithmetic (replicateTo : string → string → string → Z → bool)
    (nd : Node) (q : gmap string (list string)) (ts : Z) :
  Get q "key" ≠ "" →
  let all := acknowledgmentsOfAll replicateTo nd (Get q "key") (Get q "value") ts in
  (isLeader nd = true →
     let r := putHandler replicateTo nd q ts in
     (writeOutcome (resp r) = QuorumNotMet ↔ acknowledgments r < W nd) ∧
     (writeOutcome (resp r) = Accepted ↔ W nd <= acknowledgments r) ∧
     (acknowledgments r < W nd ↔ all < W nd)) ∧
  (coordinates nd = true →
     let r := setHandler replicateTo nd q ts in
     (writeOutcome (resp r) = QuorumNotMet ↔ acknowledgments r < W nd) ∧
     (writeOutcome (resp r) = Accepted ↔ W nd <= acknowledgments r) ∧
     (acknowledgments r < W nd ↔ all < W nd)).
Proof.
  intros Hk all. subst all. unfold acknowledgmentsOfAll, acknowledgments.
  set (tr := fanoutAll replicateTo (peers nd) (Get q "key") (Get q "value") ts).
  pose proof (peerAcks_nonneg tr) as Hnn.
  assert (∀ ok : Response,
    writeOutcome ok = Accepted →
    let r := if 1 + peerAcks tr <? W nd
             then httpError "write quorum not met" StatusInternalServerError
             else ok in
    (writeOutcome r = QuorumNotMet ↔ 1 + peerAcks tr < W nd) ∧
    (writeOutcome r = Accepted ↔ W nd <= 1 + peerAcks tr)) as Hsync.
  { intros ok Hok r. subst r.
    destruct (Z.ltb_spec (1 + peerAcks tr) (W nd)).
    - rewrite writeOutcome_quorum. split; split; (done || lia).
    - rewrite Hok. split; split; (done || lia). }
  split.
  - intros Hl. destruct (decide (W nd = 1)) as [HW|HW].
    + rewrite putHandler_leader_async by done. simpl.
      rewrite peerAcks_nil, HW. split_and!; split; (done || lia).
    + rewrite putHandler_leader_sync by done. simpl. fold tr.
      destruct (Hsync _ writeOutcome_ok). split_and!; done.
  - unfold coordinates. intros Hc.
    destruct (isLeader nd) eqn:Hl.
    + destruct (decide (W nd = 1)) as [HW|HW].
      * rewrite setHandler_leader_async by done. simpl.
        rewrite peerAcks_nil, HW. split_and!; split; (done || lia).
      * rewrite setHandler_leader_sync by done. simpl.
        pose proof (leaderLoop_verdict replicateTo (W nd) (peers nd)
                      (Get q "key") (Get q "value") ts 1) as Hv. fold tr in Hv.
        destruct (leaderLoop_prefix replicateTo (W nd) (peers nd)
                    (Get q "key") (Get q "value") ts 1) as (Ha & _).
        destruct (leaderLoop _ _ _ _ _ _ _) as [acks tr']. simpl in *. subst acks.
        destruct (Z.ltb_spec (1 + peerAcks tr') (W nd)).
        -- rewrite writeOutcome_quorum. split_and!; [split; (done || lia).. | done].
        -- rewrite writeOutcome_created. split_and!; [split; (done || lia).. | done].
    + simpl in Hc. apply Z.eqb_eq in Hc.
      rewrite setHandler_leaderless by done. simpl. fold tr.
      destruct (Hsync _ writeOutcome_created). split_and!; done.
Qed.

Lemma quorum_arithmetic_witness :
  let replicateTo : string → string → string → Z → bool :=
    λ peer _ _ _, String.eqb peer "p2" in
  let nd := mkNode ∅ ["p2"; "p3"] true 3 1 3 in
  let q := writeQuery "foo" "bar" in
  Get q "key" ≠ "" ∧ isLeader nd = true ∧ coordinates nd = true ∧
  acknowledgments (putHandler replicateTo nd q 1700) = 2 ∧
  writeOutcome (resp (putHandler replicateTo nd q 1700)) = QuorumNotMet ∧
  writeOutcome (resp (setHandler replicateTo nd q 1700)) = QuorumNotMet.
Proof.
  intros replicateTo nd q.
  assert (Get q "key" ≠ "") as Hk by (vm_compute; discriminate).
  assert (isLeader nd = true) as Hl by reflexivity.
  assert (coordinates nd = true) as Hc by reflexivity.
  destruct (quorum_arithmetic replicateTo nd q 1700 Hk) as (Hp & Hs).
  split; [exact Hk|]. split; [exact Hl|]. split; [exact Hc|].
  split; [vm_compute; reflexivity|]. split.
  - apply (proj1 (Hp Hl)). vm_compute. reflexivity.
  - apply (proj1 (Hs Hc)). vm_compute. reflexivity.
Defined.

(** C3 as stated fails on [putHandler]: a peer with [W == N] satisfies the
    coordinator precondition of the specification, yet its write is answered
    NotCoordinator, which is neither of the two outcomes of the claim.  With
    every peer ready to acknowledge, the tally of all replies reaches [W]
    and the answer is not Accepted; the tally of the replies obtained, none
    being asked for, is below [W] and the answer is not QuorumNotMet. *)
Lemma quorum_arithmetic_counterexample :
  let replicateTo : string → string → string → Z → bool := λ _ _ _ _, true in
  let nd := mkNode ∅ ["p2"; "p3"] false 3 1 3 in
  let q := writeQuery "foo" "bar" in
  let r := putHandler replicateTo nd q 1700 in
  let all := acknowledgmentsOfAll replicateTo nd (Get q "key") (Get q "value") 1700 in
  Get q "key" ≠ "" ∧ coordinates nd = true ∧
  writeOutcome (resp r) = NotCoordinator ∧
  acknowledgments r = 1 ∧ all = 3 ∧ W nd = 3 ∧
  ¬ (writeOutcome (resp r) = QuorumNotMet ↔ acknowledgments r < W nd) ∧
  ¬ (¬ all < W nd → writeOutcome (resp r) = Accepted).
Proof.
  intros replicateTo nd q r all.
  assert (writeOutcome (resp r) = NotCoordinator) as Ho by (vm_compute; reflexivity).
  assert (acknowledgments r = 1) as Ha by (vm_compute; reflexivity).
  assert (all = 3) as Hall by (vm_compute; reflexivity).
  assert (Get q "key" ≠ "") as Hk by (vm_compute; discriminate).
  split; [exact Hk|]. split; [reflexivity|]. split; [exact Ho|].
  split; [exact Ha|]. split; [exact Hall|]. split; [reflexivity|]. split.
  - rewrite Ho, Ha. simpl. intros [_ H]. specialize (H ltac:(lia)). discriminate.
  - rewrite Ho, Hall. simpl. intros H. specialize (H ltac:(lia)). discriminate.
Qed.

(** ** Which peers a synchronous write asks *)

(** C4, as the code has it.  With [W > 1], [putHandler] on the leader and
    [setHandler] on a leaderless coordinator call every peer of the list and
    have every reply in hand before they tally; [setHandler] on the leader
    calls the peers one after the other in list order and stops after the
    call that brings the tally to [W], so the peers it asked form the
    shortest prefix of the list that reaches [W] (the whole list when [W]
    is not reached).  No call is left running in any of the three. *)
Theorem synchronous_fanout (replicateTo : string → string → string → Z → bool)
    (nd : Node) (q : gmap string (list string)) (ts : Z) :
  Get q "key" ≠ "" → 1 < W nd →
  let all := fanoutAll replicateTo (peers nd) (Get q "key") (Get q "value") ts in
  let p := putHandler replicateTo nd q ts in
  let s := setHandler replicateTo nd q ts in
  (isLeader nd = true →
     awaited p = all ∧ map fst (awaited p) = peers nd ∧ detached p = []) ∧
  (isLeader nd = false → W nd = N nd →
     awaited s = all ∧ map fst (awaited s) = peers nd ∧ detached s = []) ∧
  (isLeader nd = true →
     detached s = [] ∧
     ∃ rest,
       all = awaited s ++ rest ∧
       (rest ≠ [] → W nd <= acknowledgments s) ∧
       (∀ n, (n < length (awaited s))%nat →
          1 + peerAcks (take n (awaited s)) < W nd)).
Proof.
  intros Hk HW all p s. subst all p s. split_and!.
  - intros Hl. rewrite putHandler_leader_sync by (done || lia). simpl.
    by rewrite fanoutAll_peers.
  - intros Hl HN. rewrite setHandler_leaderless by done. simpl.
    by rewrite fanoutAll_peers.
  - intros Hl. rewrite setHandler_leader_sync by (done || lia).
    unfold acknowledgments. simpl. split; [done|].
    destruct (leaderLoop_prefix replicateTo (W nd) (peers nd)
                (Get q "key") (Get q "value") ts 1) as (Ha & rest & Hall & Hrest & Hpre).
    exists rest. split_and!; [done | |].
    + intros Hne. rewrite <- Ha. by apply Hrest.
    + intros [|n] Hn.
      * rewrite take_0, peerAcks_nil. lia.
      * apply Hpre. lia.
Qed.

Lemma synchronous_fanout_witness :
  let replicateTo : string → string → string → Z → bool :=
    λ peer _ _ _, negb (String.eqb peer "p2") in
  let nd := mkNode ∅ ["p2"; "p3"; "p4"; "p5"] true 5 1 3 in
  let q := writeQuery "foo" "bar" in
  Get q "key" ≠ "" ∧ 1 < W nd ∧ isLeader nd = true ∧
  map fst (awaited (putHandler replicateTo nd q 1700)) = ["p2"; "p3"; "p4"; "p5"] ∧
  awaited (setHandler replicateTo nd q 1700) =
    [("p2", false); ("p3", true); ("p4", true)].
Proof.
  intros replicateTo nd q.
  assert (Get q "key" ≠ "") as Hk by (vm_compute; discriminate).
  assert (1 < W nd) as HW by (simpl; lia).
  assert (isLeader nd = true) as Hl by reflexivity.
  destruct (synchronous_fanout replicateTo nd q 1700 Hk HW) as (Hp & _ & _).
  split; [exact Hk|]. split; [exact HW|]. split; [exact Hl|]. split.
  - exact (proj1 (proj2 (Hp Hl))).
  - vm_compute. reflexivity.
Defined.

(** C4 as stated fails on [setHandler] in leader mode: with [W = 2] and two
    peers that would both acknowledge, the second peer is never called. *)
Lemma synchronous_fanout_counterexample :
  let replicateTo : string → string → string → Z → bool := λ _ _ _ _, true in
  let nd := mkNode ∅ ["p2"; "p3"] true 3 1 2 in
  let s := setHandler replicateTo nd (writeQuery "foo" "bar") 1700 in
  1 < W nd ∧ isLeader nd = true ∧
  resp s = mkResponse StatusCreated NoBody ∧
  awaited s = [("p2", true)] ∧ detached s = [] ∧
  "p3" ∈ peers nd ∧ "p3" ∉ map fst (awaited s) ++ detached s.
Proof.
  intros replicateTo nd s. split_and!; try (vm_compute; reflexivity).
  - simpl. set_solver.
  - vm_compute. intros H. apply list_elem_of_singleton in H. discriminate.
Qed.

(** ** The store invariant *)

(** Along a history whose client writes are all fresh, the timestamp stored
    under a key is the largest applied for it. *)
Lemma run_timestamp h : ∀ d key,
  freshWrites d h = true →
  Timestamp <$> (run d h !! key) = maxApplied (Timestamp <$> (d !! key)) h key.
Proof.
  induction h as [|a h IH]; intros d key Hf; [done|]. simpl in *.
  apply andb_true_iff in Hf as [Ha Hh].
  rewrite IH by done. f_equal.
  destruct (decide (applyKey a = key)) as [<-|Hne].
  - by apply step_timestamp.
  - by rewrite step_other.
Qed.

(** Each request changes the store by the entry it applies, and by nothing
    else. *)
Lemma serve_data sv replicateTo nd rq :
  data (serve sv replicateTo nd rq) =
    match applied sv replicateTo nd rq with
    | Some a => step (data nd) a
    | None => data nd
    end.
Proof.
  destruct rq as [q ts|q|q]; simpl.
  - destruct (decide (Get q "key" = "")) as [Hk|Hk].
    + destruct sv; simpl;
        [rewrite putHandler_no_key by done | rewrite setHandler_no_key by done]; done.
    + destruct sv; simpl.
      * destruct (putHandler_gate replicateTo nd q ts Hk) as (Hy & Hn).
        destruct (isLeader nd).
        -- destruct (Hy eq_refl) as (-> & [-> | ->] & _); done.
        -- rewrite (Hn eq_refl). done.
      * destruct (setHandler_gate replicateTo nd q ts Hk) as (Hy & Hn).
        destruct (coordinates nd).
        -- destruct (Hy eq_refl) as (-> & [-> | ->] & _); done.
        -- rewrite (Hn eq_refl). done.
  - unfold replicateHandler. destruct (ParseInt _); [|done].
    by destruct (decide (Get q "key" = "")).
  - done.
Qed.

Lemma serveAll_data sv replicateTo rqs : ∀ nd,
  data (serveAll sv replicateTo nd rqs).1 =
    run (data nd) (serveAll sv replicateTo nd rqs).2.
Proof.
  induction rqs as [|rq rqs IH]; intros nd; [done|]. simpl.
  rewrite IH, serve_data. by destruct (applied _ _ _ _).
Qed.




(** ** Bytes and bit arithmetic *)

Lemma byteVal_range c : 0 <= byteVal c < 256.
Proof. unfold byteVal. pose proof (nat_ascii_bounded c). lia. Qed.

Lemma byteOf_byteVal c : byteOf (byteVal c) = c.
Proof.
  unfold byteOf. rewrite Z.mod_small by apply byteVal_range.
  unfold byteVal. rewrite Nat2Z.id. apply ascii_nat_embedding.
Qed.

Lemma byteVal_byteOf z : 0 <= z < 256 → byteVal (byteOf z) = z.
Proof.
  intros Hz. unfold byteOf, byteVal. rewrite Z.mod_small by done.
  rewrite nat_ascii_embedding by lia. lia.
Qed.

Lemma byteOf_eq z c : z = byteVal c → byteOf z = c.
Proof. intros ->. apply byteOf_byteVal. Qed.

(** Or-ing a value below [2 ^ k] into a multiple of [2 ^ k] adds it. *)
Lemma lor_low a k b : 0 <= k → 0 <= b < 2 ^ k → Z.lor (a * 2 ^ k) b = a * 2 ^ k + b.
Proof.
  intros Hk Hb. symmetry. apply Z.add_nocarry_lor.
  apply Z.bits_inj'. intros n Hn. rewrite Z.land_spec, Z.bits_0.
  destruct (Z.lt_ge_cases n k) as [Hlt|Hge].
  - by rewrite Z.mul_pow2_bits_low.
  - rewrite <- (Z.mod_small b (2 ^ k)) by done.
    rewrite Z.mod_pow2_bits_high by lia. apply andb_false_r.
Qed.

Lemma land_mask a k : 0 <= k → Z.land a (2 ^ k - 1) = a mod 2 ^ k.
Proof. intros Hk. rewrite <- Z.land_ones by done. by rewrite Z.ones_equiv, Z.sub_1_r. Qed.

Lemma land_1F a : Z.land a 0x1F = a mod 32.
Proof. apply (land_mask a 5). lia. Qed.
Lemma land_0F a : Z.land a 0x0F = a mod 16.
Proof. apply (land_mask a 4). lia. Qed.
Lemma land_07 a : Z.land a 0x07 = a mod 8.
Proof. apply (land_mask a 3). lia. Qed.
Lemma land_3F a : Z.land a 0x3F = a mod 64.
Proof. apply (land_mask a 6). lia. Qed.

Lemma lor_C0 x : 0 <= x < 64 → Z.lor 0xC0 x = 192 + x.
Proof. intros. apply (lor_low 3 6 x); lia. Qed.
Lemma lor_80 x : 0 <= x < 64 → Z.lor 0x80 x = 128 + x.
Proof. intros. apply (lor_low 2 6 x); lia. Qed.
Lemma lor_E0 x : 0 <= x < 16 → Z.lor 0xE0 x = 224 + x.
Proof. intros. apply (lor_low 14 4 x); lia. Qed.
Lemma lor_F0 x : 0 <= x < 8 → Z.lor 0xF0 x = 240 + x.
Proof. intros. apply (lor_low 30 3 x); lia. Qed.

(** The rune of a two-, three- and four-byte sequence, arithmetically. *)
Lemma rune2_arith s0 s1 :
  Z.lor (Z.shiftl (Z.land s0 0x1F) 6) (Z.land s1 0x3F) = s0 mod 32 * 64 + s1 mod 64.
Proof.
  rewrite land_1F, land_3F, Z.shiftl_mul_pow2 by lia.
  apply (lor_low _ 6); [lia|]. apply Z.mod_pos_bound. lia.
Qed.

Lemma rune3_arith s0 s1 s2 :
  Z.lor (Z.lor (Z.shiftl (Z.land s0 0x0F) 12) (Z.shiftl (Z.land s1 0x3F) 6))
        (Z.land s2 0x3F)
  = s0 mod 16 * 4096 + s1 mod 64 * 64 + s2 mod 64.
Proof.
  rewrite land_0F, !land_3F, !Z.shiftl_mul_pow2 by lia.
  pose proof (Z.mod_pos_bound s1 64 ltac:(lia)).
  pose proof (Z.mod_pos_bound s2 64 ltac:(lia)).
  rewrite (lor_low _ 12) by lia.
  replace (s0 mod 16 * 2 ^ 12 + s1 mod 64 * 2 ^ 6)
    with ((s0 mod 16 * 64 + s1 mod 64) * 2 ^ 6) by lia.
  rewrite (lor_low _ 6) by lia. lia.
Qed.

Lemma rune4_arith s0 s1 s2 s3 :
  Z.lor (Z.lor (Z.lor (Z.shiftl (Z.land s0 0x07) 18) (Z.shiftl (Z.land s1 0x3F) 12))
               (Z.shiftl (Z.land s2 0x3F) 6))
        (Z.land s3 0x3F)
  = s0 mod 8 * 262144 + s1 mod 64 * 4096 + s2 mod 64 * 64 + s3 mod 64.
Proof.
  rewrite land_07, !land_3F, !Z.shiftl_mul_pow2 by lia.
  pose proof (Z.mod_pos_bound s1 64 ltac:(lia)).
  pose proof (Z.mod_pos_bound s2 64 ltac:(lia)).
  pose proof (Z.mod_pos_bound s3 64 ltac:(lia)).
  rewrite (lor_low _ 18) by lia.
  replace (s0 mod 8 * 2 ^ 18 + s1 mod 64 * 2 ^ 12)
    with ((s0 mod 8 * 64 + s1 mod 64) * 2 ^ 12) by lia.
  rewrite (lor_low _ 12) by lia.
  replace ((s0 mod 8 * 64 + s1 mod 64) * 2 ^ 12 + s2 mod 64 * 2 ^ 6)
    with (((s0 mod 8 * 64 + s1 mod 64) * 64 + s2 mod 64) * 2 ^ 6) by lia.
  rewrite (lor_low _ 6) by lia. lia.
Qed.

(** ** UTF-8: decoding and re-encoding one rune *)

(** Settle the comparisons of the goal that the context decides. *)
Ltac split_cmp :=
  repeat match goal with
  | |- context [Z.leb ?a ?b] =>
      first [ rewrite (proj2 (Z.leb_le a b)) by lia
            | rewrite (proj2 (Z.leb_gt a b)) by lia ]
  | |- context [Z.ltb ?a ?b] =>
      first [ rewrite (proj2 (Z.ltb_lt a b)) by lia
            | rewrite (proj2 (Z.ltb_ge a b)) by lia ]
  | |- context [Z.eqb ?a ?b] =>
      first [ rewrite (proj2 (Z.eqb_eq a b)) by lia
            | rewrite (proj2 (Z.eqb_neq a b)) by lia ]
  end.

Lemma EncodeRune_rune2 c0 c1 :
  seq2 (byteVal c0) (byteVal c1) →
  EncodeRune (rune2 (byteVal c0) (byteVal c1)) = [c0; c1].
Proof.
  intros ([? ?] & [? ?]). unfold rune2. rewrite rune2_arith.
  set (s0 := byteVal c0) in *. set (s1 := byteVal c1) in *.
  assert (s0 mod 32 = s0 - 192) as -> by (Z.div_mod_to_equations; lia).
  assert (s1 mod 64 = s1 - 128) as -> by (Z.div_mod_to_equations; lia).
  set (r := (s0 - 192) * 64 + (s1 - 128)).
  assert (r / 64 = s0 - 192) as Hhi by (subst r; Z.div_mod_to_equations; lia).
  assert (r mod 64 = s1 - 128) as Hlo by (subst r; Z.div_mod_to_equations; lia).
  assert (128 <= r <= 2047) by (subst r; lia).
  unfold EncodeRune. split_cmp. simpl.
  rewrite Z.shiftr_div_pow2, land_3F by lia. change (2 ^ 6) with 64.
  rewrite Hhi, Hlo, lor_C0, lor_80 by lia.
  f_equal; [|f_equal]; apply byteOf_eq; lia.
Qed.

Lemma rune3_bounds s0 s1 s2 :
  seq3 s0 s1 s2 →
  let r := s0 mod 16 * 4096 + s1 mod 64 * 64 + s2 mod 64 in
  r / 4096 = s0 - 224 ∧ r / 64 mod 64 = s1 - 128 ∧ r mod 64 = s2 - 128 ∧
  2048 <= r <= 65535 ∧ ¬ (0xD800 <= r <= 0xDFFF).
Proof.
  intros ([? ?] & [? ?] & HE0 & HED & [? ?]) r.
  assert (s0 mod 16 = s0 - 224) as E0 by (Z.div_mod_to_equations; lia).
  assert (s1 mod 64 = s1 - 128) as E1 by (Z.div_mod_to_equations; lia).
  assert (s2 mod 64 = s2 - 128) as E2 by (Z.div_mod_to_equations; lia).
  subst r. rewrite E0, E1, E2.
  split_and!; Z.div_mod_to_equations; lia.
Qed.

Lemma EncodeRune_rune3 c0 c1 c2 :
  seq3 (byteVal c0) (byteVal c1) (byteVal c2) →
  EncodeRune (rune3 (byteVal c0) (byteVal c1) (byteVal c2)) = [c0; c1; c2].
Proof.
  intros Hseq. unfold rune3. rewrite rune3_arith.
  destruct (rune3_bounds _ _ _ Hseq) as (H0 & H1 & H2 & Hr & Hs).
  destruct Hseq as ([? ?] & [? ?] & _ & _ & [? ?]).
  set (r := _ + _ + _) in *.
  assert ((0xD800 <=? r) && (r <=? 0xDFFF) = false) as Hsur.
  { destruct (Z.leb_spec 0xD800 r), (Z.leb_spec r 0xDFFF); simpl; (done || lia). }
  unfold EncodeRune, MaxRune, RuneError. split_cmp. simpl.
  rewrite Hsur. split_cmp.
  rewrite !Z.shiftr_div_pow2, !land_3F by lia.
  change (2 ^ 12) with 4096. change (2 ^ 6) with 64.
  rewrite H0, H1, H2, lor_E0, !lor_80 by lia.
  f_equal; [|f_equal; [|f_equal]]; apply byteOf_eq; lia.
Qed.

Lemma rune4_bounds s0 s1 s2 s3 :
  seq4 s0 s1 s2 s3 →
  let r := s0 mod 8 * 262144 + s1 mod 64 * 4096 + s2 mod 64 * 64 + s3 mod 64 in
  r / 262144 = s0 - 240 ∧ r / 4096 mod 64 = s1 - 128 ∧
  r / 64 mod 64 = s2 - 128 ∧ r mod 64 = s3 - 128 ∧
  65536 <= r <= 1114111.
Proof.
  intros ([? ?] & [? ?] & HF0 & HF4 & [? ?] & [? ?]) r.
  assert (s0 mod 8 = s0 - 240) as E0 by (Z.div_mod_to_equations; lia).
  assert (s1 mod 64 = s1 - 128) as E1 by (Z.div_mod_to_equations; lia).
  assert (s2 mod 64 = s2 - 128) as E2 by (Z.div_mod_to_equations; lia).
  assert (s3 mod 64 = s3 - 128) as E3 by (Z.div_mod_to_equations; lia).
  subst r. rewrite E0, E1, E2, E3.
  split_and!; Z.div_mod_to_equations; lia.
Qed.

Lemma EncodeRune_rune4 c0 c1 c2 c3 :
  seq4 (byteVal c0) (byteVal c1) (byteVal c2) (byteVal c3) →
  EncodeRune (rune4 (byteVal c0) (byteVal c1) (byteVal c2) (byteVal c3))
  = [c0; c1; c2; c3].
Proof.
  intros Hseq. unfold rune4. rewrite rune4_arith.
  destruct (rune4_bounds _ _ _ _ Hseq) as (H0 & H1 & H2 & H3 & Hr).
  destruct Hseq as ([? ?] & [? ?] & _ & _ & [? ?] & [? ?]).
  set (r := _ + _ + _ + _) in *.
  unfold EncodeRune, MaxRune, RuneError. split_cmp. simpl. split_cmp. simpl.
  rewrite !Z.shiftr_div_pow2, !land_3F by lia.
  change (2 ^ 18) with 262144. change (2 ^ 12) with 4096. change (2 ^ 6) with 64.
  rewrite H0, H1, H2, H3, lor_F0, !lor_80 by lia.
  f_equal; [|f_equal; [|f_equal; [|f_equal]]]; apply byteOf_eq; lia.
Qed.

Lemma first_cases s0 :
  0x80 <= s0 →
  (first s0 = 0xF1 ∧ (s0 < 0xC2 ∨ 0xF4 < s0)) ∨
  (first s0 = 0x02 ∧ 0xC2 <= s0 <= 0xDF) ∨
  (first s0 = 0x13 ∧ s0 = 0xE0) ∨
  (first s0 = 0x03 ∧ 0xE1 <= s0 <= 0xEF ∧ s0 ≠ 0xED) ∨
  (first s0 = 0x23 ∧ s0 = 0xED) ∨
  (first s0 = 0x34 ∧ s0 = 0xF0) ∨
  (first s0 = 0x04 ∧ 0xF1 <= s0 <= 0xF3) ∨
  (first s0 = 0x44 ∧ s0 = 0xF4).
Proof.
  intros Hs. unfold first.
  repeat match goal with
  | |- context [Z.ltb ?a ?b] => destruct (Z.ltb_spec a b)
  | |- context [Z.eqb ?a ?b] => destruct (Z.eqb_spec a b)
  end; lia.
Qed.

(** Evaluate the size and the accept range of the entries of [first]. *)
Ltac eval_size :=
  change (Z.land 0x02 7) with 2; change (Z.land 0x13 7) with 3;
  change (Z.land 0x03 7) with 3; change (Z.land 0x23 7) with 3;
  change (Z.land 0x34 7) with 4; change (Z.land 0x04 7) with 4;
  change (Z.land 0x44 7) with 4;
  change (acceptRanges (Z.shiftr 0x02 4)) with (0x80, 0xBF);
  change (acceptRanges (Z.shiftr 0x13 4)) with (0xA0, 0xBF);
  change (acceptRanges (Z.shiftr 0x03 4)) with (0x80, 0xBF);
  change (acceptRanges (Z.shiftr 0x23 4)) with (0x80, 0x9F);
  change (acceptRanges (Z.shiftr 0x34 4)) with (0x90, 0xBF);
  change (acceptRanges (Z.shiftr 0x04 4)) with (0x80, 0xBF);
  change (acceptRanges (Z.shiftr 0x44 4)) with (0x80, 0x8F);
  cbn [fst snd].

Lemma DecodeRune_seq2 c0 c1 t :
  seq2 (byteVal c0) (byteVal c1) →
  DecodeRune (c0 :: c1 :: t) = (rune2 (byteVal c0) (byteVal c1), 2%nat).
Proof.
  intros ([? ?] & [? ?]).
  destruct (first_cases (byteVal c0)) as [[_ ?]|[[Hf _]|Hc]]; [lia..| |lia].
  unfold DecodeRune. rewrite Hf. cbn -[Z.of_nat length byteVal Z.lor Z.shiftl Z.land].
  simpl length. eval_size. split_cmp. simpl. split_cmp. done.
Qed.

Lemma DecodeRune_seq3 c0 c1 c2 t :
  seq3 (byteVal c0) (byteVal c1) (byteVal c2) →
  DecodeRune (c0 :: c1 :: c2 :: t)
  = (rune3 (byteVal c0) (byteVal c1) (byteVal c2), 3%nat).
Proof.
  intros ([? ?] & [? ?] & HE0 & HED & [? ?]).
  destruct (first_cases (byteVal c0))
    as [[_ ?]|[[_ ?]|[[Hf Hv]|[[Hf Hv]|[[Hf Hv]|Hc]]]]]; [lia..| | | |lia];
    unfold DecodeRune; rewrite Hf;
    cbn -[Z.of_nat length byteVal Z.lor Z.shiftl Z.land];
    simpl length; try specialize (HE0 Hv); try specialize (HED Hv);
    eval_size; split_cmp; simpl; split_cmp; done.
Qed.

Lemma DecodeRune_seq4 c0 c1 c2 c3 t :
  seq4 (byteVal c0) (byteVal c1) (byteVal c2) (byteVal c3) →
  DecodeRune (c0 :: c1 :: c2 :: c3 :: t)
  = (rune4 (byteVal c0) (byteVal c1) (byteVal c2) (byteVal c3), 4%nat).
Proof.
  intros ([? ?] & [? ?] & HF0 & HF4 & [? ?] & [? ?]).
  destruct (first_cases (byteVal c0))
    as [[_ ?]|[[_ ?]|[[_ ?]|[[_ ?]|[[_ ?]|[[Hf Hv]|[[Hf Hv]|[Hf Hv]]]]]]]];
    [lia..| | |];
    unfold DecodeRune; rewrite Hf;
    cbn -[Z.of_nat length byteVal Z.lor Z.shiftl Z.land];
    simpl length; try specialize (HF0 Hv); try specialize (HF4 Hv);
    eval_size; split_cmp; simpl; split_cmp; done.
Qed.

(** A leading byte outside ASCII decodes either to [(RuneError, 1)] or to
    one of the three well-formed shapes. *)
Lemma DecodeRune_inv c0 t r size :
  0x80 <= byteVal c0 →
  DecodeRune (c0 :: t) = (r, size) →
  ¬ (r = RuneError ∧ size = 1%nat) →
  (∃ c1 t1, t = c1 :: t1 ∧ seq2 (byteVal c0) (byteVal c1) ∧
     r = rune2 (byteVal c0) (byteVal c1) ∧ size = 2%nat) ∨
  (∃ c1 c2 t2, t = c1 :: c2 :: t2 ∧
     seq3 (byteVal c0) (byteVal c1) (byteVal c2) ∧
     r = rune3 (byteVal c0) (byteVal c1) (byteVal c2) ∧ size = 3%nat) ∨
  (∃ c1 c2 c3 t3, t = c1 :: c2 :: c3 :: t3 ∧
     seq4 (byteVal c0) (byteVal c1) (byteVal c2) (byteVal c3) ∧
     r = rune4 (byteVal c0) (byteVal c1) (byteVal c2) (byteVal c3) ∧ size = 4%nat).
Proof.
  intros Hhi Hdec Hok.
  assert (∀ P : Prop, (RuneError, 1%nat) = (r, size) → P) as Hbad.
  { intros P [= <- <-]. by destruct Hok. }
  unfold DecodeRune in Hdec.
  destruct (first_cases (byteVal c0) Hhi)
    as [[Hf Hv]|[[Hf Hv]|[[Hf Hv]|[[Hf Hv]|[[Hf Hv]|[[Hf Hv]|[[Hf Hv]|[Hf Hv]]]]]]]];
    rewrite Hf in Hdec;
    cbn -[Z.of_nat length byteVal Z.lor Z.shiftl Z.shiftr Z.land Z.ltb Z.leb orb
          acceptRanges] in Hdec;
    revert Hdec; eval_size;
    repeat match goal with
    | |- (if Z.ltb ?a ?b then _ else _) = _ → _ =>
        destruct (Z.ltb_spec a b); [by apply Hbad|]
    | |- (if Z.ltb ?a ?b || Z.ltb ?c ?d then _ else _) = _ → _ =>
        destruct (Z.ltb_spec a b); [by apply Hbad|];
        destruct (Z.ltb_spec c d); [by apply Hbad|];
        change (false || false) with false; cbv iota
    | |- (if Z.leb ?a ?b then _ else _) = _ → _ =>
        destruct (Z.leb_spec a b); try lia
    | |- match ?l with [] => _ | _ :: _ => _ end = _ → _ =>
        destruct l; [by apply Hbad|]
    | |- (RuneError, 1%nat) = _ → _ => by apply Hbad
    end.
  all: try (intros [= <- <-]).
  - left. eexists _, _. split; [done|]. unfold seq2, cont. split_and!; (done || lia).
  - right. left. eexists _, _, _. split; [done|].
    unfold seq3, cont. split_and!; (done || lia).
  - right. left. eexists _, _, _. split; [done|].
    unfold seq3, cont. split_and!; (done || lia).
  - right. left. eexists _, _, _. split; [done|].
    unfold seq3, cont. split_and!; (done || lia).
  - right. right. eexists _, _, _, _. split; [done|].
    unfold seq4, cont. split_and!; (done || lia).
  - right. right. eexists _, _, _, _. split; [done|].
    unfold seq4, cont. split_and!; (done || lia).
  - right. right. eexists _, _, _, _. split; [done|].
    unfold seq4, cont. split_and!; (done || lia).
Qed.

(** ** Reading back what the string encoder wrote *)

Lemma prepend_Some pre v rest :
  prepend pre (Some (v, rest)) = Some (pre ++ v, rest).
Proof. reflexivity. Qed.

Lemma hexVal_hex k : 0 <= k < 16 → hexVal (hex k) = Some k.
Proof.
  intros Hk.
  assert (k = 0 ∨ k = 1 ∨ k = 2 ∨ k = 3 ∨ k = 4 ∨ k = 5 ∨ k = 6 ∨ k = 7 ∨
          k = 8 ∨ k = 9 ∨ k = 10 ∨ k = 11 ∨ k = 12 ∨ k = 13 ∨ k = 14 ∨ k = 15)
    as Hcases by lia.
  repeat (destruct Hcases as [->|Hcases]; [reflexivity|]). by subst.
Qed.

(** A safe ASCII byte is written as itself and read as itself. *)
Lemma unquoteBody_safe f c X :
  htmlSafeSet (byteVal c) = true →
  unquoteBody (S f) (c :: X) = prepend [c] (unquoteBody f X).
Proof.
  unfold htmlSafeSet. intros Hs.
  apply andb_true_iff in Hs as [[H1%Z.leb_le H2%Z.ltb_lt]%andb_true_iff Hn].
  apply negb_true_iff in Hn.
  repeat (apply orb_false_iff in Hn as [Hn ?%Z.eqb_neq]). apply Z.eqb_neq in Hn.
  cbn [unquoteBody]. cbv zeta. split_cmp. done.
Qed.

(** [getu4] on an escape of four hexadecimal digits. *)
Lemma getu4_digits d1 d2 d3 d4 X :
  0 <= d1 < 16 → 0 <= d2 < 16 → 0 <= d3 < 16 → 0 <= d4 < 16 →
  getu4 (backslash :: "u"%char :: hex d1 :: hex d2 :: hex d3 :: hex d4 :: X)
  = ((d1 * 16 + d2) * 16 + d3) * 16 + d4.
Proof.
  intros. unfold getu4.
  change (byteVal backslash =? 92) with true. change (byteVal "u" =? 117) with true.
  cbn [andb]. by rewrite !hexVal_hex.
Qed.

(** One escape of the form [\uXXXX] for a rune below the surrogates is read
    as the UTF-8 encoding of that rune. *)
Lemma unquoteBody_u4 f d1 d2 d3 d4 X :
  0 <= d1 < 16 → 0 <= d2 < 16 → 0 <= d3 < 16 → 0 <= d4 < 16 →
  let r := ((d1 * 16 + d2) * 16 + d3) * 16 + d4 in
  r < 0xD800 →
  unquoteBody (S f) (backslash :: "u"%char :: hex d1 :: hex d2 :: hex d3 :: hex d4 :: X)
  = prepend (EncodeRune r) (unquoteBody f X).
Proof.
  intros ? ? ? ? r Hr. cbn [unquoteBody]. cbv zeta.
  change (byteVal backslash) with 92. change (byteVal "u") with 117.
  cbn [Z.eqb Pos.eqb orb]. rewrite getu4_digits by done. fold r.
  unfold IsSurrogate. split_cmp. done.
Qed.

(** An ASCII byte outside the safe set is written as an escape, and the
    escape is read as that byte. *)
Lemma unquoteBody_escape f c X :
  byteVal c < 0x80 →
  unquoteBody (S f) (escapeByte (byteVal c) ++ X) = prepend [c] (unquoteBody f X).
Proof.
  intros Hlt. pose proof (byteVal_range c) as Hr.
  unfold escapeByte.
  destruct (Z.eqb_spec (byteVal c) 92) as [E|N92].
  { rewrite <- (byteOf_byteVal c), E. reflexivity. }
  destruct (Z.eqb_spec (byteVal c) 34) as [E|N34].
  { rewrite <- (byteOf_byteVal c), E. reflexivity. }
  cbn [orb].
  destruct (Z.eqb_spec (byteVal c) 10) as [E|N10].
  { rewrite <- (byteOf_byteVal c), E. reflexivity. }
  destruct (Z.eqb_spec (byteVal c) 13) as [E|N13].
  { rewrite <- (byteOf_byteVal c), E. reflexivity. }
  destruct (Z.eqb_spec (byteVal c) 9) as [E|N9].
  { rewrite <- (byteOf_byteVal c), E. reflexivity. }
  set (b := byteVal c) in *.
  assert (b / 16 < 8 ∧ 0 <= b / 16 ∧ 0 <= b mod 16 < 16 ∧
          ((0 * 16 + 0) * 16 + b / 16) * 16 + b mod 16 = b) as (? & ? & ? & Hb)
    by (Z.div_mod_to_equations; lia).
  rewrite Z.shiftr_div_pow2, land_0F by lia. change (2 ^ 4) with 16.
  change (backslash :: bytes "u00" ++ [hex (b / 16); hex (b mod 16)])
    with (backslash :: "u"%char :: hex 0 :: hex 0 :: [hex (b / 16); hex (b mod 16)]).
  cbn [app]. rewrite unquoteBody_u4 by lia. rewrite Hb.
  unfold EncodeRune. split_cmp. cbn [andb]. subst b. by rewrite byteOf_byteVal.
Qed.

(** The two separators U+2028 and U+2029 are written as escapes, which are
    read as their UTF-8 encodings. *)
Lemma unquoteBody_separator f r X :
  r = 0x2028 ∨ r = 0x2029 →
  unquoteBody (S f) (backslash :: bytes "u202" ++ hex (Z.land r 0xF) :: X)
  = prepend (EncodeRune r) (unquoteBody f X).
Proof.
  intros [-> | ->].
  - change (backslash :: bytes "u202" ++ hex (Z.land 0x2028 0xF) :: X)
      with (backslash :: "u"%char :: hex 2 :: hex 0 :: hex 2 :: hex 8 :: X).
    by rewrite unquoteBody_u4 by lia.
  - change (backslash :: bytes "u202" ++ hex (Z.land 0x2029 0xF) :: X)
      with (backslash :: "u"%char :: hex 2 :: hex 0 :: hex 2 :: hex 9 :: X).
    by rewrite unquoteBody_u4 by lia.
Qed.

(** A byte that is not ASCII sends the reader to [DecodeRune]. *)
Lemma unquoteBody_high f c X :
  0x80 <= byteVal c →
  unquoteBody (S f) (c :: X) =
    prepend (EncodeRune (DecodeRune (c :: X)).1)
            (unquoteBody f (skipn (DecodeRune (c :: X)).2 (c :: X))).
Proof.
  intros Hc. cbn [unquoteBody]. cbv zeta. split_cmp.
  by destruct (DecodeRune (c :: X)).
Qed.

Lemma rune2_range s0 s1 : seq2 s0 s1 → 128 <= rune2 s0 s1 <= 2047.
Proof.
  intros ([? ?] & [? ?]). unfold rune2. rewrite rune2_arith.
  Z.div_mod_to_equations. lia.
Qed.

Lemma rune4_range s0 s1 s2 s3 : seq4 s0 s1 s2 s3 → 65536 <= rune4 s0 s1 s2 s3.
Proof.
  intros Hseq. unfold rune4. rewrite rune4_arith.
  by destruct (rune4_bounds _ _ _ _ Hseq) as (_ & _ & _ & _ & [? _]).
Qed.

Lemma escapeByte_length b : (2 <= length (escapeByte b))%nat.
Proof. unfold escapeByte. repeat case_match; simpl; lia. Qed.

(** The string encoder followed by the string reader is the identity on
    valid UTF-8. *)
Lemma unquoteBody_encodeBody n : ∀ s,
  (length s <= n)%nat → validFrom n s = true →
  ∀ fuel rest,
    (length (encodeBody n s) < fuel)%nat →
    unquoteBody fuel (encodeBody n s ++ dquote :: rest) = Some (s, rest).
Proof.
  induction n as [|n IH]; intros s Hlen Hval fuel rest Hfuel.
  { destruct s; [|simpl in Hlen; lia]. destruct fuel; [simpl in Hfuel; lia|]. done. }
  destruct s as [|c s'].
  { destruct fuel; [simpl in Hfuel; lia|]. done. }
  simpl in Hlen. cbn [validFrom encodeBody] in *. cbv zeta in *.
  destruct (Z.ltb_spec (byteVal c) 0x80) as [Hascii|Hhigh].
  - destruct (htmlSafeSet (byteVal c)) eqn:Hsafe.
    + destruct fuel as [|f]; [simpl in Hfuel; lia|]. cbn [app].
      rewrite unquoteBody_safe by done.
      rewrite IH by (done || simpl in Hfuel; lia). done.
    + rewrite length_app in Hfuel. pose proof (escapeByte_length (byteVal c)).
      destruct fuel as [|f]; [lia|]. rewrite <- app_assoc.
      rewrite unquoteBody_escape by done.
      rewrite IH by (done || lia). done.
  - destruct (DecodeRune (c :: s')) as [r size] eqn:Hdec.
    destruct ((r =? RuneError) && (size =? 1)%nat) eqn:Herr; [done|].
    assert (¬ (r = RuneError ∧ size = 1%nat)) as Hok.
    { intros [-> ->]. done. }
    destruct (DecodeRune_inv c s' r size Hhigh Hdec Hok)
      as [(c1 & t & -> & Hseq & -> & ->)
         |[(c1 & c2 & t & -> & Hseq & -> & ->)
          |(c1 & c2 & c3 & t & -> & Hseq & -> & ->)]];
      cbn [skipn firstn] in *; rewrite ?drop_0, ?firstn_O in *; simpl in Hlen.
    + pose proof (rune2_range _ _ Hseq).
      revert Hfuel. split_cmp. cbn [orb app length]. intros Hfuel.
      destruct fuel as [|f]; [lia|].
      rewrite unquoteBody_high, DecodeRune_seq2 by done. cbn [fst snd skipn]. rewrite ?drop_0.
      rewrite EncodeRune_rune2 by done.
      rewrite IH by (done || lia). done.
    + destruct ((rune3 (byteVal c) (byteVal c1) (byteVal c2) =? 0x2028)
                || (rune3 (byteVal c) (byteVal c1) (byteVal c2) =? 0x2029)) eqn:Hsep.
      * apply orb_true_iff in Hsep.
        cbn [length app] in Hfuel. destruct fuel as [|f]; [lia|].
        change ((backslash :: bytes "u202" ++ ?h :: ?e) ++ ?X)
          with (backslash :: bytes "u202" ++ h :: (e ++ X)).
        rewrite unquoteBody_separator by (destruct Hsep as [?%Z.eqb_eq|?%Z.eqb_eq]; auto).
        rewrite EncodeRune_rune3 by done.
        rewrite length_app in Hfuel. simpl in Hfuel.
        rewrite IH by (done || lia). done.
      * cbn [app length] in *. destruct fuel as [|f]; [lia|].
        rewrite unquoteBody_high, DecodeRune_seq3 by done. cbn [fst snd skipn]. rewrite ?drop_0.
        rewrite EncodeRune_rune3 by done.
        rewrite IH by (done || lia). done.
    + pose proof (rune4_range _ _ _ _ Hseq).
      revert Hfuel. split_cmp. cbn [orb app length]. intros Hfuel.
      destruct fuel as [|f]; [lia|].
      rewrite unquoteBody_high, DecodeRune_seq4 by done. cbn [fst snd skipn]. rewrite ?drop_0.
      rewrite EncodeRune_rune4 by done.
      rewrite IH by (done || lia). done.
Qed.

Lemma readString_encodeString s rest :
  validFrom (length s) s = true →
  readString (encodeString s ++ rest) = Some (s, rest).
Proof.
  intros Hval. unfold encodeString, readString. cbn [app].
  change (byteVal dquote =? 34) with true. cbv iota.
  rewrite <- app_assoc. cbn [app].
  apply unquoteBody_encodeBody; [done | done |].
  rewrite length_app. simpl. lia.
Qed.

(** ** Reading back what the integer formatter wrote *)

Lemma digit_byte d : 0 <= d <= 9 → byteVal (byteOf (48 + d)) = 48 + d.
Proof. intros. apply byteVal_byteOf. lia. Qed.

Lemma digitVal_digit d : 0 <= d <= 9 → digitVal (byteOf (48 + d)) = Some d.
Proof.
  intros Hd. unfold digitVal. fold (byteVal (byteOf (48 + d))).
  rewrite digit_byte by done. split_cmp. cbn [andb]. f_equal. lia.
Qed.

Lemma formatBits_app fuel : ∀ u acc,
  formatBits fuel u acc = formatBits fuel u [] ++ acc.
Proof.
  induction fuel as [|f IH]; intros u acc; [done|]. simpl.
  destruct (u <? 10); [done|].
  rewrite IH, (IH _ [_]), <- app_assoc. done.
Qed.

Lemma formatBits_digits fuel : ∀ u,
  0 <= u → Forall isDigit (formatBits fuel u []).
Proof.
  induction fuel as [|f IH]; intros u Hu; [constructor|]. simpl.
  destruct (Z.ltb_spec u 10).
  - constructor; [|constructor]. unfold isDigit. rewrite digit_byte; lia.
  - rewrite formatBits_app. apply Forall_app. split.
    + apply IH. Z.div_mod_to_equations. lia.
    + constructor; [|constructor]. unfold isDigit.
      rewrite digit_byte; Z.div_mod_to_equations; lia.
Qed.

Lemma formatBits_parse fuel : ∀ u acc,
  0 <= u < 10 ^ Z.of_nat fuel →
  parseDigits 0 (string_of_list_ascii (formatBits fuel u acc))
  = parseDigits u (string_of_list_ascii acc).
Proof.
  induction fuel as [|f IH]; intros u acc Hu.
  { simpl in *. by replace u with 0 by lia. }
  rewrite Nat2Z.inj_succ, Z.pow_succ_r in Hu by lia. simpl.
  destruct (Z.ltb_spec u 10).
  - simpl. rewrite digitVal_digit by lia. done.
  - rewrite IH by (Z.div_mod_to_equations; lia). simpl.
    rewrite digitVal_digit by (Z.div_mod_to_equations; lia).
    f_equal. Z.div_mod_to_equations. lia.
Qed.

Lemma formatBits_head fuel : ∀ u,
  0 < u < 10 ^ Z.of_nat fuel →
  ∃ d tl, formatBits fuel u [] = d :: tl ∧ 49 <= byteVal d <= 57.
Proof.
  induction fuel as [|f IH]; intros u Hu.
  { simpl in Hu. lia. }
  rewrite Nat2Z.inj_succ, Z.pow_succ_r in Hu by lia. simpl.
  destruct (Z.ltb_spec u 10).
  - eexists _, _. split; [done|]. rewrite digit_byte; lia.
  - rewrite formatBits_app.
    destruct (IH (u / 10)) as (d & tl & -> & Hd); [Z.div_mod_to_equations; lia|].
    eexists _, _. split; [done|]. done.
Qed.

Lemma spanDigits_app ds rest :
  Forall isDigit ds →
  (∀ c X, rest = c :: X → ¬ isDigit c) →
  spanDigits (ds ++ rest) = (ds, rest).
Proof.
  intros Hds Hrest. induction Hds as [|d ds Hd _ IH]; simpl.
  - destruct rest as [|c X]; [done|]. simpl.
    specialize (Hrest c X eq_refl). unfold isDigit in Hrest.
    destruct (Z.leb_spec 48 (byteVal c)), (Z.leb_spec (byteVal c) 57); simpl;
      (done || lia).
  - unfold isDigit in Hd. rewrite IH.
    destruct (Z.leb_spec 48 (byteVal d)), (Z.leb_spec (byteVal d) 57); simpl;
      (done || lia).
Qed.

(** A formatted [int64] followed by a closing brace is read back as the
    same number. *)
Lemma readInt_FormatInt i X :
  int64 i →
  readInt (FormatInt i ++ "}"%char :: X) = Some (i, "}"%char :: X).
Proof.
  unfold int64, minInt64, maxInt64. intros Hi.
  assert (∀ c Y, "}"%char :: X = c :: Y → ¬ isDigit c) as Hbrace.
  { intros c Y [= <- _]. unfold isDigit. vm_compute. intros [_ H]. by apply H. }
  assert (2 ^ 63 < 10 ^ Z.of_nat 20) as Hpow by (vm_compute; reflexivity).
  unfold FormatInt, readInt. destruct (Z.ltb_spec i 0) as [Hneg|Hpos].
  - cbn [app]. change (byteVal "-" =? 45) with true. cbv iota.
    rewrite spanDigits_app; [|apply formatBits_digits; lia|exact Hbrace].
    destruct (formatBits_head 20 (- i)) as (d & tl & Hfmt & Hd); [lia|].
    pose proof (formatBits_parse 20 (- i) [] ltac:(lia)) as Hparse.
    rewrite Hfmt in *. split_cmp. cbn [andb app].
    unfold ParseInt. cbn [string_of_list_ascii].
    change (Ascii.eqb "-" "-") with true. change (Ascii.eqb "-" "+") with false.
    cbn [orb]. unfold ParseUint. cbn [string_of_list_ascii] in *.
    rewrite Hparse. cbn [parseDigits]. split_cmp. f_equal. f_equal. lia.
  - destruct (Z.eq_dec i 0) as [->|Hnz]; [reflexivity|].
    destruct (formatBits_head 20 i) as (d & tl & Hfmt & Hd); [lia|].
    pose proof (formatBits_parse 20 i [] ltac:(lia)) as Hparse.
    pose proof (formatBits_digits 20 i ltac:(lia)) as Hdig.
    rewrite Hfmt in *. cbn [app]. split_cmp. cbv iota.
    change (d :: tl ++ "}"%char :: X) with ((d :: tl) ++ "}"%char :: X).
    rewrite spanDigits_app; [|exact Hdig|exact Hbrace]. split_cmp. cbn [andb app].
    unfold ParseInt. cbn [string_of_list_ascii] in *.
    assert (Ascii.eqb d "-" = false) as ->.
    { apply Ascii.eqb_neq. intros ->. vm_compute in Hd. by destruct Hd as [H _]. }
    assert (Ascii.eqb d "+" = false) as ->.
    { apply Ascii.eqb_neq. intros ->. vm_compute in Hd. by destruct Hd as [H _]. }
    cbn [orb]. unfold ParseUint. rewrite Hparse. cbn [parseDigits].
    split_cmp. done.
Qed.

(** ** The round trip of an [Entry] *)

Lemma bytes_length s : length (bytes s) = String.length s.
Proof. induction s as [|c s IH]; simpl; [done | by rewrite IH]. Qed.

Lemma expect_head c X : expect c (c :: X) = Some X.
Proof. unfold expect. by rewrite Ascii.eqb_refl. Qed.

(** C9, as the code has it.  An [Entry] whose value is valid UTF-8 and
    whose timestamp is an [int64] is decoded from its JSON encoding with the
    same value and the same timestamp. *)
Theorem json_round_trip (en : Entry) :
  ValidString (Value en) = true → int64 (Timestamp en) →
  Decode (Marshal en) = Some en.
Proof.
  intros Hval Hts. unfold ValidString in Hval. rewrite <- bytes_length in Hval.
  unfold Marshal, Decode. cbn [bytes list_ascii_of_string app].
  rewrite expect_head. cbn [mbind option_bind].
  change (encodeString ("v"%char :: "a"%char :: "l"%char :: "u"%char :: ["e"%char]))
    with (encodeString (bytes "value")).
  rewrite readString_encodeString by reflexivity. cbn [mbind option_bind].
  destruct (decide (bytes "value" = bytes "value")); [|done].
  cbn [app]. rewrite expect_head. cbn [mbind option_bind].
  rewrite readString_encodeString by done. cbn [mbind option_bind app].
  rewrite expect_head. cbn [mbind option_bind].
  change (encodeString _) with (encodeString (bytes "timestamp")).
  rewrite readString_encodeString by reflexivity. cbn [mbind option_bind].
  destruct (decide (bytes "timestamp" = bytes "timestamp")); [|done].
  cbn [app]. rewrite expect_head. cbn [mbind option_bind].
  rewrite readInt_FormatInt by done. cbn [mbind option_bind].
  rewrite expect_head. cbn [mbind option_bind].
  unfold bytes. rewrite string_of_list_ascii_of_string. by destruct en.
Qed.

Lemma json_round_trip_witness :
  let en := mkEntry (string_of_list_ascii (map ascii_of_nat
              [99; 97; 102; 195; 169; 60; 10; 226; 128; 168]%nat))
              (-1700000000000000100) in
  ValidString (Value en) = true ∧ int64 (Timestamp en) ∧
  Decode (Marshal en) = Some en.
Proof.
  intros en.
  assert (ValidString (Value en) = true) as Hv by (vm_compute; reflexivity).
  assert (int64 (Timestamp en)) as Ht.
  { unfold int64, minInt64, maxInt64. simpl. lia. }
  split; [exact Hv|]. split; [exact Ht|].
  exact (json_round_trip en Hv Ht).
Defined.

(** C9 as stated fails: the byte [0xE9] alone (the Latin-1 letter e-acute,
    which a client sends as [value=caf%E9]) is not valid UTF-8; the encoder
    writes it as the escape of U+FFFD and the decoder returns the three
    bytes of U+FFFD in its place. *)
Lemma json_round_trip_counterexample :
  let en := mkEntry (string_of_list_ascii (map ascii_of_nat [99; 97; 102; 233]%nat))
              1700000000000000100 in
  int64 (Timestamp en) ∧
  ValidString (Value en) = false ∧
  string_of_list_ascii (Marshal en) =
    string_of_list_ascii
      (bytes "{" ++ dquote :: bytes "value" ++ dquote :: bytes ":" ++
       dquote :: bytes "caf" ++ backslash :: bytes "ufffd" ++ dquote :: bytes "," ++
       dquote :: bytes "timestamp" ++ dquote :: bytes ":1700000000000000100}") ∧
  Decode (Marshal en) =
    Some (mkEntry (string_of_list_ascii (map ascii_of_nat
            [99; 97; 102; 239; 191; 189]%nat)) 1700000000000000100) ∧
  Decode (Marshal en) ≠ Some en.
Proof.
  intros en. split_and!.
  - unfold int64, minInt64, maxInt64. simpl. lia.
  - vm_compute. reflexivity.
  - vm_compute. reflexivity.
  - vm_compute. reflexivity.
  - vm_compute. discriminate.
Qed.

(** * Further properties *)

(** ** Splitting and joining the peer list *)

Lemma Split_cons s sep : ∃ x xs, Split s sep = x :: xs.
Proof.
  induction s as [|c s (x & xs & IH)]; simpl; [eauto|].
  destruct (Ascii.eqb c sep); [eauto|]. rewrite IH. eauto.
Qed.

Lemma Split_length s sep : length (Split s sep) = S (Count s sep).
Proof.
  induction s as [|c s IH]; simpl; [done|].
  destruct (Ascii.eqb c sep); simpl; [by rewrite IH|].
  destruct (Split_cons s sep) as (x & xs & Hx). rewrite Hx in *. done.
Qed.

Lemma Split_pieces s sep x : x ∈ Split s sep → contains x sep = false.
Proof.
  revert x. induction s as [|c s IH]; simpl; intros x Hx.
  - by apply list_elem_of_singleton in Hx as ->.
  - destruct (Ascii.eqb c sep) eqn:Hc.
    + apply elem_of_cons in Hx as [->|Hx]; [done | by apply IH].
    + destruct (Split_cons s sep) as (y & ys & Hy). rewrite Hy in *.
      apply elem_of_cons in Hx as [->|Hx].
      * simpl. rewrite Hc. apply IH. left.
      * apply IH. by right.
Qed.

Lemma Join_Split s sep : Join (Split s sep) (String sep "") = s.
Proof.
  induction s as [|c s IH]; simpl; [done|].
  destruct (Split_cons s sep) as (y & ys & Hy). rewrite Hy in *.
  destruct (Ascii.eqb_spec c sep) as [->|Hne].
  - change (Join ("" :: y :: ys) (String sep ""))
      with (String sep (Join (y :: ys) (String sep ""))).
    by rewrite IH.
  - destruct ys; simpl in *; by rewrite <- IH.
Qed.

Lemma Split_piece_sep x rest sep :
  contains x sep = false →
  Split (String.append x (String sep rest)) sep = x :: Split rest sep.
Proof.
  induction x as [|c x IH]; simpl; intros Hx.
  - by rewrite Ascii.eqb_refl.
  - apply orb_false_iff in Hx as [Hc Hx]. rewrite Hc, IH by done. done.
Qed.

Lemma Split_piece x sep : contains x sep = false → Split x sep = [x].
Proof.
  induction x as [|c x IH]; simpl; intros Hx; [done|].
  apply orb_false_iff in Hx as [Hc Hx]. rewrite Hc, IH by done. done.
Qed.

Lemma Split_Join ps sep :
  ps ≠ [] → (∀ x, x ∈ ps → contains x sep = false) →
  Split (Join ps (String sep "")) sep = ps.
Proof.
  induction ps as [|x ps IH]; intros Hne Hall; [done|].
  assert (contains x sep = false) as Hx by (apply Hall; left).
  destruct ps as [|y ps].
  - simpl. by apply Split_piece.
  - change (Join (x :: y :: ps) (String sep ""))
      with (String.append x (String sep (Join (y :: ps) (String sep "")))).
    rewrite Split_piece_sep by done. f_equal. apply IH; [done|].
    intros z Hz. apply Hall. by right.
Qed.

Lemma Join_empty ps sep : Join ps (String sep "") = "" → ps = [] ∨ ps = [""].
Proof.
  destruct ps as [|x [|y ps]]; simpl; [auto | intros ->; auto |].
  destruct x; simpl; discriminate.
Qed.

(** X1.  What [main] makes of the [-PEERS] flag: no peers exactly when the
    flag is empty; otherwise one peer more than the flag has commas, none
    of them containing a comma, and joining them with commas gives the flag
    back.  In particular a flag that is a lone comma gives two peers with
    empty addresses. *)
Theorem main_peers_shape (f : Flags) :
  let nd := mainInit f in
  (peers nd = [] ↔ PEERS f = "") ∧
  (PEERS f ≠ "" →
     length (peers nd) = S (Count (PEERS f) ","%char) ∧
     Join (peers nd) "," = PEERS f) ∧
  (∀ p, p ∈ peers nd → contains p ","%char = false) ∧
  data nd = ∅ ∧ isLeader nd = LEADER f ∧
  N nd = flagN f ∧ R nd = flagR f ∧ W nd = flagW f.
Proof.
  intros nd. subst nd. unfold mainInit, startNode. simpl.
  destruct (decide (PEERS f = "")) as [He|Hne].
  - split_and!; try done. intros p Hp. by apply elem_of_nil in Hp.
  - split_and!; try done.
    + split; [|done]. intros Hnil.
      destruct (Split_cons (PEERS f) ",") as (x & xs & Hx). congruence.
    + intros _. split; [apply Split_length | apply Join_Split].
    + intros p. apply Split_pieces.
Qed.

Lemma main_peers_shape_witness :
  let f := mkFlags 8000 "," false 3 1 3 in
  PEERS f ≠ "" ∧ peers (mainInit f) = [""; ""] ∧
  length (peers (mainInit f)) = 2%nat ∧ Join (peers (mainInit f)) "," = ",".
Proof.
  intros f.
  assert (PEERS f ≠ "") as Hne by (simpl; discriminate).
  destruct (main_peers_shape f) as (_ & Hs & _).
  destruct (Hs Hne) as [Hl Hj].
  split; [exact Hne|]. split; [reflexivity|]. split; [exact Hl | exact Hj].
Defined.

(** X2.  The test harness and [main] agree on the peer list: a node started
    by the harness with a list of addresses, none containing a comma, has
    exactly that list as its peers, unless the list is the single empty
    address, which [main] takes for no peers at all. *)
Theorem harness_peers_round_trip (port : Z) (ps : list string) (leader : bool) (n r w : Z) :
  (∀ p, p ∈ ps → contains p ","%char = false) →
  ps ≠ [""] →
  mainInit (testFlags port ps leader n r w) = startNode ps leader n r w.
Proof.
  intros Hall Hne. unfold mainInit, testFlags. simpl.
  destruct (decide (Join ps "," = "")) as [He|Hn].
  - by destruct (Join_empty ps "," He) as [->| ->].
  - rewrite Split_Join; [done | | done]. by intros ->.
Qed.

Lemma harness_peers_round_trip_witness :
  let ps := ["localhost:9002"; "localhost:9003"] in
  (∀ p, p ∈ ps → contains p ","%char = false) ∧ ps ≠ [""] ∧
  mainInit (testFlags 9001 ps true 3 1 3) = startNode ps true 3 1 3.
Proof.
  intros ps.
  assert (∀ p, p ∈ ps → contains p ","%char = false) as Hall.
  { intros p Hp.
    apply elem_of_cons in Hp as [->|Hp]; [reflexivity|].
    apply elem_of_cons in Hp as [->|Hp]; [reflexivity|].
    by apply elem_of_nil in Hp. }
  assert (ps ≠ [""]) as Hne by discriminate.
  split; [exact Hall|]. split; [exact Hne|].
  exact (harness_peers_round_trip 9001 ps true 3 1 3 Hall Hne).
Defined.

(** The exception of X2: the harness list [[""]] reaches [main] as the
    empty flag. *)
Example harness_single_empty_peer :
  peers (mainInit (testFlags 9001 [""] false 1 1 1)) = [].
Proof. reflexivity. Qed.

(** ** The algebra of replication *)

(** What a key holds after a replication apply. *)
Lemma applyIfNewer_lookup (d : gmap string Entry) key c k :
  (applyIfNewer d key c).1 !! k =
    if decide (key = k) then
      Some (match d !! key with
            | Some e0 => if Timestamp e0 <? Timestamp c then c else e0
            | None => c
            end)
    else d !! k.
Proof.
  unfold applyIfNewer. destruct (decide (key = k)) as [<-|Hne].
  - destruct (d !! key) as [e0|] eqn:Hk; simpl.
    + destruct (Timestamp e0 <? Timestamp c); simpl; [by rewrite lookup_insert_eq|done].
    + by rewrite lookup_insert_eq.
  - destruct (d !! key) as [e0|]; simpl.
    + destruct (Timestamp e0 <? Timestamp c); simpl; [by rewrite lookup_insert_ne|done].
    + by rewrite lookup_insert_ne.
Qed.

Lemma applyIfNewer_idem (d : gmap string Entry) key c :
  (applyIfNewer (applyIfNewer d key c).1 key c).1 = (applyIfNewer d key c).1.
Proof.
  apply map_eq. intros k. rewrite !applyIfNewer_lookup.
  destruct (decide (key = k)) as [<-|Hne]; [|done].
  destruct (decide (key = key)) as [_|]; [|done]. f_equal.
  destruct (d !! key) as [e0|].
  - destruct (Z.ltb_spec (Timestamp e0) (Timestamp c)) as [Hlt|Hge].
    + by rewrite Z.ltb_irrefl.
    + by rewrite (proj2 (Z.ltb_ge _ _) Hge).
  - by rewrite Z.ltb_irrefl.
Qed.

Lemma set_data_set_data nd d1 d2 : set_data (set_data nd d1) d2 = set_data nd d2.
Proof. by destruct nd. Qed.

Lemma set_data_id nd : set_data nd (data nd) = nd.
Proof. by destruct nd. Qed.

(** X3.  A replicate request is idempotent: serving the same request a
    second time leaves the process as the first time left it and gets the
    same answer, so a duplicated or repeated call does no harm. *)
Theorem replicateHandler_idempotent (nd : Node) (q : gmap string (list string)) :
  replicateHandler (replicateHandler nd q).1 q = replicateHandler nd q.
Proof.
  unfold replicateHandler.
  destruct (ParseInt (Get q "timestamp")) as [ts|]; [|done].
  destruct (decide (Get q "key" = "")); [done|]. simpl.
  by rewrite set_data_set_data, applyIfNewer_idem.
Qed.

(** X4.  A replicate request never removes a key, never lowers the timestamp
    stored under a key, never replaces an entry by one of the same
    timestamp, and leaves the peer list, the role and the quorum
    parameters alone. *)
Theorem replicateHandler_monotone (nd : Node) (q : gmap string (list string))
    (k : string) (e0 : Entry) :
  data nd !! k = Some e0 →
  let nd' := (replicateHandler nd q).1 in
  (∃ e1, data nd' !! k = Some e1 ∧ Timestamp e0 <= Timestamp e1 ∧
         (Timestamp e1 = Timestamp e0 → e1 = e0)) ∧
  peers nd' = peers nd ∧ isLeader nd' = isLeader nd ∧
  N nd' = N nd ∧ R nd' = R nd ∧ W nd' = W nd.
Proof.
  intros Hk nd'. subst nd'. unfold replicateHandler.
  assert (∃ e1, data nd !! k = Some e1 ∧ Timestamp e0 <= Timestamp e1 ∧
                (Timestamp e1 = Timestamp e0 → e1 = e0)) as Hsame.
  { exists e0. split_and!; (done || lia). }
  destruct (ParseInt (Get q "timestamp")) as [ts|]; [|done].
  destruct (decide (Get q "key" = "")); [done|]. simpl.
  split; [|done]. rewrite applyIfNewer_lookup.
  destruct (decide (Get q "key" = k)) as [->|Hne]; [|done].
  rewrite Hk. simpl.
  destruct (Z.ltb_spec (Timestamp e0) ts).
  - eexists. split; [done|]. simpl. split; lia.
  - exists e0. split_and!; (done || lia).
Qed.

Lemma replicateHandler_monotone_witness :
  let nd := mkNode {[ "k" := mkEntry "a" 10 ]} ["p2"] false 2 1 2 in
  let q := replicateQuery "k" "b" "7" in
  data nd !! "k" = Some (mkEntry "a" 10) ∧
  data (replicateHandler nd q).1 !! "k" = Some (mkEntry "a" 10).
Proof.
  intros nd q.
  assert (data nd !! "k" = Some (mkEntry "a" 10)) as Hk by (vm_compute; reflexivity).
  split; [exact Hk|].
  destruct (replicateHandler_monotone nd q "k" _ Hk) as ((e1 & _ & _ & _) & _).
  vm_compute. reflexivity.
Defined.

(** Two replication applies commute when their entries agree. *)
Lemma step_repl_comm (d : gmap string Entry) (a b : Apply) :
  isRepl a = true → isRepl b = true → agree a b →
  step (step d a) b = step (step d b) a.
Proof.
  destruct a as [|k1 c1], b as [|k2 c2]; try done. intros _ _ Hag.
  unfold agree in Hag. simpl in *.
  apply map_eq. intros k. rewrite !applyIfNewer_lookup.
  destruct (decide (k1 = k)) as [<-|N1], (decide (k2 = k1)) as [->|N2];
    rewrite ?applyIfNewer_lookup; repeat case_decide; try done; try congruence.
  f_equal. specialize (Hag eq_refl).
  destruct (d !! k1) as [e0|]; simpl;
    try destruct (Z.ltb_spec (Timestamp e0) (Timestamp c1));
    try destruct (Z.ltb_spec (Timestamp e0) (Timestamp c2)); simpl;
    repeat match goal with
    | |- context [Z.ltb ?x ?y] => destruct (Z.ltb_spec x y); simpl
    end; try done; try lia;
    try (symmetry; apply Hag; lia); try (apply Hag; lia).
Qed.

Lemma consistent_cons a h : consistent (a :: h) → consistent h.
Proof. intros Hc x y Hx Hy. apply Hc; by right. Qed.

Lemma consistent_Permutation h1 h2 : h1 ≡ₚ h2 → consistent h1 → consistent h2.
Proof. intros Hp Hc x y Hx Hy. apply Hc; by rewrite Hp. Qed.

(** X5.  Replicas converge: two replicas that start from the same store and
    accept the same replication entries, in any two orders, end with the
    same store, provided a key and a timestamp identify the value. *)
Theorem replication_converges (h1 h2 : list Apply) :
  h1 ≡ₚ h2 → forallb isRepl h1 = true → consistent h1 →
  ∀ d, run d h1 = run d h2.
Proof.
  intros Hp. induction Hp as [|x l l' Hp IH|x y l|l l' l'' Hp1 IH1 Hp2 IH2];
    intros Hr Hc d.
  - done.
  - simpl in *. apply andb_true_iff in Hr as [_ Hr].
    apply IH; [done | by eapply consistent_cons].
  - simpl in *. apply andb_true_iff in Hr as [Hy Hr].
    apply andb_true_iff in Hr as [Hx _].
    rewrite (step_repl_comm d y x); [done..|].
    apply Hc; [left | right; left].
  - rewrite IH1 by done. apply IH2.
    + rewrite forallb_forall in *. intros a Ha. apply Hr.
      apply list_elem_of_In. rewrite Hp1. by apply list_elem_of_In.
    + by eapply consistent_Permutation.
Qed.

Lemma replication_converges_witness :
  let h1 := [ ReplAccept "k" (mkEntry "a" 10); ReplAccept "j" (mkEntry "x" 5);
              ReplAccept "k" (mkEntry "b" 20) ] in
  let h2 := [ ReplAccept "k" (mkEntry "b" 20); ReplAccept "k" (mkEntry "a" 10);
              ReplAccept "j" (mkEntry "x" 5) ] in
  h1 ≡ₚ h2 ∧ forallb isRepl h1 = true ∧ consistent h1 ∧
  run (∅ : gmap string Entry) h1 = run ∅ h2.
Proof.
  intros h1 h2.
  assert (h1 ≡ₚ h2) as Hp.
  { subst h1 h2. etrans; [apply Permutation_swap|]. 
    etrans; [apply Permutation_skip, Permutation_swap|].
    etrans; [apply Permutation_swap|]. apply Permutation_skip, Permutation_swap. }
  assert (forallb isRepl h1 = true) as Hr by reflexivity.
  assert (consistent h1) as Hc.
  { intros a b Ha Hb. unfold agree.
    repeat (apply elem_of_cons in Ha as [->|Ha]);
      repeat (apply elem_of_cons in Hb as [->|Hb]);
      try (by apply elem_of_nil in Ha); try (by apply elem_of_nil in Hb);
      simpl; intros; (done || discriminate || lia). }
  split; [exact Hp|]. split; [exact Hr|]. split; [exact Hc|].
  exact (replication_converges h1 h2 Hp Hr Hc ∅).
Defined.

(** Without that proviso the order shows: of two entries with one timestamp
    and two values, the one that arrives first stays. *)
Example replication_tie_keeps_first :
  run (∅ : gmap string Entry)
      [ReplAccept "k" (mkEntry "a" 10); ReplAccept "k" (mkEntry "b" 10)] !! "k"
    = Some (mkEntry "a" 10) ∧
  run (∅ : gmap string Entry)
      [ReplAccept "k" (mkEntry "b" 10); ReplAccept "k" (mkEntry "a" 10)] !! "k"
    = Some (mkEntry "b" 10).
Proof. split; vm_compute; reflexivity. Qed.

(** ** Invariants of a run *)

Lemma step_is_Some (d : gmap string Entry) (a : Apply) (k : string) :
  is_Some (step d a !! k) ↔ is_Some (d !! k) ∨ applyKey a = k.
Proof.
  destruct a as [k' c|k' c]; simpl.
  - unfold localWrite. destruct (decide (k' = k)) as [->|Hne].
    + rewrite lookup_insert_eq. split; [auto | eauto].
    + rewrite lookup_insert_ne by done. split; [auto|]. by intros [?|?].
  - rewrite applyIfNewer_lookup. destruct (decide (k' = k)) as [->|Hne].
    + split; [auto | eauto].
    + split; [auto|]. by intros [?|?].
Qed.

Lemma run_is_Some (h : list Apply) : ∀ (d : gmap string Entry) (k : string),
  is_Some (run d h !! k) ↔ is_Some (d !! k) ∨ ∃ a, a ∈ h ∧ applyKey a = k.
Proof.
  induction h as [|a h IH]; intros d k; simpl.
  - split; [auto|]. intros [?|(a & Ha & _)]; [done|]. by apply elem_of_nil in Ha.
  - rewrite IH, step_is_Some. split.
    + intros [[?|?]|(b & Hb & ?)]; [auto | right; exists a; split; [left|done]|].
      right. exists b. split; [by right | done].
    + intros [?|(b & Hb & ?)]; [auto|].
      apply elem_of_cons in Hb as [->|Hb]; [auto | right; eauto].
Qed.

(** A request applies an entry only under a non-empty key. *)
Lemma applied_key sv replicateTo nd rq a :
  applied sv replicateTo nd rq = Some a → applyKey a ≠ "".
Proof.
  destruct rq as [q ts|q|q]; simpl; [| |done].
  - destruct (decide (Get q "key" = "")) as [Hk|Hk].
    + destruct sv; simpl;
        [rewrite putHandler_no_key by done | rewrite setHandler_no_key by done];
        done.
    + destruct (writeOutcome _); intros [= <-]; done.
  - destruct (ParseInt _); [|done].
    destruct (decide (Get q "key" = "")); [done|]. by intros [= <-].
Qed.

Lemma serveAll_applied_keys sv replicateTo rqs : ∀ nd a,
  a ∈ (serveAll sv replicateTo nd rqs).2 → applyKey a ≠ "".
Proof.
  induction rqs as [|rq rqs IH]; intros nd a; simpl.
  - intros Ha. by apply elem_of_nil in Ha.
  - destruct (applied sv replicateTo nd rq) as [b|] eqn:Hb; [|by apply IH].
    intros [->|Ha]%elem_of_cons; [by eapply applied_key | by eapply IH].
Qed.

(** X6.  In every run of a node from its start, a key is in the store
    exactly when some request applied an entry under it, and the empty key
    never is.  So a request without a key is answered 404 by
    [getReplicaHandler] and [localReadHandler], which look up whatever key
    they are given, and 400 by [getHandler], which checks. *)
Theorem reads_without_key
    (sv : Service) (replicateTo : string → string → string → Z → bool)
    (ps : list string) (leader : bool) (n r w : Z) (rqs : list Request)
    (q : gmap string (list string)) (resCh : list result) :
  let out := serveAll sv replicateTo (startNode ps leader n r w) rqs in
  (∀ k, is_Some (data out.1 !! k) ↔ ∃ a, a ∈ out.2 ∧ applyKey a = k) ∧
  data out.1 !! "" = None ∧
  (Get q "key" = "" →
     getReplicaHandler out.1 q = httpNotFound ∧
     localReadHandler out.1 q = httpNotFound ∧
     getHandler out.1 q resCh = httpError "key required" StatusBadRequest).
Proof.
  intros out.
  assert (∀ k, is_Some (data out.1 !! k) ↔ ∃ a, a ∈ out.2 ∧ applyKey a = k) as Hkeys.
  { intros k. subst out. rewrite serveAll_data, run_is_Some. simpl.
    rewrite lookup_empty. split; [|auto]. intros [[? ?]|?]; done. }
  assert (data out.1 !! "" = None) as Hempty.
  { apply eq_None_not_Some. rewrite Hkeys. intros (a & Ha & Hk).
    by eapply serveAll_applied_keys. }
  split_and!; [done..|]. intros Hq.
  unfold getReplicaHandler, localReadHandler, lookupHandler, getHandler.
  rewrite Hq, Hempty. done.
Qed.

Lemma reads_without_key_witness :
  let replicateTo : string → string → string → Z → bool := λ _ _ _ _, true in
  let rqs := [ ClientWrite (writeQuery "" "v") 5; Replicate (replicateQuery "" "v" "7");
               ClientWrite (writeQuery "k" "v") 9 ] in
  let nd := (serveAll SetService replicateTo (startNode ["p2"] true 2 1 2) rqs).1 in
  let q : gmap string (list string) := {[ "value" := ["v"] ]} in
  Get q "key" = "" ∧
  getReplicaHandler nd q = httpNotFound ∧
  getHandler nd q [] = httpError "key required" StatusBadRequest.
Proof.
  intros replicateTo rqs nd q.
  assert (Get q "key" = "") as Hq by reflexivity.
  destruct (reads_without_key SetService replicateTo ["p2"] true 2 1 2 rqs q [])
    as (_ & _ & H).
  destruct (H Hq) as (H1 & _ & H3).
  split; [exact Hq|]. split; [exact H1 | exact H3].
Defined.

Lemma serve_config sv replicateTo nd rq :
  peers (serve sv replicateTo nd rq) = peers nd ∧
  isLeader (serve sv replicateTo nd rq) = isLeader nd ∧
  (isReconfigure rq = false →
     N (serve sv replicateTo nd rq) = N nd ∧
     R (serve sv replicateTo nd rq) = R nd ∧
     W (serve sv replicateTo nd rq) = W nd).
Proof.
  destruct rq as [q ts|q|q]; simpl.
  - assert (∃ d, after (writeHandler sv replicateTo nd q ts) = set_data nd d)
      as [d ->]; [|done].
    destruct (decide (Get q "key" = "")) as [Hk|Hk].
    { exists (data nd). rewrite set_data_id.
      destruct sv; simpl;
        [rewrite putHandler_no_key by done | rewrite setHandler_no_key by done];
        done. }
    destruct sv; simpl.
    + destruct (putHandler_gate replicateTo nd q ts Hk) as (Hy & Hn).
      destruct (isLeader nd).
      * destruct (Hy eq_refl) as (-> & _). eauto.
      * rewrite (Hn eq_refl). exists (data nd). by rewrite set_data_id.
    + destruct (setHandler_gate replicateTo nd q ts Hk) as (Hy & Hn).
      destruct (coordinates nd).
      * destruct (Hy eq_refl) as (-> & _). eauto.
      * rewrite (Hn eq_refl). exists (data nd). by rewrite set_data_id.
  - unfold replicateHandler. destruct (ParseInt _); [|done].
    by destruct (decide (Get q "key" = "")).
  - split_and!; [done | done | discriminate].
Qed.

(** X7.  Over any run, from any state: the peer list and the role never
    change; [N], [R] and [W] change only by a reconfiguration; and no key
    is ever removed from the store. *)
Theorem run_keeps_configuration
    (sv : Service) (replicateTo : string → string → string → Z → bool)
    (nd : Node) (rqs : list Request) :
  let nd' := (serveAll sv replicateTo nd rqs).1 in
  peers nd' = peers nd ∧ isLeader nd' = isLeader nd ∧
  (forallb (λ rq, negb (isReconfigure rq)) rqs = true →
     N nd' = N nd ∧ R nd' = R nd ∧ W nd' = W nd) ∧
  (∀ k, is_Some (data nd !! k) → is_Some (data nd' !! k)).
Proof.
  intros nd'. subst nd'. split_and!.
  - revert nd. induction rqs as [|rq rqs IH]; intros nd; simpl; [done|].
    rewrite IH. apply serve_config.
  - revert nd. induction rqs as [|rq rqs IH]; intros nd; simpl; [done|].
    rewrite IH. apply serve_config.
  - revert nd. induction rqs as [|rq rqs IH]; intros nd; simpl; [done|].
    intros [Hrq Hrest]%andb_true_iff. apply negb_true_iff in Hrq.
    destruct (IH (serve sv replicateTo nd rq) Hrest) as (-> & -> & ->).
    by apply serve_config.
  - intros k Hk. rewrite serveAll_data, run_is_Some. by left.
Qed.

Lemma run_keeps_configuration_witness :
  let replicateTo : string → string → string → Z → bool := λ _ _ _ _, false in
  let nd := mkNode {[ "k" := mkEntry "a" 10 ]} ["p2"; "p3"] true 3 1 3 in
  let rqs := [ ClientWrite (writeQuery "j" "x") 20; Replicate (replicateQuery "k" "b" "30") ] in
  let nd' := (serveAll PutService replicateTo nd rqs).1 in
  forallb (λ rq, negb (isReconfigure rq)) rqs = true ∧ is_Some (data nd !! "k") ∧
  W nd' = 3 ∧ is_Some (data nd' !! "k").
Proof.
  intros replicateTo nd rqs nd'.
  assert (forallb (λ rq, negb (isReconfigure rq)) rqs = true) as Hn by reflexivity.
  assert (is_Some (data nd !! "k")) as Hk by (vm_compute; eauto).
  destruct (run_keeps_configuration PutService replicateTo nd rqs) as (_ & _ & Hc & Hd).
  split; [exact Hn|]. split; [exact Hk|]. split.
  - exact (proj2 (proj2 (Hc Hn))).
  - exact (Hd "k" Hk).
Defined.

Lemma step_repl_monotone (d : gmap string Entry) (a : Apply) (k : string) (e0 : Entry) :
  isRepl a = true → d !! k = Some e0 →
  ∃ e1, step d a !! k = Some e1 ∧ Timestamp e0 <= Timestamp e1.
Proof.
  destruct a as [|k' c]; [done|]. intros _ Hk. simpl.
  rewrite applyIfNewer_lookup. case_decide as Hkk; [subst k'|].
  - rewrite Hk. destruct (Z.ltb_spec (Timestamp e0) (Timestamp c));
      eexists; (split; [done|]); lia.
  - exists e0. split; [done | lia].
Qed.

Lemma run_repl_monotone (h : list Apply) : ∀ (d : gmap string Entry) k e0,
  forallb isRepl h = true → d !! k = Some e0 →
  ∃ e1, run d h !! k = Some e1 ∧ Timestamp e0 <= Timestamp e1.
Proof.
  induction h as [|a h IH]; intros d k e0 Hr Hk; simpl in *.
  - exists e0. split; [done | lia].
  - apply andb_true_iff in Hr as [Ha Hr].
    destruct (step_repl_monotone d a k e0 Ha Hk) as (e1 & H1 & Hle1).
    destruct (IH _ k e1 Hr H1) as (e2 & H2 & Hle2).
    exists e2. split; [done | lia].
Qed.

Lemma serveAll_follower sv replicateTo rqs : ∀ nd,
  forallb (λ rq, negb (isClientWrite rq)) rqs = true →
  forallb isRepl (serveAll sv replicateTo nd rqs).2 = true.
Proof.
  induction rqs as [|rq rqs IH]; intros nd; simpl; [done|].
  intros [Hrq Hrest]%andb_true_iff.
  destruct rq as [q ts|q|q]; [done| |]; simpl.
  - destruct (ParseInt _); [|by apply IH].
    destruct (decide (Get q "key" = "")); [by apply IH|]. simpl. by apply IH.
  - by apply IH.
Qed.

(** X8.  A node that serves no client write (a follower: replicate and
    reconfigure requests only) never lowers the timestamp stored under a
    key. *)
Theorem follower_timestamps_grow
    (sv : Service) (replicateTo : string → string → string → Z → bool)
    (nd : Node) (rqs : list Request) (k : string) (e0 : Entry) :
  forallb (λ rq, negb (isClientWrite rq)) rqs = true →
  data nd !! k = Some e0 →
  ∃ e1, data (serveAll sv replicateTo nd rqs).1 !! k = Some e1 ∧
        Timestamp e0 <= Timestamp e1.
Proof.
  intros Hf Hk. rewrite serveAll_data.
  apply run_repl_monotone; [by apply serveAll_follower | done].
Qed.

Lemma follower_timestamps_grow_witness :
  let replicateTo : string → string → string → Z → bool := λ _ _ _ _, true in
  let nd := mkNode {[ "k" := mkEntry "a" 10 ]} ["p1"] false 2 1 2 in
  let rqs := [ Replicate (replicateQuery "k" "old" "3"); Reconfigure {[ "R" := ["2"] ]};
               Replicate (replicateQuery "k" "new" "12") ] in
  forallb (λ rq, negb (isClientWrite rq)) rqs = true ∧
  data nd !! "k" = Some (mkEntry "a" 10) ∧
  ∃ e1, data (serveAll SetService replicateTo nd rqs).1 !! "k" = Some e1 ∧
        10 <= Timestamp e1.
Proof.
  intros replicateTo nd rqs.
  assert (forallb (λ rq, negb (isClientWrite rq)) rqs = true) as Hf by reflexivity.
  assert (data nd !! "k" = Some (mkEntry "a" 10)) as Hk by (vm_compute; reflexivity).
  split; [exact Hf|]. split; [exact Hk|].
  exact (follower_timestamps_grow SetService replicateTo nd rqs "k" _ Hf Hk).
Defined.

(** ** The write handlers as one case analysis *)

Lemma peerAcks_le_length tr : peerAcks tr <= Z.of_nat (length tr).
Proof. unfold peerAcks. pose proof (length_filter (λ pr, pr.2 = true) tr). lia. Qed.

Lemma fanoutAll_length replicateTo ps key val ts :
  length (fanoutAll replicateTo ps key val ts) = length ps.
Proof. unfold fanoutAll. apply length_map. Qed.

(** Every run of a write handler is one of four: refused for want of a key,
    refused by the gate, fire-and-forget on a leader with [W == 1], or
    synchronous, and then over a prefix of the peer list that stops early
    only once the tally has reached [W]. *)
Lemma writeHandler_cases (sv : Service)
    (replicateTo : string → string → string → Z → bool)
    (nd : Node) (q : gmap string (list string)) (ts : Z) :
  let key := Get q "key" in
  let val := Get q "value" in
  let written := set_data nd (localWrite (data nd) key (mkEntry val ts)) in
  let r := writeHandler sv replicateTo nd q ts in
  (key = "" ∧ r = refuse nd (httpError "key required" StatusBadRequest)) ∨
  (key ≠ "" ∧ gate sv nd = false ∧
     r = refuse nd (httpError "writes only allowed on leader" StatusBadRequest)) ∨
  (key ≠ "" ∧ gate sv nd = true ∧ isLeader nd = true ∧ W nd = 1 ∧
     r = mkWriteResult (okResponse sv) written [] (peers nd)) ∨
  (key ≠ "" ∧ gate sv nd = true ∧
     ∃ tr rest,
       fanoutAll replicateTo (peers nd) key val ts = tr ++ rest ∧
       (rest ≠ [] → W nd <= 1 + peerAcks tr) ∧
       r = mkWriteResult
             (if 1 + peerAcks tr <? W nd
              then httpError "write quorum not met" StatusInternalServerError
              else okResponse sv)
             written tr []).
Proof.
  intros key val written r. subst key val written r.
  destruct (decide (Get q "key" = "")) as [Hk|Hk].
  { left. split; [done|].
    destruct sv; simpl; [by apply putHandler_no_key | by apply setHandler_no_key]. }
  right. destruct sv; simpl.
  - destruct (isLeader nd) eqn:Hl.
    + right. destruct (decide (W nd = 1)) as [HW|HW].
      * left. split_and!; try done. by apply putHandler_leader_async.
      * right. split_and!; try done.
        eexists _, []. rewrite app_nil_r. split_and!; [done | done |].
        by rewrite putHandler_leader_sync.
    + left. split_and!; try done. by apply putHandler_peer.
  - destruct (coordinates nd) eqn:Hc.
    + right. unfold coordinates in Hc. destruct (isLeader nd) eqn:Hl.
      * destruct (decide (W nd = 1)) as [HW|HW].
        -- left. split_and!; try done. by apply setHandler_leader_async.
        -- right. split_and!; try done.
           destruct (leaderLoop_prefix replicateTo (W nd) (peers nd)
                       (Get q "key") (Get q "value") ts 1)
             as (Ha & rest & Hall & Hrest & _).
           eexists _, rest. split_and!; [done | by rewrite <- Ha |].
           rewrite setHandler_leader_sync by done. by rewrite Ha.
      * right. simpl in Hc. apply Z.eqb_eq in Hc. split_and!; try done.
        eexists _, []. rewrite app_nil_r. split_and!; [done | done |].
        by rewrite setHandler_leaderless.
    + left. split_and!; try done. by apply setHandler_refused.
Qed.

(** X9.  No rollback: once a write has gone ahead, whether it is answered
    Accepted or QuorumNotMet, the coordinator holds exactly the written
    entry, and its local read, its replica read and its client read with
    [R == 1] all return it. *)
Theorem coordinator_reads_own_write (sv : Service)
    (replicateTo : string → string → string → Z → bool)
    (nd : Node) (q : gmap string (list string)) (ts : Z) (resCh : list result) :
  let r := writeHandler sv replicateTo nd q ts in
  let written := mkEntry (Get q "value") ts in
  writeOutcome (resp r) = Accepted ∨ writeOutcome (resp r) = QuorumNotMet →
  data (after r) !! Get q "key" = Some written ∧
  localReadHandler (after r) q = mkResponse StatusOK (EntryJSON written) ∧
  getReplicaHandler (after r) q = mkResponse StatusOK (EntryJSON written) ∧
  (R nd = 1 → getHandler (after r) q resCh = mkResponse StatusOK (EntryJSON written)).
Proof.
  intros r written Hout. subst r written.
  assert (Get q "key" ≠ "" ∧
          after (writeHandler sv replicateTo nd q ts) =
            set_data nd (localWrite (data nd) (Get q "key")
                           (mkEntry (Get q "value") ts))) as [Hk Hafter].
  { destruct (writeHandler_cases sv replicateTo nd q ts)
      as [[_ Hr]|[(_ & _ & Hr)|[(Hk & _ & _ & _ & Hr)|(Hk & _ & tr & rest & _ & _ & Hr)]]];
      rewrite Hr in *; simpl in *.
    - by destruct Hout.
    - by destruct Hout.
    - done.
    - done. }
  rewrite Hafter. unfold localReadHandler, getReplicaHandler, lookupHandler, getHandler.
  simpl. rewrite localWrite_lookup. split_and!; try done.
  intros ->. by destruct (decide (Get q "key" = "")).
Qed.

Lemma coordinator_reads_own_write_witness :
  let replicateTo : string → string → string → Z → bool := λ _ _ _ _, false in
  let nd := mkNode {[ "foo" := mkEntry "newer" 99 ]} ["p2"; "p3"] true 3 1 3 in
  let q := writeQuery "foo" "bar" in
  let r := writeHandler PutService replicateTo nd q 50 in
  writeOutcome (resp r) = QuorumNotMet ∧
  data (after r) !! "foo" = Some (mkEntry "bar" 50).
Proof.
  intros replicateTo nd q r.
  assert (writeOutcome (resp r) = QuorumNotMet) as Hq by reflexivity.
  split; [exact Hq|].
  exact (proj1 (coordinator_reads_own_write PutService replicateTo nd q 50 []
                  (or_intror Hq))).
Defined.

(** X10.  What a write never touches: the peer list, the role and the
    quorum parameters stay as they are, and so does every key other than
    the one written.  The peers it calls, waited for or not, are a prefix of
    the configured peer list, in its order.  A write that is refused
    changes nothing and calls nobody. *)
Theorem write_frame (sv : Service)
    (replicateTo : string → string → string → Z → bool)
    (nd : Node) (q : gmap string (list string)) (ts : Z) :
  let r := writeHandler sv replicateTo nd q ts in
  peers (after r) = peers nd ∧ isLeader (after r) = isLeader nd ∧
  N (after r) = N nd ∧ R (after r) = R nd ∧ W (after r) = W nd ∧
  (∀ k, k ≠ Get q "key" → data (after r) !! k = data nd !! k) ∧
  (map fst (awaited r) ++ detached r) `prefix_of` peers nd ∧
  (writeOutcome (resp r) = InvalidRequest ∨ writeOutcome (resp r) = NotCoordinator →
     after r = nd ∧ awaited r = [] ∧ detached r = []).
Proof.
  intros r. subst r.
  destruct (writeHandler_cases sv replicateTo nd q ts)
    as [[_ Hr]|[(_ & _ & Hr)|[(Hk & _ & _ & _ & Hr)|(Hk & _ & tr & rest & Hall & _ & Hr)]]];
    rewrite Hr; simpl.
  - split_and!; try done. apply prefix_nil.
  - split_and!; try done. apply prefix_nil.
  - split_and!; try done.
    + intros k Hne. by apply localWrite_other.
    + by destruct sv; intros [?|?].
  - rewrite app_nil_r. split_and!; try done.
    + intros k Hne. by apply localWrite_other.
    + exists (map fst rest).
      by rewrite <- map_app, <- Hall, fanoutAll_peers.
    + destruct (_ <? _); [by intros [?|?] | by destruct sv; intros [?|?]].
Qed.

Lemma write_frame_witness :
  let replicateTo : string → string → string → Z → bool := λ _ _ _ _, true in
  let nd := mkNode {[ "foo" := mkEntry "bar" 5 ]} ["p2"; "p3"] false 3 1 2 in
  let r := writeHandler SetService replicateTo nd (writeQuery "foo" "baz") 50 in
  writeOutcome (resp r) = NotCoordinator ∧ after r = nd ∧ awaited r = [] ∧ detached r = [].
Proof.
  intros replicateTo nd r.
  assert (writeOutcome (resp r) = NotCoordinator) as Hn by reflexivity.
  split; [exact Hn|].
  destruct (write_frame SetService replicateTo nd (writeQuery "foo" "baz") 50)
    as (_ & _ & _ & _ & _ & _ & _ & H).
  exact (H (or_intror Hn)).
Defined.

(** X11.  The reach of [W]: the tally of a write that goes ahead is at most
    one more than the number of peers; so with [W] above that the write is
    answered QuorumNotMet whatever the peers do, and with [W] at most one
    it is answered Accepted whatever the peers do. *)
Theorem quorum_bounds (sv : Service)
    (replicateTo : string → string → string → Z → bool)
    (nd : Node) (q : gmap string (list string)) (ts : Z) :
  Get q "key" ≠ "" → gate sv nd = true →
  let r := writeHandler sv replicateTo nd q ts in
  1 <= acknowledgments r <= 1 + Z.of_nat (length (peers nd)) ∧
  (1 + Z.of_nat (length (peers nd)) < W nd → writeOutcome (resp r) = QuorumNotMet) ∧
  (W nd <= 1 → writeOutcome (resp r) = Accepted).
Proof.
  intros Hk Hg r. subst r. unfold acknowledgments.
  destruct (writeHandler_cases sv replicateTo nd q ts)
    as [[? _]|[(_ & Hg' & _)|[(_ & _ & _ & HW & Hr)|(_ & _ & tr & rest & Hall & _ & Hr)]]];
    [done | congruence | |]; rewrite Hr; simpl.
  - rewrite peerAcks_nil. split_and!; [lia.. | by destruct sv].
  - pose proof (peerAcks_nonneg tr). pose proof (peerAcks_le_length tr).
    assert (length tr <= length (peers nd))%nat.
    { rewrite <- (fanoutAll_length replicateTo (peers nd) (Get q "key") (Get q "value") ts),
        Hall, length_app. lia. }
    split_and!; [lia.. | |].
    + intros HW. by rewrite (proj2 (Z.ltb_lt _ _)) by lia.
    + intros HW. rewrite (proj2 (Z.ltb_ge _ _)) by lia. by destruct sv.
Qed.

Lemma quorum_bounds_witness :
  let replicateTo : string → string → string → Z → bool := λ _ _ _ _, true in
  let nd := mkNode ∅ ["p2"; "p3"] true 5 1 4 in
  let q := writeQuery "foo" "bar" in
  Get q "key" ≠ "" ∧ gate SetService nd = true ∧
  1 + Z.of_nat (length (peers nd)) < W nd ∧
  writeOutcome (resp (writeHandler SetService replicateTo nd q 7)) = QuorumNotMet.
Proof.
  intros replicateTo nd q.
  assert (Get q "key" ≠ "") as Hk by (vm_compute; discriminate).
  assert (gate SetService nd = true) as Hg by reflexivity.
  assert (1 + Z.of_nat (length (peers nd)) < W nd) as HW by (simpl; lia).
  split; [exact Hk|]. split; [exact Hg|]. split; [exact HW|].
  exact (proj1 (proj2 (quorum_bounds SetService replicateTo nd q 7 Hk Hg)) HW).
Defined.

(** X12.  On a leader the two write handlers agree: they leave the same
    state and give the same outcome; they differ in the success status (200
    and 201) and in that [setHandler] may stop calling peers early, its
    calls being a prefix of those of [putHandler]. *)
Theorem write_handlers_agree_on_leader
    (replicateTo : string → string → string → Z → bool)
    (nd : Node) (q : gmap string (list string)) (ts : Z) :
  isLeader nd = true →
  let p := putHandler replicateTo nd q ts in
  let s := setHandler replicateTo nd q ts in
  after s = after p ∧
  writeOutcome (resp s) = writeOutcome (resp p) ∧
  awaited s `prefix_of` awaited p ∧ detached s = detached p ∧
  (writeOutcome (resp p) = Accepted →
     code (resp p) = StatusOK ∧ code (resp s) = StatusCreated).
Proof.
  intros Hl p s. subst p s.
  destruct (decide (Get q "key" = "")) as [Hk|Hk].
  { rewrite putHandler_no_key, setHandler_no_key by done. done. }
  destruct (decide (W nd = 1)) as [HW|HW].
  { rewrite putHandler_leader_async, setHandler_leader_async by done. done. }
  rewrite putHandler_leader_sync, setHandler_leader_sync by done. simpl.
  pose proof (leaderLoop_verdict replicateTo (W nd) (peers nd)
                (Get q "key") (Get q "value") ts 1) as Hv.
  destruct (leaderLoop_prefix replicateTo (W nd) (peers nd)
              (Get q "key") (Get q "value") ts 1) as (_ & rest & Hall & _ & _).
  split_and!; [done | | by exists rest | done |].
  - destruct (Z.ltb_spec (leaderLoop replicateTo (W nd) 1 (peers nd)
                            (Get q "key") (Get q "value") ts).1 (W nd)) as [H1|H1],
      (Z.ltb_spec (1 + peerAcks (fanoutAll replicateTo (peers nd)
                                   (Get q "key") (Get q "value") ts)) (W nd)) as [H2|H2];
      try done; lia.
  - destruct (Z.ltb_spec (leaderLoop replicateTo (W nd) 1 (peers nd)
                            (Get q "key") (Get q "value") ts).1 (W nd)) as [H1|H1],
      (Z.ltb_spec (1 + peerAcks (fanoutAll replicateTo (peers nd)
                                   (Get q "key") (Get q "value") ts)) (W nd)) as [H2|H2];
      try done; lia.
Qed.

Lemma write_handlers_agree_on_leader_witness :
  let replicateTo : string → string → string → Z → bool := λ _ _ _ _, true in
  let nd := mkNode ∅ ["p2"; "p3"; "p4"] true 4 1 2 in
  let q := writeQuery "foo" "bar" in
  isLeader nd = true ∧
  after (setHandler replicateTo nd q 7) = after (putHandler replicateTo nd q 7) ∧
  awaited (setHandler replicateTo nd q 7) = [("p2", true)] ∧
  length (awaited (putHandler replicateTo nd q 7)) = 3%nat.
Proof.
  intros replicateTo nd q.
  assert (isLeader nd = true) as Hl by reflexivity.
  split; [exact Hl|]. split.
  - exact (proj1 (write_handlers_agree_on_leader replicateTo nd q 7 Hl)).
  - split; reflexivity.
Defined.

(** ** More on the quorum read *)

(** With [r < 1] the collecting loop stops at the first success. *)
Lemma collect_first r best resCh :
  r < 1 →
  collect r 0 best resCh =
    match successes resCh with
    | [] => (0, best)
    | x :: _ => (1, if Timestamp best <? Timestamp (e x) then e x else best)
    end.
Proof.
  intros Hr. unfold successes. induction resCh as [|r2 rest IH]; simpl; [done|].
  destruct (ok r2) eqn:Hok; simpl.
  - rewrite filter_cons_True by done.
    by rewrite (proj2 (Z.leb_le r (0 + 1))) by lia.
  - rewrite filter_cons_False by (rewrite Hok; done). done.
Qed.

(** X13.  A read quorum below one (a value [configHandler] and the flags
    accept) sends the read down the fan-out path, where the first
    successful response alone decides: its entry if its timestamp is
    positive, the zero entry if not, NotFound if no response succeeds. *)
Theorem getHandler_quorum_below_one
    (nd : Node) (q : gmap string (list string)) (resCh : list result) :
  Get q "key" ≠ "" → R nd < 1 →
  getHandler nd q resCh =
    match successes resCh with
    | [] => httpNotFound
    | x :: _ =>
        mkResponse StatusOK
          (EntryJSON (if 0 <? Timestamp (e x) then e x else zeroEntry))
    end.
Proof.
  intros Hk HR. unfold getHandler.
  destruct (decide (Get q "key" = "")); [done|].
  destruct (Z.eqb_spec (R nd) 1); [lia|].
  rewrite collect_first by done. by destruct (successes resCh).
Qed.

Lemma getHandler_quorum_below_one_witness :
  let nd := mkNode ∅ ["p2"; "p3"] false 3 0 3 in
  let q : gmap string (list string) := {[ "key" := ["k"] ]} in
  let resCh := [ localResult nd "k"; mkResult (mkEntry "old" 5) true;
                 mkResult (mkEntry "new" 9) true ] in
  Get q "key" ≠ "" ∧ R nd < 1 ∧
  getHandler nd q resCh = mkResponse StatusOK (EntryJSON (mkEntry "old" 5)).
Proof.
  intros nd q resCh.
  assert (Get q "key" ≠ "") as Hk by (vm_compute; discriminate).
  assert (R nd < 1) as HR by (simpl; lia).
  split; [exact Hk|]. split; [exact HR|].
  rewrite (getHandler_quorum_below_one nd q resCh Hk HR). reflexivity.
Defined.

Lemma pick_timestamp cs : ∀ best,
  Timestamp (pick best cs) = maxTimestamp (Timestamp best) cs.
Proof.
  induction cs as [|c cs IH]; intros best; [done|].
  change (pick best (c :: cs))
    with (pick (if Timestamp best <? Timestamp (e c) then e c else best) cs).
  rewrite IH. simpl.
  assert (∀ x y, maxTimestamp (Z.max x y) cs = Z.max y (maxTimestamp x cs)) as Hmax.
  { clear. induction cs as [|c cs IH]; intros x y; simpl; [lia|]. rewrite IH. lia. }
  rewrite <- Hmax. f_equal.
  destruct (Z.ltb_spec (Timestamp best) (Timestamp (e c))); lia.
Qed.

Lemma maxTimestamp_Permutation b cs cs' :
  cs ≡ₚ cs' → maxTimestamp b cs = maxTimestamp b cs'.
Proof.
  intros Hp. induction Hp; simpl; [done | by f_equal | lia | congruence].
Qed.

Lemma maxTimestamp_ge b cs : b <= maxTimestamp b cs.
Proof. induction cs; simpl; lia. Qed.

Lemma counted_all r resCh :
  Z.of_nat (length resCh) <= r → counted r resCh = successes resCh.
Proof.
  intros Hr. unfold counted, successes. apply take_ge.
  pose proof (length_filter (λ x, ok x = true) resCh). lia.
Qed.

(** X14.  A read quorum that covers every result ([R] at least the number
    of results, the local one and one per peer) makes the timestamp of the
    answer independent of the order of arrival: it is the largest timestamp
    among the successful responses, or zero if none of them is positive,
    and NotFound if there is no successful response. *)
Theorem getHandler_full_quorum
    (nd : Node) (q : gmap string (list string)) (resCh resCh' : list result) :
  Get q "key" ≠ "" → 1 < R nd → Z.of_nat (length resCh) <= R nd →
  resCh ≡ₚ resCh' →
  (successes resCh = [] →
     getHandler nd q resCh = httpNotFound ∧ getHandler nd q resCh' = httpNotFound) ∧
  (successes resCh ≠ [] →
     ∃ b b',
       getHandler nd q resCh = mkResponse StatusOK (EntryJSON b) ∧
       getHandler nd q resCh' = mkResponse StatusOK (EntryJSON b') ∧
       Timestamp b = maxTimestamp 0 (successes resCh) ∧
       Timestamp b' = Timestamp b).
Proof.
  intros Hk HR Hlen Hp.
  assert (successes resCh ≡ₚ successes resCh') as Hs.
  { unfold successes. by rewrite Hp. }
  rewrite !getHandler_fanout by done.
  rewrite !counted_all by (rewrite <- ?Hp; done).
  split.
  - intros Hnil. rewrite Hnil in Hs. apply Permutation_nil_l in Hs.
    rewrite Hnil, <- Hs. done.
  - intros Hne.
    destruct (decide (successes resCh = [])); [done|].
    destruct (decide (successes resCh' = [])) as [Hnil|_].
    { rewrite Hnil in Hs. by apply Permutation_nil_r in Hs. }
    eexists _, _. split_and!; [done | done | |].
    + apply pick_timestamp.
    + rewrite !pick_timestamp. by apply maxTimestamp_Permutation.
Qed.

Lemma getHandler_full_quorum_witness :
  let nd := mkNode {[ "k" := mkEntry "mine" 10 ]} ["p2"; "p3"] true 3 3 3 in
  let q : gmap string (list string) := {[ "key" := ["k"] ]} in
  let a := localResult nd "k" in
  let b := mkResult (mkEntry "theirs" 20) true in
  let c := mkResult zeroEntry false in
  Get q "key" ≠ "" ∧ 1 < R nd ∧ Z.of_nat (length [a; b; c]) <= R nd ∧
  [a; b; c] ≡ₚ [c; b; a] ∧
  ∃ e1 e2,
    getHandler nd q [a; b; c] = mkResponse StatusOK (EntryJSON e1) ∧
    getHandler nd q [c; b; a] = mkResponse StatusOK (EntryJSON e2) ∧
    Timestamp e1 = maxTimestamp 0 (successes [a; b; c]) ∧
    Timestamp e2 = Timestamp e1.
Proof.
  intros nd q a b c.
  assert (Get q "key" ≠ "") as Hk by (vm_compute; discriminate).
  assert (1 < R nd) as HR by (simpl; lia).
  assert (Z.of_nat (length [a; b; c]) <= R nd) as Hlen by (simpl; lia).
  assert ([a; b; c] ≡ₚ [c; b; a]) as Hp.
  { etrans; [apply Permutation_skip, Permutation_swap|].
    etrans; [apply Permutation_swap|]. apply Permutation_skip, Permutation_swap. }
  assert (successes [a; b; c] ≠ []) as Hne by (vm_compute; discriminate).
  split; [exact Hk|]. split; [exact HR|]. split; [exact Hlen|]. split; [exact Hp|].
  exact (proj2 (getHandler_full_quorum nd q _ _ Hk HR Hlen Hp) Hne).
Defined.

(** Below a full quorum the order of arrival shows, as the read is specified
    to behave: the same three results, two counted. *)
Example getHandler_partial_quorum_order :
  let nd := mkNode {[ "k" := mkEntry "mine" 10 ]} ["p2"; "p3"] true 3 2 3 in
  let q : gmap string (list string) := {[ "key" := ["k"] ]} in
  let a := localResult nd "k" in
  let b := mkResult (mkEntry "theirs" 20) true in
  let c := mkResult (mkEntry "stale" 5) true in
  getHandler nd q [a; c; b] = mkResponse StatusOK (EntryJSON (mkEntry "mine" 10)) ∧
  getHandler nd q [b; a; c] = mkResponse StatusOK (EntryJSON (mkEntry "theirs" 20)).
Proof. split; vm_compute; reflexivity. Qed.

Lemma collect_mono r resCh : ∀ got best, got <= (collect r got best resCh).1.
Proof.
  induction resCh as [|r2 rest IH]; intros got best; simpl; [lia|].
  destruct (ok r2); simpl; [|apply IH].
  destruct (r <=? got + 1); simpl; [lia|].
  specialize (IH (got + 1) (if Timestamp best <? Timestamp (e r2) then e r2 else best)).
  lia.
Qed.

Lemma collect_progress r resCh : ∀ got best,
  (collect r got best resCh).1 = got → successes resCh = [].
Proof.
  unfold successes. induction resCh as [|r2 rest IH]; intros got best; simpl; [done|].
  destruct (ok r2) eqn:Hok; simpl.
  - destruct (r <=? got + 1); simpl; [lia|].
    intros Heq.
    pose proof (collect_mono r rest (got + 1)
                  (if Timestamp best <? Timestamp (e r2) then e r2 else best)). lia.
  - rewrite filter_cons_False by (rewrite Hok; done). apply IH.
Qed.

Lemma collect_timestamp r resCh : ∀ got best,
  Timestamp best <= Timestamp (collect r got best resCh).2.
Proof.
  induction resCh as [|r2 rest IH]; intros got best; simpl; [lia|].
  destruct (ok r2); simpl; [|apply IH].
  destruct (r <=? got + 1); simpl.
  - destruct (Z.ltb_spec (Timestamp best) (Timestamp (e r2))); lia.
  - etrans; [|apply IH].
    destruct (Z.ltb_spec (Timestamp best) (Timestamp (e r2))); lia.
Qed.

(** X15.  On the fan-out path ([R] other than one) a node that holds the key
    never answers NotFound, in whatever order the results arrive, and the
    timestamp it answers with is never negative. *)
Theorem getHandler_finds_local_key
    (nd : Node) (q : gmap string (list string)) (fetch : string → result)
    (resCh : list result) (e0 : Entry) :
  Get q "key" ≠ "" → R nd ≠ 1 →
  resCh ≡ₚ sentResults nd (Get q "key") fetch →
  data nd !! Get q "key" = Some e0 →
  ∃ b, getHandler nd q resCh = mkResponse StatusOK (EntryJSON b) ∧ 0 <= Timestamp b.
Proof.
  intros Hk HR Hp H0. unfold getHandler.
  destruct (decide (Get q "key" = "")); [done|].
  destruct (Z.eqb_spec (R nd) 1); [done|].
  destruct (collect (R nd) 0 zeroEntry resCh) as [got best] eqn:Hc.
  assert (successes resCh ≠ []) as Hne.
  { intros Hnil.
    assert (localResult nd (Get q "key") ∈ successes resCh) as Hin.
    { unfold successes. apply list_elem_of_filter. split.
      - unfold localResult. by rewrite H0.
      - rewrite Hp. left. }
    rewrite Hnil in Hin. by apply elem_of_nil in Hin. }
  assert (got ≠ 0) as Hgot.
  { intros ->. apply Hne. eapply (collect_progress (R nd) resCh 0 zeroEntry).
    by rewrite Hc. }
  assert (0 <= got) as Hnn.
  { pose proof (collect_mono (R nd) resCh 0 zeroEntry) as Hm. by rewrite Hc in Hm. }
  destruct (Z.ltb_spec got 1); [lia|].
  exists best. split; [done|].
  pose proof (collect_timestamp (R nd) resCh 0 zeroEntry) as Ht.
  by rewrite Hc in Ht.
Qed.

Lemma getHandler_finds_local_key_witness :
  let nd := mkNode {[ "k" := mkEntry "mine" (-4) ]} ["p2"] true 2 2 2 in
  let q : gmap string (list string) := {[ "key" := ["k"] ]} in
  let fetch : string → result := λ _, mkResult zeroEntry false in
  let resCh := [ fetch "p2"; localResult nd "k" ] in
  Get q "key" ≠ "" ∧ R nd ≠ 1 ∧ resCh ≡ₚ sentResults nd (Get q "key") fetch ∧
  data nd !! Get q "key" = Some (mkEntry "mine" (-4)) ∧
  ∃ b, getHandler nd q resCh = mkResponse StatusOK (EntryJSON b) ∧ 0 <= Timestamp b.
Proof.
  intros nd q fetch resCh.
  assert (Get q "key" ≠ "") as Hk by (vm_compute; discriminate).
  assert (R nd ≠ 1) as HR by (simpl; lia).
  assert (resCh ≡ₚ sentResults nd (Get q "key") fetch) as Hp by apply Permutation_swap.
  assert (data nd !! Get q "key" = Some (mkEntry "mine" (-4))) as H0
    by (vm_compute; reflexivity).
  split; [exact Hk|]. split; [exact HR|]. split; [exact Hp|]. split; [exact H0|].
  exact (getHandler_finds_local_key nd q fetch resCh _ Hk HR Hp H0).
Defined.

(** ** The timestamp on the wire between two nodes *)

(** The decimal that [%d] writes for an [int64] is read back by
    [strconv.ParseInt] as the same number. *)
Lemma ParseInt_timestampParam ts : int64 ts → ParseInt (timestampParam ts) = Some ts.
Proof.
  unfold int64, minInt64, maxInt64, timestampParam, FormatInt. intros Hts.
  assert (2 ^ 63 < 10 ^ Z.of_nat 20) as Hpow by (vm_compute; reflexivity).
  destruct (Z.ltb_spec ts 0) as [Hneg|Hpos].
  - destruct (formatBits_head 20 (- ts)) as (d & tl & Hfmt & Hd); [lia|].
    pose proof (formatBits_parse 20 (- ts) [] ltac:(lia)) as Hparse.
    rewrite Hfmt in *. unfold ParseInt. cbn [string_of_list_ascii] in *.
    change (Ascii.eqb "-" "-") with true. change (Ascii.eqb "-" "+") with false.
    cbn [orb]. unfold ParseUint. rewrite Hparse. cbn [parseDigits].
    rewrite (proj2 (Z.leb_le _ _)) by lia. f_equal. lia.
  - destruct (Z.eq_dec ts 0) as [->|Hnz]; [reflexivity|].
    destruct (formatBits_head 20 ts) as (d & tl & Hfmt & Hd); [lia|].
    pose proof (formatBits_parse 20 ts [] ltac:(lia)) as Hparse.
    rewrite Hfmt in *. unfold ParseInt. cbn [string_of_list_ascii] in *.
    assert (Ascii.eqb d "-" = false) as ->.
    { apply Ascii.eqb_neq. intros ->. vm_compute in Hd. by destruct Hd as [H _]. }
    assert (Ascii.eqb d "+" = false) as ->.
    { apply Ascii.eqb_neq. intros ->. vm_compute in Hd. by destruct Hd as [H _]. }
    cbn [orb]. unfold ParseUint. rewrite Hparse. cbn [parseDigits].
    by rewrite (proj2 (Z.ltb_lt _ _)) by lia.
Qed.

Lemma timestampParam_nonempty ts : int64 ts → timestampParam ts ≠ "".
Proof.
  intros Hts He. pose proof (ParseInt_timestampParam ts Hts) as Hp.
  rewrite He in Hp. discriminate.
Qed.

Lemma replicateRequest_applies (nd : Node) (key val : string) (ts : Z) :
  key ≠ "" → int64 ts →
  replicateHandler nd (replicateRequest key val ts) =
    (set_data nd (applyIfNewer (data nd) key (mkEntry val ts)).1,
     mkResponse StatusOK NoBody).
Proof.
  intros Hk Hts. unfold replicateHandler, replicateRequest.
  destruct (Get_replicateQuery key val (timestampParam ts)) as (-> & -> & ->).
  rewrite ParseInt_timestampParam by done.
  by destruct (decide (key = "")).
Qed.

(** X16.  A replica never turns down the timestamp its coordinator sent:
    for a non-empty key and a value of ASCII letters and digits, which the
    URL of [replicateTo] carries unchanged, and any [int64] timestamp, the
    request that [replicateTo] builds, with the timestamp written by [%d],
    is answered 200 by [replicateHandler], which applies the entry with
    that very timestamp. *)
Theorem replicate_request_accepted (nd : Node) (key val : string) (ts : Z) :
  key ≠ "" → plainText key = true → plainText val = true → int64 ts →
  (replicateHandler nd (replicateRequest key val ts)).2 = mkResponse StatusOK NoBody ∧
  data (replicateHandler nd (replicateRequest key val ts)).1 =
    step (data nd) (ReplAccept key (mkEntry val ts)) ∧
  ∃ en, data (replicateHandler nd (replicateRequest key val ts)).1 !! key = Some en ∧
        ts <= Timestamp en.
Proof.
  intros Hk _ _ Hts. rewrite replicateRequest_applies by done. simpl.
  split_and!; [done | done |]. rewrite applyIfNewer_lookup.
  destruct (decide (key = key)) as [_|]; [|done].
  destruct (data nd !! key) as [e0|]; simpl; [|eexists; split; [done|simpl; lia]].
  destruct (Z.ltb_spec (Timestamp e0) ts); eexists; (split; [done|]); simpl; lia.
Qed.

Lemma replicate_request_accepted_witness :
  let nd := startNode ["p1"] false 2 1 2 in
  "foo" ≠ "" ∧ plainText "foo" = true ∧ plainText "bar" = true ∧
  int64 (-9223372036854775808) ∧
  (replicateHandler nd (replicateRequest "foo" "bar" (-9223372036854775808))).2
    = mkResponse StatusOK NoBody ∧
  data (replicateHandler nd (replicateRequest "foo" "bar" (-9223372036854775808))).1
    !! "foo" = Some (mkEntry "bar" (-9223372036854775808)).
Proof.
  intros nd.
  assert ("foo" ≠ "") as Hk by discriminate.
  assert (int64 (-9223372036854775808)) as Hts.
  { unfold int64, minInt64, maxInt64. lia. }
  assert (plainText "foo" = true) as Hpk by reflexivity.
  assert (plainText "bar" = true) as Hpv by reflexivity.
  split; [exact Hk|]. split; [exact Hpk|]. split; [exact Hpv|]. split; [exact Hts|].
  split; [exact (proj1 (replicate_request_accepted nd "foo" "bar" _ Hk Hpk Hpv Hts))|].
  vm_compute. reflexivity.
Defined.

(** ** More on [configHandler] *)

Lemma config_param_idem (v : string) (old : Z) :
  let new := if decide (v = "") then old
             else match Atoi v with Some i => i | None => old end in
  (if decide (v = "") then new
   else match Atoi v with Some i => i | None => new end) = new.
Proof.
  intros new. subst new. destruct (decide (v = "")); [done|].
  by destruct (Atoi v).
Qed.

(** X17.  A reconfiguration is idempotent: serving the same request again
    changes nothing more and gets the same answer. *)
Theorem configHandler_idempotent (nd : Node) (q : gmap string (list string)) :
  configHandler (configHandler nd q).1 q = configHandler nd q.
Proof.
  unfold configHandler. cbn [fst N R W data peers isLeader].
  by rewrite !config_param_idem.
Qed.

Lemma gate_leader sv nd : isLeader nd = true → gate sv nd = true.
Proof. intros Hl. destruct sv; simpl; [done|]. unfold coordinates. by rewrite Hl. Qed.

(** X18.  [configHandler] checks no range: every [int64], written in
    decimal, becomes the new [W], also zero and the negative numbers; and
    the next write on a leader is judged by it.  With the new [W] at most
    one the write is Accepted whatever the peers answer; with the new [W]
    above the number of peers plus one it is QuorumNotMet whatever they
    answer. *)
Theorem reconfigured_quorum_takes_effect (sv : Service)
    (replicateTo : string → string → string → Z → bool)
    (nd : Node) (z : Z) (q : gmap string (list string)) (ts : Z) :
  int64 z → isLeader nd = true → Get q "key" ≠ "" →
  let nd' := (configHandler nd {[ "W" := [timestampParam z] ]}).1 in
  let r := writeHandler sv replicateTo nd' q ts in
  W nd' = z ∧ N nd' = N nd ∧ R nd' = R nd ∧
  (z <= 1 → writeOutcome (resp r) = Accepted) ∧
  (1 + Z.of_nat (length (peers nd)) < z → writeOutcome (resp r) = QuorumNotMet).
Proof.
  intros Hz Hl Hk nd' r.
  assert (W nd' = z ∧ N nd' = N nd ∧ R nd' = R nd ∧ peers nd' = peers nd ∧
          isLeader nd' = true) as (HW & HN & HR & Hp & Hl').
  { subst nd'. unfold configHandler, Get. simpl.
    rewrite lookup_singleton_eq, !lookup_singleton_ne by done. simpl.
    destruct (decide (timestampParam z = "")) as [He|_].
    { by apply timestampParam_nonempty in He. }
    unfold Atoi. rewrite ParseInt_timestampParam by done. done. }
  clearbody nd'. rewrite <- HW in *.
  split_and!; [done..| |].
  - intros Hz1. subst r.
    destruct (writeHandler_cases sv replicateTo nd' q ts)
      as [[? _]|[(_ & Hg & _)|[(_ & _ & _ & _ & Hr)|(_ & _ & tr & rest & _ & _ & Hr)]]];
      [done | by rewrite gate_leader in Hg | |];
      rewrite Hr; simpl.
    + by destruct sv.
    + pose proof (peerAcks_nonneg tr).
      rewrite (proj2 (Z.ltb_ge _ _)) by lia. by destruct sv.
  - intros Hz2. subst r.
    destruct (writeHandler_cases sv replicateTo nd' q ts)
      as [[? _]|[(_ & Hg & _)|[(_ & _ & _ & HW1 & _)|(_ & _ & tr & rest & Hall & _ & Hr)]]];
      [done | by rewrite gate_leader in Hg | lia |];
      rewrite Hr; simpl.
    pose proof (peerAcks_le_length tr).
    assert (length tr <= length (peers nd))%nat.
    { rewrite <- Hp,
        <- (fanoutAll_length replicateTo (peers nd') (Get q "key") (Get q "value") ts),
        Hall, length_app. lia. }
    by rewrite (proj2 (Z.ltb_lt _ _)) by lia.
Qed.

Lemma reconfigured_quorum_takes_effect_witness :
  let replicateTo : string → string → string → Z → bool := λ _ _ _ _, false in
  let nd := mkNode ∅ ["p2"; "p3"] true 3 1 3 in
  let q := writeQuery "foo" "bar" in
  let nd' := (configHandler nd {[ "W" := [timestampParam (-2)] ]}).1 in
  int64 (-2) ∧ isLeader nd = true ∧ Get q "key" ≠ "" ∧
  W nd' = -2 ∧
  writeOutcome (resp (writeHandler PutService replicateTo nd q 7)) = QuorumNotMet ∧
  writeOutcome (resp (writeHandler PutService replicateTo nd' q 7)) = Accepted.
Proof.
  intros replicateTo nd q nd'.
  assert (int64 (-2)) as Hz by (unfold int64, minInt64, maxInt64; lia).
  assert (isLeader nd = true) as Hl by reflexivity.
  assert (Get q "key" ≠ "") as Hk by (vm_compute; discriminate).
  destruct (reconfigured_quorum_takes_effect PutService replicateTo nd (-2) q 7 Hz Hl Hk)
    as (HW & _ & _ & Hacc & _).
  split; [exact Hz|]. split; [exact Hl|]. split; [exact Hk|].
  split; [exact HW|]. split; [reflexivity|]. apply Hacc. lia.
Defined.

(** ** A write across the cluster *)

Section Cluster.

Variables (key val : string) (ts : Z).
Hypothesis Hkey : key ≠ "".
Hypothesis Hts : int64 ts.

Lemma deliver_lookup (cl : gmap string Node) (p' p : string) :
deliver key val ts cl p' !! p =
  if decide (p' = p)
  then (λ nd, set_data nd (applyIfNewer (data nd) key (mkEntry val ts)).1) <$> cl !! p
  else cl !! p.
Proof.
unfold deliver. destruct (decide (p' = p)) as [->|Hne].
- destruct (cl !! p) as [nd|] eqn:Hp; simpl.
  + by rewrite lookup_insert_eq, replicateRequest_applies.
  + by rewrite Hp.
- destruct (cl !! p'); [by rewrite lookup_insert_ne | done].
Qed.

Lemma replicateToCluster_running (cl : gmap string Node) (p : string) :
replicateToCluster cl p key val ts = true ↔ is_Some (cl !! p).
Proof.
unfold replicateToCluster. destruct (cl !! p) as [nd|].
- rewrite replicateRequest_applies by done. split; [eauto | done].
- split; [done | by intros [? ?]].
Qed.

Lemma deliver_running (cl : gmap string Node) (p' p : string) :
is_Some (deliver key val ts cl p' !! p) ↔ is_Some (cl !! p).
Proof.
rewrite deliver_lookup. destruct (decide (p' = p)); [|done].
by rewrite fmap_is_Some.
Qed.

Lemma deliver_holdsEntry (cl : gmap string Node) (p' p : string) :
holdsEntry cl p key (mkEntry val ts) →
holdsEntry (deliver key val ts cl p') p key (mkEntry val ts).
Proof.
intros (nd & Hp & Hd). unfold holdsEntry. rewrite deliver_lookup.
destruct (decide (p' = p)); [|eauto]. rewrite Hp. simpl.
eexists. split; [done|]. simpl. rewrite applyIfNewer_lookup.
destruct (decide (key = key)) as [_|]; [|done]. rewrite Hd. simpl.
by rewrite Z.ltb_irrefl.
Qed.

Lemma deliver_holdsAtLeast (cl : gmap string Node) (p' p : string) :
holdsAtLeast cl p key ts → holdsAtLeast (deliver key val ts cl p') p key ts.
Proof.
intros (nd & en & Hp & Hd & Hle). unfold holdsAtLeast. rewrite deliver_lookup.
destruct (decide (p' = p)); [|eauto]. rewrite Hp. simpl.
eexists _, _. split; [done|]. simpl. rewrite applyIfNewer_lookup.
destruct (decide (key = key)) as [_|]; [|done]. rewrite Hd. simpl. split; [done|].
destruct (Z.ltb_spec (Timestamp en) ts); simpl; lia.
Qed.

Lemma deliver_nothingAsNew (cl : gmap string Node) (p' p : string) :
p' ≠ p → nothingAsNew cl p key ts → nothingAsNew (deliver key val ts cl p') p key ts.
Proof.
intros Hne Hn nd e0. rewrite deliver_lookup.
destruct (decide (p' = p)); [done|]. apply Hn.
Qed.

Lemma deliver_reaches (cl : gmap string Node) (p : string) :
is_Some (cl !! p) →
holdsAtLeast (deliver key val ts cl p) p key ts ∧
(nothingAsNew cl p key ts → holdsEntry (deliver key val ts cl p) p key (mkEntry val ts)).
Proof.
intros [nd Hp]. unfold holdsAtLeast, holdsEntry. rewrite deliver_lookup.
destruct (decide (p = p)) as [_|]; [|done]. rewrite Hp. simpl. split.
- eexists _, _. split; [done|]. simpl. rewrite applyIfNewer_lookup.
  destruct (decide (key = key)) as [_|]; [|done]. split; [done|].
  destruct (data nd !! key) as [e0|]; simpl; [|lia].
  destruct (Z.ltb_spec (Timestamp e0) ts); simpl; lia.
- intros Hn. eexists. split; [done|]. simpl. rewrite applyIfNewer_lookup.
  destruct (decide (key = key)) as [_|]; [|done]. f_equal.
  destruct (data nd !! key) as [e0|] eqn:Hd; simpl; [|done].
  specialize (Hn nd e0 Hp Hd). by rewrite (proj2 (Z.ltb_lt _ _)).
Qed.

Lemma settle_running (cl : gmap string Node) (l : list string) (p : string) :
is_Some (foldl (deliver key val ts) cl l !! p) ↔ is_Some (cl !! p).
Proof.
revert cl. induction l as [|p' l IH]; intros cl; simpl; [done|].
by rewrite IH, deliver_running.
Qed.

Lemma settle_holdsEntry (cl : gmap string Node) (l : list string) (p : string) :
holdsEntry cl p key (mkEntry val ts) →
holdsEntry (foldl (deliver key val ts) cl l) p key (mkEntry val ts).
Proof.
revert cl. induction l as [|p' l IH]; intros cl H; simpl; [done|].
by apply IH, deliver_holdsEntry.
Qed.

Lemma settle_holdsAtLeast (cl : gmap string Node) (l : list string) (p : string) :
holdsAtLeast cl p key ts → holdsAtLeast (foldl (deliver key val ts) cl l) p key ts.
Proof.
revert cl. induction l as [|p' l IH]; intros cl H; simpl; [done|].
by apply IH, deliver_holdsAtLeast.
Qed.

(** Once the calls to the peers of a list have run, every running peer of
    the list holds the key with a timestamp at least [ts], and holds the
    very entry if it had nothing as new. *)
Lemma settle_reaches (l : list string) : ∀ (cl : gmap string Node) (p : string),
p ∈ l → is_Some (cl !! p) →
holdsAtLeast (foldl (deliver key val ts) cl l) p key ts ∧
(nothingAsNew cl p key ts ∨ holdsEntry cl p key (mkEntry val ts) →
   holdsEntry (foldl (deliver key val ts) cl l) p key (mkEntry val ts)).
Proof.
induction l as [|p' l IH]; intros cl p Hin Hrun; [by apply elem_of_nil in Hin|].
simpl. destruct (decide (p' = p)) as [->|Hne].
- destruct (deliver_reaches cl p Hrun) as [Hal Hex]. split.
  + by apply settle_holdsAtLeast.
  + intros [Hn|Hh]; apply settle_holdsEntry; [by apply Hex | by apply deliver_holdsEntry].
- apply elem_of_cons in Hin as [->|Hin]; [done|].
  destruct (IH (deliver key val ts cl p') p Hin) as [Hal Hex].
  { by apply deliver_running. }
  split; [done|]. intros [Hn|Hh]; apply Hex.
  + left. by apply deliver_nothingAsNew.
  + right. by apply deliver_holdsEntry.
Qed.

End Cluster.

Lemma peerAcks_all tr :
  Z.of_nat (length tr) <= peerAcks tr → ∀ p b, (p, b) ∈ tr → b = true.
Proof.
  induction tr as [|[p' b'] tr IH]; intros Hle p b Hin; [by apply elem_of_nil in Hin|].
  rewrite peerAcks_cons in Hle. pose proof (peerAcks_le_length tr).
  simpl length in Hle.
  apply elem_of_cons in Hin as [[= -> ->]|Hin].
  - destruct b'; [done | lia].
  - apply (IH ltac:(destruct b'; lia) p b Hin).
Qed.

(** The state of the cluster when a unanimous write is answered. *)
Lemma clusterWrite_unanimous
    (sv : Service) (cl : gmap string Node) (addr : string) (nd : Node)
    (q : gmap string (list string)) (ts : Z)
    (rsp : Response) (cl' : gmap string Node) (pending : list string) :
  cl !! addr = Some nd →
  Get q "key" ≠ "" → int64 ts →
  W nd = 1 + Z.of_nat (length (peers nd)) →
  clusterWrite sv cl addr q ts = Some (rsp, cl', pending) →
  writeOutcome rsp = Accepted →
  let written := mkEntry (Get q "value") ts in
  pending = [] ∧
  holdsEntry cl' addr (Get q "key") written ∧
  ∀ p, p ∈ peers nd →
    holdsAtLeast cl' p (Get q "key") ts ∧
    (nothingAsNew cl p (Get q "key") ts → holdsEntry cl' p (Get q "key") written).
Proof.
  intros Hnd Hk Hts HW Hcw Hacc written. subst written.
  unfold clusterWrite in Hcw. rewrite Hnd in Hcw.
  injection Hcw as <- <- <-.
  set (rt := replicateToCluster cl) in *.
  set (key := Get q "key") in *. set (val := Get q "value") in *.
  assert (∀ c : gmap string Node,
            holdsEntry (<[addr := set_data nd (localWrite (data nd) key (mkEntry val ts))]> c)
              addr key (mkEntry val ts)) as Hself.
  { intros c. eexists. rewrite lookup_insert_eq. split; [done|]. simpl.
    apply localWrite_lookup. }
  pose proof (writeHandler_cases sv rt nd q ts) as Hc. cbv zeta in Hc.
  fold key val in Hc.
  destruct Hc
    as [[? _]|[(_ & _ & Hr)|[(_ & _ & _ & HW1 & Hr)|(_ & _ & tr & rest & Hall & _ & Hr)]]];
    [done | | |]; rewrite Hr in *; simpl in *.
  - done.
  - assert (peers nd = []) as Hnil by (destruct (peers nd); [done | simpl in HW; lia]).
    rewrite Hnil. split_and!; [done | apply Hself |].
    intros p Hp. by apply elem_of_nil in Hp.
  - destruct (Z.ltb_spec (1 + peerAcks tr) (W nd)) as [|Hge]; [done|].
    pose proof (peerAcks_le_length tr) as Hle.
    pose proof (fanoutAll_length rt (peers nd) key val ts) as Hlen.
    rewrite Hall, length_app in Hlen.
    assert (rest = []) as -> by (destruct rest; [done | simpl in Hlen; lia]).
    rewrite app_nil_r in Hall. subst tr.
    rewrite fanoutAll_peers.
    split_and!; [done | by apply settle_holdsEntry |].
    intros p Hp.
    assert (is_Some (cl !! p)) as Hrun.
    { apply (replicateToCluster_running key val ts Hk Hts).
      apply (peerAcks_all (fanoutAll rt (peers nd) key val ts)) with (p := p);
        [simpl in Hlen; lia|].
      unfold fanoutAll. apply list_elem_of_fmap. by exists p. }
    set (c0 := <[addr := set_data nd (localWrite (data nd) key (mkEntry val ts))]> cl).
    assert (is_Some (c0 !! p)) as Hrun0.
    { subst c0. destruct (decide (addr = p)) as [->|Hne];
        [by rewrite lookup_insert_eq | by rewrite lookup_insert_ne]. }
    destruct (settle_reaches key val ts Hk Hts (peers nd) c0 p Hp Hrun0) as [Hal Hex].
    split; [done|]. intros Hn.
    apply Hex. destruct (decide (addr = p)) as [->|Hne].
    + right. apply Hself.
    + left. intros ndp e0. subst c0. rewrite lookup_insert_ne by done. apply Hn.
Qed.





(** ** A read after a unanimous write *)

Lemma plainText_valid (s : string) : plainText s = true → ValidString s = true.
Proof.
  unfold ValidString, bytes. induction s as [|c s IH]; [done|].
  simpl. intros [Hc Hs]%andb_prop.
  assert ((byteVal c <? 128) = true) as ->.
  { unfold isAlnum in Hc. apply Z.ltb_lt. lia. }
  by apply IH.
Qed.

(** An [Entry] with a valid value and an [int64] timestamp is read back
    from its encoding. *)
Lemma Decode_Marshal (en : Entry) :
  ValidString (Value en) = true → int64 (Timestamp en) →
  Decode (Marshal en) = Some en.
Proof.
  intros Hval Hts. unfold ValidString in Hval. rewrite <- bytes_length in Hval.
  unfold Marshal, Decode. cbn [bytes list_ascii_of_string app].
  rewrite expect_head. cbn [mbind option_bind].
  change (encodeString ("v"%char :: "a"%char :: "l"%char :: "u"%char :: ["e"%char]))
    with (encodeString (bytes "value")).
  rewrite readString_encodeString by reflexivity. cbn [mbind option_bind].
  destruct (decide (bytes "value" = bytes "value")); [|done].
  cbn [app]. rewrite expect_head. cbn [mbind option_bind].
  rewrite readString_encodeString by done. cbn [mbind option_bind app].
  rewrite expect_head. cbn [mbind option_bind].
  change (encodeString _) with (encodeString (bytes "timestamp")).
  rewrite readString_encodeString by reflexivity. cbn [mbind option_bind].
  destruct (decide (bytes "timestamp" = bytes "timestamp")); [|done].
  cbn [app]. rewrite expect_head. cbn [mbind option_bind].
  rewrite readInt_FormatInt by done. cbn [mbind option_bind].
  rewrite expect_head. cbn [mbind option_bind].
  unfold bytes. rewrite string_of_list_ascii_of_string. by destruct en.
Qed.

(** The collecting loop over results that all carry the same entry. *)
Lemma collect_uniform_keep r w resCh : ∀ got,
  (∀ x, x ∈ resCh → ok x = true → e x = w) →
  (collect r got w resCh).2 = w.
Proof.
  induction resCh as [|r2 rest IH]; intros got Hall; simpl; [done|].
  assert (∀ x, x ∈ rest → ok x = true → e x = w) as Hrest.
  { intros x Hx. apply Hall. by right. }
  destruct (ok r2) eqn:Hok; simpl; [|by apply IH].
  rewrite (Hall r2) by first [done | by left]. rewrite Z.ltb_irrefl.
  destruct (r <=? got + 1); simpl; [done | by apply IH].
Qed.

Lemma collect_uniform r w resCh : ∀ got best,
  Timestamp best < Timestamp w →
  (∀ x, x ∈ resCh → ok x = true → e x = w) →
  (∃ x, x ∈ resCh ∧ ok x = true) →
  got < (collect r got best resCh).1 ∧ (collect r got best resCh).2 = w.
Proof.
  induction resCh as [|r2 rest IH]; intros got best Hlt Hall (x & Hx & Hokx).
  { by apply elem_of_nil in Hx. }
  assert (∀ y, y ∈ rest → ok y = true → e y = w) as Hrest.
  { intros y Hy. apply Hall. by right. }
  simpl. destruct (ok r2) eqn:Hok; simpl.
  - rewrite (Hall r2) by first [done | by left].
    rewrite (proj2 (Z.ltb_lt _ _) Hlt).
    destruct (r <=? got + 1); simpl; [split; [lia | done]|].
    pose proof (collect_mono r rest (got + 1) w).
    split; [lia | by apply collect_uniform_keep].
  - apply IH; try done. apply elem_of_cons in Hx as [->|Hx]; [congruence | eauto].
Qed.

Lemma peerFetch_holds (cl : gmap string Node) (key p : string) (en : Entry) :
  ValidString (Value en) = true → int64 (Timestamp en) →
  holdsEntry cl p key en → peerFetch cl key p = mkResult en true.
Proof.
  intros Hv Hts (nd & Hp & Hd). unfold peerFetch. rewrite Hp.
  unfold getReplicaHandler, lookupHandler, replicaQuery, Get.
  rewrite lookup_singleton_eq. rewrite Hd. simpl.
  by rewrite Decode_Marshal.
Qed.

Lemma peerFetch_down (cl : gmap string Node) (key p : string) :
  cl !! p = None → ok (peerFetch cl key p) = false.
Proof. intros Hp. unfold peerFetch. by rewrite Hp. Qed.


